(** * meter-go: transactions, clauses and fixed-width identifiers

    A shallow embedding of the Go packages [meter] (addresses and 32-byte
    hashes) and [tx] (clauses and transactions), together with models of
    the library routines they call ([encoding/hex], [strings],
    [encoding/binary], [math/big] and go-ethereum's [rlp]).

    Conventions.
    - A Go [byte] / [uintN] is a [Z]; the range is a well-formedness
      predicate and wrap-around is written out where the code can wrap.
    - A Go [string] is a Rocq [string]: a sequence of 8-bit characters, so
      [String.length] is Go's [len].
    - A Go result pair [(v, err)] is a Rocq pair [(v, option error)];
      [None] is Go's [nil] error.

    The definitions come first: the library models, the two packages, the
    vocabulary of the properties, and a store with explicit pointers for
    the statements on copies.  The properties follow. *)

From Stdlib Require Import ZArith List String Ascii Bool Lia.
From stdpp Require Import base option list gmap.
Import ListNotations.

Local Open Scope Z_scope.
Set Warnings "-register-all".

(** ** Errors *)

(** The error values the modelled code can produce.  go-ethereum's [rlp]
    errors keep their Go names. *)
Inductive error : Type :=
| errors_New (msg : string)            (* errors.New(msg) *)
| hex_InvalidByteError (b : Z)         (* hex.InvalidByteError(b) *)
| hex_ErrLength                        (* hex.ErrLength *)
| crypto_error (msg : string)          (* any failure of crypto.SigToPub *)
| rlp_ErrExpectedString
| rlp_ErrExpectedList
| rlp_ErrCanonInt
| rlp_ErrCanonSize
| rlp_ErrElemTooLarge
| rlp_ErrValueTooLarge
| rlp_ErrMoreThanOneValue
| rlp_errNotAtEOL                      (* "input list has too many elements" *)
| rlp_errUintOverflow
| rlp_EOL                              (* end of the enclosing list *)
| rlp_errTooFewElements                (* struct decoder: "too few elements" *)
| rlp_errInputTooLong                  (* fixed-size array: "input string too long" *)
| rlp_errInputTooShort                 (* fixed-size array: "input string too short" *)
| rlp_errNegativeBigInt                (* encoder: negative *big.Int *)
| io_EOF
| io_ErrUnexpectedEOF
| fuel_exhausted                       (* the loop bound of the model was reached *).

(** A call that can panic: the value it returns, or the value handed to
    [panic]. *)
Inductive outcome (A : Type) : Type :=
| Returns (a : A)
| Panics (e : error).
Arguments Returns {A} a.
Arguments Panics {A} e.

(** ** Library models *)

Module strings.

(** [strings.ToLower] on ASCII input: 'A'..'Z' are mapped to 'a'..'z',
    every other byte is kept.  The source only compares the lowered
    two-byte prefix with "0x", and no non-ASCII two-byte string lowers
    to "0x", so the byte-wise map decides that comparison exactly. *)
Definition lower_byte (c : ascii) : ascii :=
  let n := nat_of_ascii c in
  if ((65 <=? n) && (n <=? 90))%nat then ascii_of_nat (n + 32) else c.

Fixpoint ToLower (s : string) : string :=
  match s with
  | EmptyString => EmptyString
  | String c s' => String (lower_byte c) (ToLower s')
  end.

End strings.

Module hex.

(** [fromHexChar]: the value of one hex digit, upper or lower case. *)
Definition fromHexChar (c : Z) : option Z :=
  if (48 <=? c) && (c <=? 57) then Some (c - 48)
  else if (97 <=? c) && (c <=? 102) then Some (c - 97 + 10)
  else if (65 <=? c) && (c <=? 70) then Some (c - 65 + 10)
  else None.

(** The loop of [hex.Decode(dst, src)]: two source bytes per step, the
    decoded byte stored at [dst[i]].  Returns the updated [dst], the
    number of bytes written and the error. *)
Fixpoint Decode_from (dst : list Z) (i : nat) (src : list Z)
  : list Z * nat * option error :=
  match src with
  | p :: q :: rest =>
      match fromHexChar p with
      | None => (dst, i, Some (hex_InvalidByteError p))
      | Some a =>
          match fromHexChar q with
          | None => (dst, i, Some (hex_InvalidByteError q))
          | Some b =>
              Decode_from (<[i := Z.lor (Z.shiftl a 4) b]> dst) (S i) rest
          end
      end
  | [p] =>
      match fromHexChar p with
      | None => (dst, i, Some (hex_InvalidByteError p))
      | Some _ => (dst, i, Some hex_ErrLength)
      end
  | [] => (dst, i, None)
  end.

Definition Decode (dst src : list Z) : list Z * nat * option error :=
  Decode_from dst 0 src.

Definition hextable : string := "0123456789abcdef".

(** [hextable[i]] *)
Definition hexdigit (i : Z) : ascii :=
  match String.get (Z.to_nat i) hextable with
  | Some c => c
  | None => Ascii.zero
  end.

(** [hex.EncodeToString(src)]: for every source byte [v] the two digits
    [hextable[v>>4]] and [hextable[v&0x0f]]. *)
Fixpoint EncodeToString (src : list Z) : string :=
  match src with
  | [] => EmptyString
  | v :: src' =>
      String (hexdigit (Z.shiftr v 4))
             (String (hexdigit (Z.land v 15)) (EncodeToString src'))
  end.

End hex.

(** [[]byte(s)]: the bytes of a Go string. *)
Definition bytes_of_string (s : string) : list Z :=
  map (fun c => Z.of_nat (nat_of_ascii c)) (list_ascii_of_string s).

Module meter.

(** [type Bytes32 [32]byte] and [type Address common.Address] (20
    bytes): fixed-size arrays, modelled as lists whose length is part of
    well-formedness. *)
Definition AddressLength : nat := 20.
Definition Address := list Z.
Definition Bytes32 := list Z.

(** The zero values [Address{}] and [Bytes32{}]. *)
Definition Address_zero : Address := repeat 0 AddressLength.
Definition Bytes32_zero : Bytes32 := repeat 0 32%nat.

Definition Bytes (b : list Z) : list Z := b.

Definition ParseBytes32 (s : string) : Bytes32 * option error :=
  let stripped : string + error :=
    if (String.length s =? 32 * 2)%nat then inl s
    else if (String.length s =? 32 * 2 + 2)%nat then
      if negb (String.eqb (strings.ToLower (substring 0 2 s)) "0x")
      then inr (errors_New "invalid prefix")
      else inl (substring 2 (String.length s - 2) s)
    else inr (errors_New "invalid length") in
  match stripped with
  | inr e => (Bytes32_zero, Some e)
  | inl s =>
      let b := Bytes32_zero in
      match hex.Decode b (bytes_of_string s) with
      | (_, _, Some err) => (Bytes32_zero, Some err)
      | (b, _, None) => (b, None)
      end
  end.

Definition ParseAddress (s : string) : Address * option error :=
  let stripped : string + error :=
    if (String.length s =? AddressLength * 2)%nat then inl s
    else if (String.length s =? AddressLength * 2 + 2)%nat then
      if negb (String.eqb (strings.ToLower (substring 0 2 s)) "0x")
      then inr (errors_New "invalid prefix")
      else inl (substring 2 (String.length s - 2) s)
    else inr (errors_New "invalid length") in
  match stripped with
  | inr e => (Address_zero, Some e)
  | inl s =>
      let addr := Address_zero in
      match hex.Decode addr (bytes_of_string s) with
      | (_, _, Some err) => (Address_zero, Some err)
      | (addr, _, None) => (addr, None)
      end
  end.

Definition MustParseBytes32 (s : string) : outcome Bytes32 :=
  let '(b32, err) := ParseBytes32 s in
  match err with
  | Some err => Panics err
  | None => Returns b32
  end.

Definition MustParseAddress (s : string) : outcome Address :=
  let '(addr, err) := ParseAddress s in
  match err with
  | Some err => Panics err
  | None => Returns addr
  end.

(** [Address.String] and [Bytes32.String]. *)
Definition String (b : list Z) : string :=
  String.append "0x" (hex.EncodeToString b).

(** Modelled from the spec: [meter.StorageSize] is declared outside the
    given sources; the spec says the encoded size of a transaction is the
    byte length of its full encoding, found by encoding and measuring.
    The type is a writer that adds up the lengths of what is written to
    it. *)
Definition StorageSize : Type := Z.

Definition StorageSize_Write (s : StorageSize) (b : list Z) : StorageSize :=
  s + Z.of_nat (length b).

End meter.

(** A fallible library computation: the value, or the error. *)
Inductive result (A : Type) : Type :=
| Ok (a : A)
| Err (e : error).
Arguments Ok {A} a.
Arguments Err {A} e.

Definition rbind {A B} (m : result A) (k : A -> result B) : result B :=
  match m with
  | Ok a => k a
  | Err e => Err e
  end.

Notation "'do' x <- m ; k" := (rbind m (fun x => k))
  (at level 10, x pattern, m at level 100, k at level 200,
   format "'[v' 'do'  x  <-  m ; '/' k ']'").

Module binary.

(** [n] big-endian bytes of [v]: byte [k] from the right is
    [(v >> 8k) & 0xff]. *)
Fixpoint be_bytes (n : nat) (v : Z) : list Z :=
  match n with
  | O => []
  | S n' => Z.land (Z.shiftr v (8 * Z.of_nat n')) 255 :: be_bytes n' v
  end.

(** The unsigned integer a big-endian byte string denotes. *)
Definition be_value (b : list Z) : Z :=
  fold_left (fun acc x => Z.lor (Z.shiftl acc 8) x) b 0.

(** [binary.BigEndian.PutUint64(b, v)] on an 8-byte buffer. *)
Definition BigEndian_PutUint64 (v : Z) : list Z := be_bytes 8 v.

(** [binary.BigEndian.Uint32(b)]: reads [b[0..3]]. *)
Definition BigEndian_Uint32 (b : list Z) : Z := be_value (take 4 b).

End binary.

Module big.

(** [*big.Int] values are unbounded integers. *)
Definition NewInt (x : Z) : Z := x.
Definition Mul (x y : Z) : Z := x * y.
Definition Add (x y : Z) : Z := x + y.

(** [Int.Div] is Euclidean division: the remainder is never negative.
    (Division by zero panics in Go; the source divides by 255 only.) *)
Definition Div (x y : Z) : Z := Z.sgn y * (x / Z.abs y).

(** [Int.Bytes]: the big-endian bytes of the absolute value, without
    leading zeros. *)
Fixpoint le_bytes (fuel : nat) (x : Z) : list Z :=
  match fuel with
  | O => []
  | S fuel' =>
      if x =? 0 then [] else (x mod 256) :: le_bytes fuel' (x / 256)
  end.

Definition Bytes (x : Z) : list Z :=
  rev (le_bytes (S (Z.to_nat (Z.log2 (Z.abs x)))) (Z.abs x)).

(** [Int.SetBytes]: the integer a big-endian byte string denotes. *)
Definition SetBytes (b : list Z) : Z := binary.be_value b.

End big.

(** [math.MaxUint8] *)
Definition MaxUint8 : Z := 255.

(** ** The digest and signature collaborators *)

(** [meter.NewBlake2b] and go-ethereum's [crypto] package are used as
    capabilities:
    - [Blake2b_Sum bs] is the 32-byte digest a fresh [meter.NewBlake2b()]
      writer returns from [Sum] after [bs] has been written to it;
    - [SigToPub hash sig] recovers the public key of a signature, or fails;
    - [PubkeyToAddress] derives the 20-byte address of a public key. *)
Class Crypto : Type := {
  Blake2b_Sum : list Z -> meter.Bytes32;
  PublicKey : Type;
  SigToPub : list Z -> list Z -> result PublicKey;
  PubkeyToAddress : PublicKey -> meter.Address
}.

(** ** BLAKE2b-256 *)

(** The digest behind [meter.NewBlake2b]: unkeyed BLAKE2b with a 32-byte
    output (RFC 7693).  It is used to evaluate hashes of concrete
    transactions; the general statements hold for every digest. *)
Module blake2b.

Definition mask64 : Z := 2 ^ 64 - 1.
Definition add64 (x y : Z) : Z := Z.land (x + y) mask64.
Definition rotr64 (x : Z) (n : Z) : Z :=
  Z.land (Z.lor (Z.shiftr x n) (Z.shiftl x (64 - n))) mask64.

Definition IV : list Z :=
  [ 0x6a09e667f3bcc908; 0xbb67ae8584caa73b; 0x3c6ef372fe94f82b;
    0xa54ff53a5f1d36f1; 0x510e527fade682d1; 0x9b05688c2b3e6c1f;
    0x1f83d9abfb41bd6b; 0x5be0cd19137e2179 ].

Definition SIGMA : list (list nat) :=
  [ [0; 1; 2; 3; 4; 5; 6; 7; 8; 9; 10; 11; 12; 13; 14; 15];
    [14; 10; 4; 8; 9; 15; 13; 6; 1; 12; 0; 2; 11; 7; 5; 3];
    [11; 8; 12; 0; 5; 2; 15; 13; 10; 14; 3; 6; 7; 1; 9; 4];
    [7; 9; 3; 1; 13; 12; 11; 14; 2; 6; 5; 10; 4; 0; 15; 8];
    [9; 0; 5; 7; 2; 4; 10; 15; 14; 1; 11; 12; 6; 8; 3; 13];
    [2; 12; 6; 10; 0; 11; 8; 3; 4; 13; 7; 5; 15; 14; 1; 9];
    [12; 5; 1; 15; 14; 13; 4; 10; 0; 7; 6; 3; 9; 2; 8; 11];
    [13; 11; 7; 14; 12; 1; 3; 9; 5; 0; 15; 4; 8; 6; 2; 10];
    [6; 15; 14; 9; 11; 3; 0; 8; 12; 2; 13; 7; 1; 4; 10; 5];
    [10; 2; 8; 4; 7; 6; 1; 5; 15; 11; 9; 14; 3; 12; 13; 0] ]%nat.

Definition word (v : list Z) (i : nat) : Z := nth i v 0.

(** The mixing function G on the work vector [v]. *)
Definition G (v : list Z) (a b c d : nat) (x y : Z) : list Z :=
  let va := add64 (add64 (word v a) (word v b)) x in
  let vd := rotr64 (Z.lxor (word v d) va) 32 in
  let vc := add64 (word v c) vd in
  let vb := rotr64 (Z.lxor (word v b) vc) 24 in
  let va := add64 (add64 va vb) y in
  let vd := rotr64 (Z.lxor vd va) 16 in
  let vc := add64 vc vd in
  let vb := rotr64 (Z.lxor vb vc) 63 in
  <[a := va]> (<[b := vb]> (<[c := vc]> (<[d := vd]> v))).

Definition round (m : list Z) (v : list Z) (r : nat) : list Z :=
  let s := nth (r mod 10) SIGMA [] in
  let mw (k : nat) := word m (nth k s 0%nat) in
  let v := G v 0 4 8 12 (mw 0%nat) (mw 1%nat) in
  let v := G v 1 5 9 13 (mw 2%nat) (mw 3%nat) in
  let v := G v 2 6 10 14 (mw 4%nat) (mw 5%nat) in
  let v := G v 3 7 11 15 (mw 6%nat) (mw 7%nat) in
  let v := G v 0 5 10 15 (mw 8%nat) (mw 9%nat) in
  let v := G v 1 6 11 12 (mw 10%nat) (mw 11%nat) in
  let v := G v 2 7 8 13 (mw 12%nat) (mw 13%nat) in
  G v 3 4 9 14 (mw 14%nat) (mw 15%nat).

(** The compression function F: chain value [h], 16 message words [m],
    byte counter [t], final-block flag [f]. *)
Definition F (h m : list Z) (t : Z) (f : bool) : list Z :=
  let v := h ++ IV in
  let v := <[12%nat := Z.lxor (word v 12) (Z.land t mask64)]> v in
  let v := <[13%nat := Z.lxor (word v 13) (Z.shiftr t 64)]> v in
  let v := if f then <[14%nat := Z.lxor (word v 14) mask64]> v else v in
  let v := fold_left (round m) (seq 0 12) v in
  map (fun i => Z.lxor (Z.lxor (word h i) (word v i)) (word v (i + 8)))
      (seq 0 8).

(** Little-endian value of a byte string, and the 8 little-endian bytes
    of a word. *)
Definition le_value (b : list Z) : Z :=
  fold_right (fun x acc => Z.lor x (Z.shiftl acc 8)) 0 b.

Definition le_bytes64 (w : Z) : list Z :=
  map (fun k => Z.land (Z.shiftr w (8 * Z.of_nat k)) 255) (seq 0 8).

(** The 16 words of a block of at most 128 bytes, zero padded. *)
Definition block_words (blk : list Z) : list Z :=
  let padded := blk ++ repeat 0 (128 - length blk) in
  map (fun k => le_value (take 8 (drop (8 * k) padded))) (seq 0 16).

(** Absorb the input block by block; the last block (possibly empty,
    possibly full) is compressed with the final flag. *)
Fixpoint absorb (fuel : nat) (h : list Z) (t : Z) (d : list Z) : list Z :=
  match fuel with
  | O => h
  | S fuel' =>
      if (length d <=? 128)%nat
      then F h (block_words d) (t + Z.of_nat (length d)) true
      else absorb fuel' (F h (block_words (take 128 d)) (t + 128) false)
                  (t + 128) (drop 128 d)
  end.

(** Modelled from the spec: the body of [meter.NewBlake2b] is not part of
    the sources; the spec describes it as a 256-bit cryptographic digest
    with incremental write-then-finalize semantics, and the code names it
    BLAKE2b.  [Sum256 d] is the digest of the bytes [d] written to a fresh
    writer. *)
Definition Sum256 (d : list Z) : list Z :=
  let h0 := <[0%nat := Z.lxor (word IV 0) (Z.lxor 0x01010000 32)]> IV in
  let h := absorb (S (length d / 128)) h0 0 d in
  take 32 (concat (map le_bytes64 h)).

End blake2b.

(** ** go-ethereum's [rlp] package *)

(** The encoder follows [encode.go]; the decoder follows [decode.go] of
    go-ethereum 1.9 for a stream over a byte slice ([rlp.DecodeBytes], an
    input-limited [Stream]).  A stream position is the list of bytes still
    unread in the innermost open list, and a flag telling whether a list
    is open.  The library keeps a stack of the open lists' sizes and
    positions; here opening a list cuts its payload out of the input and
    [ListEnd] requires the payload to be used up, which is the same
    because [Kind] lets no value reach beyond the enclosing list. *)
Module rlp.

(** What [interface{}] values decode to: a byte string ([[]byte]) or a
    list ([[]interface{}]). *)
Inductive item : Type :=
| Str (b : list Z)
| Lst (l : list item).

(** *** Encoding *)

(** [putint]: the big-endian bytes of a [uint64] without leading zeros
    (one byte for values below 256). *)
Definition putint (i : Z) : list Z :=
  let i := i mod 2 ^ 64 in
  if i <? 2 ^ 8 then binary.be_bytes 1 i
  else if i <? 2 ^ 16 then binary.be_bytes 2 i
  else if i <? 2 ^ 24 then binary.be_bytes 3 i
  else if i <? 2 ^ 32 then binary.be_bytes 4 i
  else if i <? 2 ^ 40 then binary.be_bytes 5 i
  else if i <? 2 ^ 48 then binary.be_bytes 6 i
  else if i <? 2 ^ 56 then binary.be_bytes 7 i
  else binary.be_bytes 8 i.

Definition len (b : list Z) : Z := Z.of_nat (length b).

(** [puthead(buf, smalltag, largetag, size)] *)
Definition puthead (smalltag largetag : Z) (size : Z) : list Z :=
  if size <? 56 then [smalltag + size]
  else let sizebytes := putint size in
       (largetag + len sizebytes) :: sizebytes.

Definition encodeStringHeader (size : Z) : list Z := puthead 0x80 0xB7 size.
Definition listHeader (size : Z) : list Z := puthead 0xC0 0xF7 size.

(** [encbuf.encodeString], used by [writeBytes] and [writeByteArray]. *)
Definition encodeString (b : list Z) : list Z :=
  match b with
  | [x] => if x <=? 0x7F then [x] else encodeStringHeader 1 ++ b
  | _ => encodeStringHeader (len b) ++ b
  end.

(** [writeUint], for every unsigned integer type. *)
Definition writeUint (i : Z) : list Z :=
  if i =? 0 then [0x80]
  else if i <? 128 then [i]
  else let s := putint i in (0x80 + len s) :: s.

(** [writeBigInt]; a negative value is an encoding error. *)
Definition writeBigInt (i : Z) : result (list Z) :=
  if i <? 0 then Err rlp_errNegativeBigInt
  else if i =? 0 then Ok [0x80]
  else Ok (encodeString (big.Bytes i)).

(** A pointer to a byte array: [nil] is written as the empty string. *)
Definition writeByteArrayPtr (p : option (list Z)) : list Z :=
  match p with
  | None => [0x80]
  | Some a => encodeString a
  end.

(** A list: header, then the concatenated encodings of the elements. *)
Definition encodeList (payload : list Z) : list Z :=
  listHeader (len payload) ++ payload.

(** [writeInterface] on a decoded item. *)
Fixpoint encodeItem (v : item) : list Z :=
  match v with
  | Str b => encodeString b
  | Lst l => encodeList (concat (map encodeItem l))
  end.

(** Encode every element with a fallible writer, in order. *)
Fixpoint encodeAll {A} (w : A -> result (list Z)) (l : list A)
  : result (list Z) :=
  match l with
  | [] => Ok []
  | x :: l' =>
      do b <- w x;
      do bs <- encodeAll w l';
      Ok (b ++ bs)
  end.

(** *** Decoding *)

Inductive Kind_t : Type := Byte | String | List.

(** A decoder reads a value of type [A] at a stream position. *)
Definition decoder (A : Type) : Type :=
  bool -> list Z -> result (A * list Z).

(** The error of reading past the end: of the enclosing list, or of the
    input limit. *)
Definition overrun (inList : bool) : error :=
  if inList then rlp_ErrElemTooLarge else rlp_ErrValueTooLarge.

Definition readByte (inList : bool) (s : list Z) : result (Z * list Z) :=
  match s with
  | [] => Err (overrun inList)
  | b :: s' => Ok (b, s')
  end.

(** [readFull]: exactly [n] bytes. *)
Definition readFull (inList : bool) (n : Z) (s : list Z)
  : result (list Z * list Z) :=
  if len s <? n then Err (overrun inList)
  else Ok (take (Z.to_nat n) s, drop (Z.to_nat n) s).

(** [Stream.readUint(size)]: a big-endian integer of [size] bytes. *)
Definition readUint (inList : bool) (size : Z) (s : list Z)
  : result (Z * list Z) :=
  if size =? 0 then Ok (0, s)
  else if size =? 1 then readByte inList s
  else
    do (b, s') <- readFull inList size s;
    if nth 0 b 0 =? 0 then Err rlp_ErrCanonSize
    else Ok (binary.be_value b, s').

(** [Stream.readKind]: the type tag, the size and (for [Byte]) the
    value.  At top level the read-past-the-end errors become [io.EOF]. *)
Definition readKind (inList : bool) (s : list Z)
  : result (Kind_t * Z * Z * list Z) :=
  match readByte inList s with
  | Err e => Err (if inList then e else io_EOF)
  | Ok (b, s') =>
      if b <? 0x80 then Ok (Byte, 0, b, s')
      else if b <? 0xB8 then Ok (String, b - 0x80, 0, s')
      else if b <? 0xC0 then
        do (size, s'') <- readUint inList (b - 0xB7) s';
        if size <? 56 then Err rlp_ErrCanonSize
        else Ok (String, size, 0, s'')
      else if b <? 0xF8 then Ok (List, b - 0xC0, 0, s')
      else
        do (size, s'') <- readUint inList (b - 0xF7) s';
        if size <? 56 then Err rlp_ErrCanonSize
        else Ok (List, size, 0, s'')
  end.

(** [Stream.Kind]: end of list first, then the tag, then the size
    against what is left of the enclosing list or, at top level, of the
    input. *)
Definition Kind (inList : bool) (s : list Z)
  : result (Kind_t * Z * Z * list Z) :=
  if inList && (len s =? 0) then Err rlp_EOL
  else
    do (k, size, bv, s') <- readKind inList s;
    if len s' <? size then Err (overrun inList)
    else Ok (k, size, bv, s').

(** [Stream.uint(maxbits)] *)
Definition uint (maxbits : Z) : decoder Z := fun inList s =>
  do (k, size, bv, s') <- Kind inList s;
  match k with
  | Byte => if bv =? 0 then Err rlp_ErrCanonInt else Ok (bv, s')
  | String =>
      if maxbits / 8 <? size then Err rlp_errUintOverflow
      else
        match readUint inList size s' with
        | Err rlp_ErrCanonSize => Err rlp_ErrCanonInt
        | Err e => Err e
        | Ok (v, s'') =>
            if (0 <? size) && (v <? 128) then Err rlp_ErrCanonSize
            else Ok (v, s'')
        end
  | List => Err rlp_ErrExpectedString
  end.

(** [Stream.Bytes] *)
Definition Bytes : decoder (list Z) := fun inList s =>
  do (k, size, bv, s') <- Kind inList s;
  match k with
  | Byte => Ok ([bv], s')
  | String =>
      do (b, s'') <- readFull inList size s';
      if (size =? 1) && (nth 0 b 0 <? 128) then Err rlp_ErrCanonSize
      else Ok (b, s'')
  | List => Err rlp_ErrExpectedString
  end.

(** [decodeByteArray] into an array of [vlen] bytes. *)
Definition decodeByteArray (vlen : Z) : decoder (list Z) := fun inList s =>
  do (k, size, bv, s') <- Kind inList s;
  match k with
  | Byte =>
      if vlen =? 0 then Err rlp_errInputTooLong
      else if 1 <? vlen then Err rlp_errInputTooShort
      else Ok ([bv], s')
  | String =>
      if vlen <? size then Err rlp_errInputTooLong
      else if size <? vlen then Err rlp_errInputTooShort
      else
        do (b, s'') <- readFull inList size s';
        if (size =? 1) && (nth 0 b 0 <? 128) then Err rlp_ErrCanonSize
        else Ok (b, s'')
  | List => Err rlp_ErrExpectedString
  end.

(** [decodeBigInt] *)
Definition decodeBigInt : decoder Z := fun inList s =>
  do (b, s') <- Bytes inList s;
  if (0 <? len b) && (nth 0 b 0 =? 0) then Err rlp_ErrCanonInt
  else Ok (big.SetBytes b, s').

(** The decoder of a pointer field tagged [rlp:"nil"]: an empty string
    or list gives [nil], anything else is decoded as the element. *)
Definition optionalPtr {A} (elem : decoder A) : decoder (option A) :=
  fun inList s =>
    match Kind inList s with
    | Err e => Err e
    | Ok (k, size, _, s') =>
        match k with
        | Byte => do (a, s'') <- elem inList s; Ok (Some a, s'')
        | _ =>
            if size =? 0 then Ok (None, s')
            else do (a, s'') <- elem inList s; Ok (Some a, s'')
        end
    end.

(** [Stream.List]: the payload of the list and the input after it. *)
Definition List_ (inList : bool) (s : list Z)
  : result (Z * list Z * list Z) :=
  do (k, size, _, s') <- Kind inList s;
  match k with
  | List =>
      do (payload, after) <- readFull inList size s';
      Ok (size, payload, after)
  | _ => Err rlp_ErrExpectedList
  end.

(** [Stream.ListEnd]: the payload must be used up. *)
Definition ListEnd (payload : list Z) : result unit :=
  match payload with
  | [] => Ok tt
  | _ :: _ => Err rlp_errNotAtEOL
  end.

(** One struct field: running into the end of the list is "too few
    elements". *)
Definition field {A} (d : decoder A) (s : list Z) : result (A * list Z) :=
  match d true s with
  | Err rlp_EOL => Err rlp_errTooFewElements
  | r => r
  end.

(** [decodeSliceElems]: elements until the end of the list. *)
Fixpoint decodeSliceElems {A} (fuel : nat) (elemdec : decoder A)
  (s : list Z) : result (list A * list Z) :=
  match fuel with
  | O => Err fuel_exhausted
  | S fuel' =>
      match elemdec true s with
      | Err rlp_EOL => Ok ([], s)
      | Err e => Err e
      | Ok (x, s') =>
          do (xs, s'') <- decodeSliceElems fuel' elemdec s';
          Ok (x :: xs, s'')
      end
  end.

(** [decodeListSlice] *)
Definition decodeListSlice {A} (fuel : nat) (elemdec : decoder A)
  : decoder (list A) := fun inList s =>
  do (size, payload, after) <- List_ inList s;
  if size =? 0 then
    do _ <- ListEnd payload; Ok ([], after)
  else
    do (xs, rest) <- decodeSliceElems fuel elemdec payload;
    do _ <- ListEnd rest;
    Ok (xs, after).

(** [decodeInterface]: a list decodes to [[]interface{}], anything else
    to [[]byte]. *)
Fixpoint decodeInterface (fuel : nat) : decoder item := fun inList s =>
  match fuel with
  | O => Err fuel_exhausted
  | S fuel' =>
      do (k, _, _, _) <- Kind inList s;
      match k with
      | List =>
          do (l, s') <- decodeListSlice fuel' (decodeInterface fuel') inList s;
          Ok (Lst l, s')
      | _ =>
          do (b, s') <- Bytes inList s;
          Ok (Str b, s')
      end
  end.

End rlp.

(** ** Package [tx] *)

(** Clauses and transactions as values: a pointer or slice field is the
    value it points to ([None] for [nil]).  The copies the accessors and
    the [With...] methods make are invisible at this level; they are
    modelled on a store of pointers and buffers further down. *)

Module BlockRef.

(** [type BlockRef [8]byte] *)
Definition t : Type := list Z.

(** Modelled from the spec: [BlockRef.Number] is declared outside the
    given sources; the spec says the first 4 bytes of a block reference
    are the block's big-endian height (u32). *)
Definition Number (br : t) : Z := binary.BigEndian_Uint32 br.

End BlockRef.

(** [TokenType] constants. *)
Definition MeterToken : Z := 0.
Definition MeterGovToken : Z := 1.

Module clauseBody.

Record t : Type := mk {
  To : option meter.Address;       (* *meter.Address `rlp:"nil"` *)
  Value : Z;                       (* *big.Int *)
  Token : Z;                       (* byte *)
  Data : list Z                    (* []byte *)
}.

(** The writer [rlp] derives for the struct: the list of its fields. *)
Definition encode (b : t) : result (list Z) :=
  do v <- rlp.writeBigInt (Value b);
  Ok (rlp.encodeList
        (rlp.writeByteArrayPtr (To b) ++ v ++ rlp.writeUint (Token b)
         ++ rlp.encodeString (Data b))).

(** The decoder [rlp] derives for the struct. *)
Definition decode : rlp.decoder t := fun inList s =>
  do (_, payload, after) <- rlp.List_ inList s;
  do (to, p) <- rlp.field (rlp.optionalPtr (rlp.decodeByteArray 20)) payload;
  do (value, p) <- rlp.field rlp.decodeBigInt p;
  do (token, p) <- rlp.field (rlp.uint 8) p;
  do (data, p) <- rlp.field rlp.Bytes p;
  do _ <- rlp.ListEnd p;
  Ok (mk to value token data, after).

End clauseBody.

Module Clause.

(** [type Clause struct { body clauseBody }] *)
Record t : Type := mk { body : clauseBody.t }.

Definition NewClause (to : option meter.Address) : t :=
  mk (clauseBody.mk to 0 MeterToken []).

Definition WithValue (c : t) (value : Z) : t :=
  let b := body c in
  mk (clauseBody.mk (clauseBody.To b) value (clauseBody.Token b)
                    (clauseBody.Data b)).

Definition WithData (c : t) (data : list Z) : t :=
  let b := body c in
  mk (clauseBody.mk (clauseBody.To b) (clauseBody.Value b)
                    (clauseBody.Token b) data).

Definition WithToken (c : t) (token : Z) : t :=
  let b := body c in
  mk (clauseBody.mk (clauseBody.To b) (clauseBody.Value b) token
                    (clauseBody.Data b)).

Definition To (c : t) : option meter.Address := clauseBody.To (body c).
Definition Value (c : t) : Z := clauseBody.Value (body c).
Definition Data (c : t) : list Z := clauseBody.Data (body c).
Definition Token (c : t) : Z := clauseBody.Token (body c).

Definition EncodeRLP (c : t) : result (list Z) := clauseBody.encode (body c).

Definition DecodeRLP : rlp.decoder t := fun inList s =>
  do (b, s') <- clauseBody.decode inList s;
  Ok (mk b, s').

End Clause.

Module body.

Record t : Type := mk {
  ChainTag : Z;                        (* byte *)
  BlockRef : Z;                        (* uint64 *)
  Expiration : Z;                      (* uint32 *)
  Clauses : list Clause.t;             (* []*Clause *)
  GasPriceCoef : Z;                    (* uint8 *)
  Gas : Z;                             (* uint64 *)
  DependsOn : option meter.Bytes32;    (* *meter.Bytes32 `rlp:"nil"` *)
  Nonce : Z;                           (* uint64 *)
  Reserved : list rlp.item;            (* []interface{} *)
  Signature : list Z                   (* []byte *)
}.

(** The encodings of the nine fields before the signature, in order. *)
Definition encodeFields (b : t) : result (list Z) :=
  do cs <- rlp.encodeAll Clause.EncodeRLP (Clauses b);
  Ok (rlp.writeUint (ChainTag b)
      ++ rlp.writeUint (BlockRef b)
      ++ rlp.writeUint (Expiration b)
      ++ rlp.encodeList cs
      ++ rlp.writeUint (GasPriceCoef b)
      ++ rlp.writeUint (Gas b)
      ++ rlp.writeByteArrayPtr (DependsOn b)
      ++ rlp.writeUint (Nonce b)
      ++ rlp.encodeList (concat (map rlp.encodeItem (Reserved b)))).

(** The writer [rlp] derives for the struct: all ten fields. *)
Definition encode (b : t) : result (list Z) :=
  do fs <- encodeFields b;
  Ok (rlp.encodeList (fs ++ rlp.encodeString (Signature b))).

(** The decoder [rlp] derives for the struct. *)
Definition decode (fuel : nat) : rlp.decoder t := fun inList s =>
  do (_, payload, after) <- rlp.List_ inList s;
  do (chainTag, p) <- rlp.field (rlp.uint 8) payload;
  do (blockRef, p) <- rlp.field (rlp.uint 64) p;
  do (expiration, p) <- rlp.field (rlp.uint 32) p;
  do (clauses, p) <- rlp.field (rlp.decodeListSlice fuel Clause.DecodeRLP) p;
  do (gasPriceCoef, p) <- rlp.field (rlp.uint 8) p;
  do (gas, p) <- rlp.field (rlp.uint 64) p;
  do (dependsOn, p) <- rlp.field (rlp.optionalPtr (rlp.decodeByteArray 32)) p;
  do (nonce, p) <- rlp.field (rlp.uint 64) p;
  do (reserved, p) <-
    rlp.field (rlp.decodeListSlice fuel (rlp.decodeInterface fuel)) p;
  do (signature, p) <- rlp.field rlp.Bytes p;
  do _ <- rlp.ListEnd p;
  Ok (mk chainTag blockRef expiration clauses gasPriceCoef gas dependsOn
         nonce reserved signature, after).

End body.

Module Transaction.

(** [type Transaction struct { body body }] *)
Record t : Type := mk { body : body.t }.

Definition ChainTag (tx : t) : Z := body.ChainTag (body tx).
Definition Nonce (tx : t) : Z := body.Nonce (body tx).

Definition BlockRef (tx : t) : BlockRef.t :=
  binary.BigEndian_PutUint64 (body.BlockRef (body tx)).

Definition Expiration (tx : t) : Z := body.Expiration (body tx).

(** [uint64(blockNum) > uint64(t.BlockRef().Number()) + uint64(t.body.Expiration)];
    the sum is a [uint64] sum. *)
Definition IsExpired (tx : t) (blockNum : Z) : bool :=
  (BlockRef.Number (BlockRef tx) + body.Expiration (body tx)) mod 2 ^ 64
  <? blockNum.

(** The input of the signing hash: the list of the nine fields. *)
Definition signingInput (tx : t) : result (list Z) :=
  do fs <- body.encodeFields (body tx);
  Ok (rlp.encodeList fs).

Definition SigningHash `{C : Crypto} (tx : t) : meter.Bytes32 :=
  match signingInput tx with
  | Err _ => meter.Bytes32_zero
  | Ok bs => Blake2b_Sum bs
  end.

Definition GasPriceCoef (tx : t) : Z := body.GasPriceCoef (body tx).
Definition Gas (tx : t) : Z := body.Gas (body tx).
Definition Clauses (tx : t) : list Clause.t := body.Clauses (body tx).
Definition DependsOn (tx : t) : option meter.Bytes32 := body.DependsOn (body tx).
Definition Signature (tx : t) : list Z := body.Signature (body tx).

Definition Signer `{C : Crypto} (tx : t) : meter.Address * option error :=
  if (length (body.Signature (body tx)) =? 0)%nat
  then (meter.Address_zero, None)
  else
    match SigToPub (meter.Bytes (SigningHash tx)) (body.Signature (body tx)) with
    | Err err => (meter.Address_zero, Some err)
    | Ok pub => (PubkeyToAddress pub, None)
    end.

Definition ID `{C : Crypto} (tx : t) : meter.Bytes32 :=
  let '(signer, err) := Signer tx in
  match err with
  | Some _ => meter.Bytes32_zero
  | None =>
      Blake2b_Sum (meter.Bytes (SigningHash tx) ++ meter.Bytes signer)
  end.

Definition WithSignature (tx : t) (sig : list Z) : t :=
  let b := body tx in
  mk (body.mk (body.ChainTag b) (body.BlockRef b) (body.Expiration b)
              (body.Clauses b) (body.GasPriceCoef b) (body.Gas b)
              (body.DependsOn b) (body.Nonce b) (body.Reserved b) sig).

Definition HasReservedFields (tx : t) : bool :=
  (0 <? length (body.Reserved (body tx)))%nat.

Definition EncodeRLP (tx : t) : result (list Z) := body.encode (body tx).

Definition DecodeRLP (fuel : nat) : rlp.decoder t := fun inList s =>
  do _ <- rlp.Kind inList s;
  do (b, s') <- body.decode fuel inList s;
  Ok (mk b, s').

Definition GasPrice (tx : t) (baseGasPrice : Z) : Z :=
  let x := big.NewInt (body.GasPriceCoef (body tx)) in
  let x := big.Mul x baseGasPrice in
  let x := big.Div x (big.NewInt MaxUint8) in
  big.Add x baseGasPrice.

(** [Size]: the encoding is written to a [meter.StorageSize]; a failed
    encoding writes nothing and gives 0 (the message printed on that
    path is not modelled). *)
Definition Size (tx : t) : meter.StorageSize :=
  let size : meter.StorageSize := 0 in
  match EncodeRLP tx with
  | Err _ => 0
  | Ok bs => meter.StorageSize_Write size bs
  end.

End Transaction.

(** [rlp.EncodeToBytes(tx)] and [rlp.DecodeBytes(b, &tx)]. *)
Definition EncodeToBytes (t : Transaction.t) : result (list Z) :=
  Transaction.EncodeRLP t.

Definition DecodeBytes (b : list Z) : result Transaction.t :=
  do (t, rest) <- Transaction.DecodeRLP (S (length b)) false b;
  match rest with
  | [] => Ok t
  | _ :: _ => Err rlp_ErrMoreThanOneValue
  end.

(** ** Reading the parsers' contract *)

Open Scope string_scope.

(** A byte is a hex digit when [fromHexChar] accepts it. *)
Definition is_hex_digit (c : Z) : bool :=
  match hex.fromHexChar c with
  | Some _ => true
  | None => false
  end.

Definition all_hex (s : string) : bool := forallb is_hex_digit (bytes_of_string s).

(** The first byte of [s] that is not a hex digit. *)
Definition first_non_hex (s : string) : option Z :=
  find (fun c => negb (is_hex_digit c)) (bytes_of_string s).

Definition hex_digit_value (c : Z) : Z :=
  match hex.fromHexChar c with
  | Some v => v
  | None => 0
  end.

(** The bytes a string of hex digit pairs denotes. *)
Fixpoint hex_value (src : list Z) : list Z :=
  match src with
  | p :: q :: rest => (16 * hex_digit_value p + hex_digit_value q) :: hex_value rest
  | _ => []
  end.

Definition is_0x (p : string) : bool := String.eqb p "0x" || String.eqb p "0X".

(** The spec's reading of "stripped": the string without an optional,
    case-insensitive [0x] prefix. *)
Definition spec_stripped (s : string) : string :=
  if is_0x (substring 0 2 s) then substring 2 (String.length s - 2) s else s.

(** The spec's sentence on lengths: a wrong stripped length is an
    invalid-length error. *)
Definition spec_invalid_length (parse : string -> list Z * option error)
  (w : nat) : Prop :=
  forall s : string,
    String.length (spec_stripped s) <> (2 * w)%nat ->
    snd (parse s) = Some (errors_New "invalid length").

(** What a parser of [w]-byte identifiers does on every input: the outcome
    is decided by the length of the whole string first, then by the prefix
    of a string two characters longer than the digits, then by the digits. *)
Definition parse_contract (parse : string -> list Z * option error)
  (w : nat) : Prop :=
  forall s : string,
    let n := String.length s in
    let digits := substring 2 (2 * w) s in
    (* success, exactly on 2w hex digits with or without a 0x/0X prefix *)
    (snd (parse s) = None <->
       (n = (2 * w)%nat /\ all_hex s = true) \/
       (n = (2 * w + 2)%nat /\ is_0x (substring 0 2 s) = true
        /\ all_hex digits = true)) /\
    (n = (2 * w)%nat -> all_hex s = true ->
       parse s = (hex_value (bytes_of_string s), None)) /\
    (n = (2 * w + 2)%nat -> is_0x (substring 0 2 s) = true ->
       all_hex digits = true ->
       parse s = (hex_value (bytes_of_string digits), None)) /\
    (* the value of a successful parse has w bytes *)
    (snd (parse s) = None -> length (fst (parse s)) = w) /\
    (* a failed parse returns the zero value *)
    (snd (parse s) <> None -> fst (parse s) = repeat 0 w) /\
    (* invalid length: the whole string has neither 2w nor 2w+2 characters *)
    (n <> (2 * w)%nat -> n <> (2 * w + 2)%nat ->
       snd (parse s) = Some (errors_New "invalid length")) /\
    (* invalid prefix: 2w+2 characters that do not start with 0x or 0X *)
    (n = (2 * w + 2)%nat -> is_0x (substring 0 2 s) = false ->
       snd (parse s) = Some (errors_New "invalid prefix")) /\
    (* hex error: the first character that is not a hex digit *)
    (n = (2 * w)%nat -> forall c, first_non_hex s = Some c ->
       snd (parse s) = Some (hex_InvalidByteError c)) /\
    (n = (2 * w + 2)%nat -> is_0x (substring 0 2 s) = true ->
       forall c, first_non_hex digits = Some c ->
       snd (parse s) = Some (hex_InvalidByteError c)) /\
    (* the prefixed forms of 2w characters parse like the bare form *)
    (n = (2 * w)%nat ->
       parse ("0x" ++ s) = parse s /\ parse ("0X" ++ s) = parse s).

Close Scope string_scope.

(** The common shape of [ParseAddress] and [ParseBytes32], by byte width. *)
Definition parseFixed (w : nat) (s : string) : list Z * option error :=
  let stripped : string + error :=
    if (String.length s =? w * 2)%nat then inl s
    else if (String.length s =? w * 2 + 2)%nat then
      if negb (String.eqb (strings.ToLower (substring 0 2 s)) "0x")
      then inr (errors_New "invalid prefix")
      else inl (substring 2 (String.length s - 2) s)
    else inr (errors_New "invalid length") in
  match stripped with
  | inr e => (repeat 0 w, Some e)
  | inl s =>
      match hex.Decode (repeat 0 w) (bytes_of_string s) with
      | (_, _, Some err) => (repeat 0 w, Some err)
      | (b, _, None) => (b, None)
      end
  end.

(** ** Concrete collaborators and inputs *)

(** A stand-in for the collaborators, used to run the code on concrete
    inputs: the digest is BLAKE2b-256; signature recovery is replaced by
    its format checks (65 bytes, recovery id below 4), the "public key" is
    the first 64 signature bytes and its address their first 20 bytes.
    Every general statement about [Signer] and [ID] is proved for all
    collaborators. *)
Definition sample_SigToPub (hash sig : list Z) : result (list Z) :=
  if negb (length sig =? 65)%nat
  then Err (crypto_error "invalid signature length")
  else if 4 <=? nth 64 sig 0
       then Err (crypto_error "invalid signature recovery id")
       else Ok (take 64 sig).

Definition sample_crypto : Crypto :=
  {| Blake2b_Sum := blake2b.Sum256;
     PublicKey := list Z;
     SigToPub := sample_SigToPub;
     PubkeyToAddress := take 20 |}.

Definition sample_clause : Clause.t :=
  Clause.WithToken
    (Clause.WithValue
       (Clause.NewClause
          (Some (fst (meter.ParseAddress
                        "0xf3dd5c55b96889369f714143f213403464a268a6"))))
       2000000000000000000)
    MeterToken.

(** The unsigned transaction the demo program builds at block 1234. *)
Definition sample_tx : Transaction.t :=
  Transaction.mk
    (body.mk 88 (Z.shiftl 1234 32) 100 [sample_clause] 128 21000 None
             1234567 [] []).

(** The same transaction with a one-byte (malformed) signature, and with
    a well-formed signature of 65 zero bytes. *)
Definition malformed_tx : Transaction.t := Transaction.WithSignature sample_tx [1].
Definition zero_signed_tx : Transaction.t :=
  Transaction.WithSignature sample_tx (repeat 0 65).

(** ** Well-formed values *)

Definition is_byte (b : Z) : Prop := 0 <= b < 256.

Definition is_uint (bits : Z) (v : Z) : Prop := 0 <= v < 2 ^ bits.

(** The size bytes [putint] writes. *)
Record putint_spec (i : Z) (p : list Z) : Prop := {
  putint_bytes : Forall is_byte p;
  putint_length : (1 <= length p <= 8)%nat;
  putint_value : binary.be_value p = i;
  putint_short : i < 256 -> p = [i];
  putint_long : 256 <= i -> (2 <= length p)%nat /\ nth 0 p 0 <> 0;
  putint_fits : forall k : nat, (1 <= k)%nat -> i < 2 ^ (8 * Z.of_nat k) ->
                                (length p <= k)%nat
}.

(** A fixed-size byte array behind a pointer, or [nil]. *)
Definition array_ok (n : nat) (p : option (list Z)) : Prop :=
  match p with
  | None => True
  | Some a => length a = n /\ Forall is_byte a
  end.

Fixpoint item_ok (v : rlp.item) : Prop :=
  match v with
  | rlp.Str b => Forall is_byte b
  | rlp.Lst l => (fix all (l : list rlp.item) : Prop :=
                    match l with
                    | [] => True
                    | x :: l' => item_ok x /\ all l'
                    end) l
  end.

Definition Clause_ok (c : Clause.t) : Prop :=
  array_ok 20 (Clause.To c) /\
  0 <= Clause.Value c /\
  is_uint 8 (Clause.Token c) /\
  Forall is_byte (Clause.Data c).

(** The fields have the ranges of their Go types, clause values are not
    negative, and the encoding fits the 64-bit sizes of the codec. *)
Definition Transaction_ok (tx : Transaction.t) : Prop :=
  let b := Transaction.body tx in
  is_uint 8 (body.ChainTag b) /\
  is_uint 64 (body.BlockRef b) /\
  is_uint 32 (body.Expiration b) /\
  Forall Clause_ok (body.Clauses b) /\
  is_uint 8 (body.GasPriceCoef b) /\
  is_uint 64 (body.Gas b) /\
  array_ok 32 (body.DependsOn b) /\
  is_uint 64 (body.Nonce b) /\
  Forall item_ok (body.Reserved b) /\
  Forall is_byte (body.Signature b) /\
  match EncodeToBytes tx with
  | Ok bs => rlp.len bs < 2 ^ 64
  | Err _ => True
  end.

(** The bytes [Clause.EncodeRLP] writes for a clause whose value is not
    negative. *)
Definition Clause_bytes (c : Clause.t) : list Z :=
  rlp.encodeList
    (rlp.writeByteArrayPtr (Clause.To c)
     ++ rlp.encodeString (big.Bytes (Clause.Value c))
     ++ rlp.writeUint (Clause.Token c)
     ++ rlp.encodeString (Clause.Data c)).

(** The ten field encodings [Transaction.EncodeRLP] wraps in a list, for a
    transaction whose clause values are not negative. *)
Definition Transaction_payload (tx : Transaction.t) : list Z :=
  let b := Transaction.body tx in
  rlp.writeUint (body.ChainTag b)
  ++ rlp.writeUint (body.BlockRef b)
  ++ rlp.writeUint (body.Expiration b)
  ++ rlp.encodeList (concat (map Clause_bytes (body.Clauses b)))
  ++ rlp.writeUint (body.GasPriceCoef b)
  ++ rlp.writeUint (body.Gas b)
  ++ rlp.writeByteArrayPtr (body.DependsOn b)
  ++ rlp.writeUint (body.Nonce b)
  ++ rlp.encodeList (concat (map rlp.encodeItem (body.Reserved b)))
  ++ rlp.encodeString (body.Signature b).

Definition Transaction_bytes (tx : Transaction.t) : list Z :=
  rlp.encodeList (Transaction_payload tx).

(** The nine field encodings the signing hash covers, for a transaction
    whose clause values are not negative. *)
Definition Transaction_signed (tx : Transaction.t) : list Z :=
  let b := Transaction.body tx in
  rlp.writeUint (body.ChainTag b)
  ++ rlp.writeUint (body.BlockRef b)
  ++ rlp.writeUint (body.Expiration b)
  ++ rlp.encodeList (concat (map Clause_bytes (body.Clauses b)))
  ++ rlp.writeUint (body.GasPriceCoef b)
  ++ rlp.writeUint (body.Gas b)
  ++ rlp.writeByteArrayPtr (body.DependsOn b)
  ++ rlp.writeUint (body.Nonce b)
  ++ rlp.encodeList (concat (map rlp.encodeItem (body.Reserved b))).

(** A signed transaction with two clauses (one without recipient), a
    dependency and a non-empty reserved list. *)
Definition full_tx : Transaction.t :=
  Transaction.mk
    (body.mk 88 (Z.shiftl 1234 32) 100
             [sample_clause;
              Clause.WithData (Clause.NewClause None) [0; 0; 0; 96; 96; 96]]
             255 21000 (Some (repeat 5 32)) 0
             [rlp.Str [1; 2]; rlp.Lst [rlp.Str []; rlp.Lst []; rlp.Str (repeat 200 60)]]
             (repeat 9 65)).

(** A decoder behaves well at a stream position when it does not run out
    of fuel there and, if it succeeds, has consumed input. *)
Definition decodes_well {A} (d : rlp.decoder A) (inList : bool) (s : list Z)
  : Prop :=
  d inList s <> Err fuel_exhausted /\
  forall (x : A) (s' : list Z),
    d inList s = Ok (x, s') -> (length s' < length s)%nat.

(** A decoder keeps to the types: reading input bytes, it returns a value
    that satisfies [P] and leaves input bytes. *)
Definition decodes_to {A} (P : A -> Prop) (d : rlp.decoder A) : Prop :=
  forall (inList : bool) (s : list Z) (x : A) (s' : list Z),
    Forall is_byte s -> d inList s = Ok (x, s') ->
    P x /\ Forall is_byte s'.

(** The fields of a transaction have the ranges of their Go types. *)
Definition body_typed (b : body.t) : Prop :=
  is_uint 8 (body.ChainTag b) /\
  is_uint 64 (body.BlockRef b) /\
  is_uint 32 (body.Expiration b) /\
  Forall Clause_ok (body.Clauses b) /\
  is_uint 8 (body.GasPriceCoef b) /\
  is_uint 64 (body.Gas b) /\
  array_ok 32 (body.DependsOn b) /\
  is_uint 64 (body.Nonce b) /\
  Forall item_ok (body.Reserved b) /\
  Forall is_byte (body.Signature b).

(** ** Pointers and buffers *)

(** The value model above identifies a clause or a transaction with the
    contents of its fields.  Go's values live behind pointers: a [*Clause]
    or [*Transaction] points to a struct whose pointer and slice fields
    point to byte arrays, [big.Int]s and arrays of clause pointers, and two
    structs may share them.  The store below makes that sharing explicit;
    a slice is the location of its backing array ([None] for the [nil]
    slice), a pointer is a location ([None] for [nil]). *)

Definition loc : Type := nat.

(** [clauseBody] as laid out in memory. *)
Record clause_cell : Type := mk_clause_cell {
  cell_To : option loc;         (* *meter.Address *)
  cell_Value : option loc;      (* *big.Int *)
  cell_Token : Z;               (* byte *)
  cell_Data : option loc        (* []byte *)
}.

(** [body] as laid out in memory. *)
Record tx_cell : Type := mk_tx_cell {
  cell_ChainTag : Z;
  cell_BlockRef : Z;
  cell_Expiration : Z;
  cell_Clauses : option loc;    (* []*Clause *)
  cell_GasPriceCoef : Z;
  cell_Gas : Z;
  cell_DependsOn : option loc;  (* *meter.Bytes32 *)
  cell_Nonce : Z;
  cell_Reserved : option loc;   (* []interface{} *)
  cell_Signature : option loc   (* []byte *)
}.

Inductive object : Type :=
| OBytes (bs : list Z)              (* a byte array, or the backing array of a []byte *)
| OInt (v : Z)                      (* a big.Int *)
| OPtrs (ps : list loc)             (* the backing array of a []*Clause *)
| OItems (vs : list rlp.item)       (* the backing array of a []interface{} *)
| OClause (c : clause_cell)         (* a Clause *)
| OTx (t : tx_cell).                (* a Transaction *)

Abbreviation heap := (gmap loc object).

(** Allocation returns a location that is not in use. *)
Definition alloc (h : heap) (o : object) : heap * loc :=
  let l := fresh (dom h) in (<[l := o]> h, l).

(** [append([]byte(nil), src...)]: a new backing array with the bytes of
    [src]; appending nothing to [nil] gives [nil]. *)
Definition copy_bytes (h : heap) (src : option loc) : option (heap * option loc) :=
  match src with
  | None => Some (h, None)
  | Some l =>
      match h !! l with
      | Some (OBytes []) => Some (h, None)
      | Some (OBytes bs) => let '(h', l') := alloc h (OBytes bs) in Some (h', Some l')
      | _ => None
      end
  end.

(** [cpy := *p; return &cpy] for a pointer to a byte array; [nil] stays
    [nil]. *)
Definition copy_array (h : heap) (p : option loc) : option (heap * option loc) :=
  match p with
  | None => Some (h, None)
  | Some l =>
      match h !! l with
      | Some (OBytes bs) => let '(h', l') := alloc h (OBytes bs) in Some (h', Some l')
      | _ => None
      end
  end.

(** [new(big.Int).Set(x)]; a [nil] argument is a run-time panic. *)
Definition copy_int (h : heap) (x : option loc) : option (heap * option loc) :=
  match x with
  | None => None
  | Some l =>
      match h !! l with
      | Some (OInt v) => let '(h', l') := alloc h (OInt v) in Some (h', Some l')
      | _ => None
      end
  end.

(** [append([]*Clause(nil), src...)] *)
Definition copy_ptrs (h : heap) (src : option loc) : option (heap * option loc) :=
  match src with
  | None => Some (h, None)
  | Some l =>
      match h !! l with
      | Some (OPtrs []) => Some (h, None)
      | Some (OPtrs ps) => let '(h', l') := alloc h (OPtrs ps) in Some (h', Some l')
      | _ => None
      end
  end.

Definition load_clause (h : heap) (c : loc) : option clause_cell :=
  match h !! c with
  | Some (OClause b) => Some b
  | _ => None
  end.

Definition load_tx (h : heap) (t : loc) : option tx_cell :=
  match h !! t with
  | Some (OTx b) => Some b
  | _ => None
  end.

(** What [rlp] allocates when it decodes into a struct: a new array for a
    recipient that is present, a new [big.Int], and new slices. *)
Definition store_clauseBody (h : heap) (b : clauseBody.t) : heap * clause_cell :=
  let '(h, to) :=
    match clauseBody.To b with
    | None => (h, None)
    | Some a => let '(h, l) := alloc h (OBytes a) in (h, Some l)
    end in
  let '(h, value) := alloc h (OInt (clauseBody.Value b)) in
  let '(h, data) := alloc h (OBytes (clauseBody.Data b)) in
  (h, mk_clause_cell to (Some value) (clauseBody.Token b) (Some data)).

(** A decoded [[]*Clause]: every element is a new [Clause]. *)
Fixpoint store_clauses (h : heap) (cs : list Clause.t) : heap * list loc :=
  match cs with
  | [] => (h, [])
  | c :: cs' =>
      let '(h, cell) := store_clauseBody h (Clause.body c) in
      let '(h, p) := alloc h (OClause cell) in
      let '(h, ps) := store_clauses h cs' in
      (h, p :: ps)
  end.

Definition store_body (h : heap) (b : body.t) : heap * tx_cell :=
  let '(h, ps) := store_clauses h (body.Clauses b) in
  let '(h, clauses) := alloc h (OPtrs ps) in
  let '(h, dependsOn) :=
    match body.DependsOn b with
    | None => (h, None)
    | Some a => let '(h, l) := alloc h (OBytes a) in (h, Some l)
    end in
  let '(h, reserved) := alloc h (OItems (body.Reserved b)) in
  let '(h, signature) := alloc h (OBytes (body.Signature b)) in
  (h, mk_tx_cell (body.ChainTag b) (body.BlockRef b) (body.Expiration b)
                 (Some clauses) (body.GasPriceCoef b) (body.Gas b) dependsOn
                 (body.Nonce b) (Some reserved) (Some signature)).

(** The methods of [*Clause] on the store.  [None] is a run-time panic
    (a [nil] or dangling pointer). *)
Module PtrClause.

Definition NewClause (h : heap) (to : option loc) : option (heap * loc) :=
'(h, to) ← copy_array h to;
let '(h, value) := alloc h (OInt 0) in
Some (alloc h (OClause (mk_clause_cell to (Some value) MeterToken None))).

Definition WithValue (h : heap) (c : loc) (value : option loc)
: option (heap * loc) :=
newClause ← load_clause h c;
'(h, v) ← copy_int h value;
Some (alloc h (OClause (mk_clause_cell (cell_To newClause) v
                          (cell_Token newClause) (cell_Data newClause)))).

Definition WithData (h : heap) (c : loc) (data : option loc)
: option (heap * loc) :=
newClause ← load_clause h c;
'(h, d) ← copy_bytes h data;
Some (alloc h (OClause (mk_clause_cell (cell_To newClause)
                          (cell_Value newClause) (cell_Token newClause) d))).

Definition WithToken (h : heap) (c : loc) (token : Z) : option (heap * loc) :=
newClause ← load_clause h c;
Some (alloc h (OClause (mk_clause_cell (cell_To newClause)
                          (cell_Value newClause) token (cell_Data newClause)))).

Definition To (h : heap) (c : loc) : option (heap * option loc) :=
b ← load_clause h c; copy_array h (cell_To b).

Definition Value (h : heap) (c : loc) : option (heap * option loc) :=
b ← load_clause h c; copy_int h (cell_Value b).

Definition Data (h : heap) (c : loc) : option (heap * option loc) :=
b ← load_clause h c; copy_bytes h (cell_Data b).

Definition Token (h : heap) (c : loc) : option Z :=
b ← load_clause h c; Some (cell_Token b).

(** [DecodeRLP] decodes into a local [clauseBody] and, only when that
    succeeded, overwrites the receiver: [*c = Clause{body}].  The result
    is the store and the error or the rest of the stream. *)
Definition DecodeRLP (h : heap) (c : loc) (inList : bool) (s : list Z)
: option (heap * result (list Z)) :=
match clauseBody.decode inList s with
| Err err => Some (h, Err err)
| Ok (body, s') =>
    _ ← load_clause h c;
    let '(h, cell) := store_clauseBody h body in
    Some (<[c := OClause cell]> h, Ok s')
end.

End PtrClause.

(** The methods of [*Transaction] on the store. *)
Module PtrTransaction.

Definition Clauses (h : heap) (t : loc) : option (heap * option loc) :=
b ← load_tx h t; copy_ptrs h (cell_Clauses b).

Definition DependsOn (h : heap) (t : loc) : option (heap * option loc) :=
b ← load_tx h t; copy_array h (cell_DependsOn b).

Definition Signature (h : heap) (t : loc) : option (heap * option loc) :=
b ← load_tx h t; copy_bytes h (cell_Signature b).

Definition WithSignature (h : heap) (t : loc) (sig : option loc)
: option (heap * loc) :=
b ← load_tx h t;
'(h, s) ← copy_bytes h sig;
Some (alloc h (OTx (mk_tx_cell (cell_ChainTag b) (cell_BlockRef b)
                      (cell_Expiration b) (cell_Clauses b)
                      (cell_GasPriceCoef b) (cell_Gas b) (cell_DependsOn b)
                      (cell_Nonce b) (cell_Reserved b) s))).

(** [DecodeRLP]: [*t = Transaction{body: body}] after a successful
    decoding into a local [body]. *)
Definition DecodeRLP (h : heap) (t : loc) (fuel : nat) (inList : bool)
  (s : list Z) : option (heap * result (list Z)) :=
match rlp.Kind inList s with
| Err err => Some (h, Err err)
| Ok _ =>
    match body.decode fuel inList s with
    | Err err => Some (h, Err err)
    | Ok (body, s') =>
        _ ← load_tx h t;
        let '(h, cell) := store_body h body in
        Some (<[t := OTx cell]> h, Ok s')
    end
end.

End PtrTransaction.

(** *** What a pointer denotes *)

(** The bytes of a slice; [nil] is the empty slice. *)
Definition read_bytes (h : heap) (s : option loc) : option (list Z) :=
  match s with
  | None => Some []
  | Some l => match h !! l with Some (OBytes bs) => Some bs | _ => None end
  end.

(** The array behind a pointer, or [nil]. *)
Definition read_array (h : heap) (p : option loc) : option (option (list Z)) :=
  match p with
  | None => Some None
  | Some l => match h !! l with Some (OBytes bs) => Some (Some bs) | _ => None end
  end.

Definition read_int (h : heap) (p : option loc) : option Z :=
  match p with
  | None => None
  | Some l => match h !! l with Some (OInt v) => Some v | _ => None end
  end.

Definition read_ptrs (h : heap) (s : option loc) : option (list loc) :=
  match s with
  | None => Some []
  | Some l => match h !! l with Some (OPtrs ps) => Some ps | _ => None end
  end.

Definition read_items (h : heap) (s : option loc) : option (list rlp.item) :=
  match s with
  | None => Some []
  | Some l => match h !! l with Some (OItems vs) => Some vs | _ => None end
  end.

(** The clause a [*Clause] denotes. *)
Definition clause_at (h : heap) (c : loc) : option Clause.t :=
  b ← load_clause h c;
  to ← read_array h (cell_To b);
  value ← read_int h (cell_Value b);
  data ← read_bytes h (cell_Data b);
  Some (Clause.mk (clauseBody.mk to value (cell_Token b) data)).

(** The transaction a [*Transaction] denotes. *)
Definition tx_at (h : heap) (t : loc) : option Transaction.t :=
  b ← load_tx h t;
  ps ← read_ptrs h (cell_Clauses b);
  clauses ← mapM (clause_at h) ps;
  dependsOn ← read_array h (cell_DependsOn b);
  reserved ← read_items h (cell_Reserved b);
  signature ← read_bytes h (cell_Signature b);
  Some (Transaction.mk
          (body.mk (cell_ChainTag b) (cell_BlockRef b) (cell_Expiration b)
                   clauses (cell_GasPriceCoef b) (cell_Gas b) dependsOn
                   (cell_Nonce b) reserved signature)).

(** A returned pointer or slice is new: its location was not in use. *)
Definition is_new (h : heap) (r : option loc) : Prop :=
  match r with
  | None => True
  | Some l => h !! l = None
  end.

(** Any mutation of the buffer behind [r]: its object is replaced. *)
Definition mutate (h : heap) (r : option loc) (o : object) : heap :=
  match r with
  | None => h
  | Some l => <[l := o]> h
  end.

(** The clauses a returned [[]*Clause] denotes. *)
Definition read_clauses (h : heap) (s : option loc) : option (list Clause.t) :=
  ps ← read_ptrs h s; mapM (clause_at h) ps.

(** An accessor hands out a copy: called on a pointer [p] denoting [a] it
    returns a new buffer holding the field of [a]; [p] still denotes [a],
    also after the returned buffer has been overwritten in any way, and
    the accessor then returns the same contents again. *)
Definition returns_copy {A V : Type}
  (accessor : heap -> loc -> option (heap * option loc))
  (denote : heap -> loc -> option A)
  (read : heap -> option loc -> option V) (field : A -> V) : Prop :=
  forall (h : heap) (p : loc) (a : A),
    denote h p = Some a ->
    exists (h' : heap) (r : option loc),
      accessor h p = Some (h', r) /\
      is_new h r /\
      h ⊆ h' /\
      read h' r = Some (field a) /\
      denote h' p = Some a /\
      forall o : object,
        denote (mutate h' r o) p = Some a /\
        exists (h2 : heap) (r2 : option loc),
          accessor (mutate h' r o) p = Some (h2, r2) /\
          read h2 r2 = Some (field a).

(** A [With...] method builds a new value: called on a pointer [p]
    denoting [a] it returns a pointer that was not in use and denotes the
    updated value; every object of the store is left as it was, and [p]
    still denotes [a]. *)
Definition returns_new {A X Y : Type}
  (method : heap -> loc -> X -> option (heap * loc))
  (denote : heap -> loc -> option A)
  (argument : heap -> X -> option Y) (update : A -> Y -> A) : Prop :=
  forall (h : heap) (p : loc) (x : X) (a : A) (y : Y),
    denote h p = Some a ->
    argument h x = Some y ->
    exists (h' : heap) (p' : loc),
      method h p x = Some (h', p') /\
      h !! p' = None /\
      h ⊆ h' /\
      denote h' p = Some a /\
      denote h' p' = Some (update a y).

(** The transaction [tv] with the clauses [cs] in place of its own. *)
Definition with_clauses (tv : Transaction.t) (cs : list Clause.t)
  : Transaction.t :=
  let b := Transaction.body tv in
  Transaction.mk
    (body.mk (body.ChainTag b) (body.BlockRef b) (body.Expiration b) cs
             (body.GasPriceCoef b) (body.Gas b) (body.DependsOn b)
             (body.Nonce b) (body.Reserved b) (body.Signature b)).

(** A store holding the transaction of the demo program: the recipient
    array at 0, the value at 1, the clause at 2, the clause slice at 3 and
    the transaction at 4. *)
Definition sample_heap : heap :=
  <[4%nat := OTx (mk_tx_cell 88 (Z.shiftl 1234 32) 100 (Some 3%nat) 128 21000
                            None 1234567 None None)]>
    (<[3%nat := OPtrs [2%nat]]>
       (<[2%nat := OClause (mk_clause_cell (Some 0%nat) (Some 1%nat) MeterToken None)]>
          (<[1%nat := OInt 2000000000000000000]>
             (<[0%nat := OBytes [243; 221; 92; 85; 185; 104; 137; 54; 159; 113;
                                 65; 67; 242; 19; 64; 52; 100; 162; 104; 166]]> ∅)))).

(** * Properties *)

(** ** Bytes and big-endian integers *)

Lemma lor_shiftl_byte (acc x : Z) :
  0 <= x < 256 -> Z.lor (Z.shiftl acc 8) x = acc * 256 + x.
Proof.
  intros Hx. rewrite Z.shiftl_mul_pow2 by lia.
  change (2 ^ 8) with 256.
  assert (Hdisj : Z.land (acc * 256) x = 0).
  { apply Z.bits_inj'. intros n Hn. rewrite Z.land_spec, Z.bits_0.
    destruct (Z.ltb_spec n 8) as [Hlt | Hge].
    - change 256 with (2 ^ 8). rewrite Z.mul_pow2_bits_low by lia. reflexivity.
    - destruct (Z.eq_dec x 0) as [-> | Hne].
      + rewrite Z.bits_0. apply andb_false_r.
      + rewrite (Z.bits_above_log2 x n); [apply andb_false_r | lia |].
        apply Z.log2_lt_pow2; [lia |].
        apply Z.lt_le_trans with (2 ^ 8); [change (2 ^ 8) with 256; lia |].
        apply Z.pow_le_mono_r; lia. }
  rewrite <- Z.lxor_lor by exact Hdisj.
  symmetry. apply Z.add_nocarry_lxor. exact Hdisj.
Qed.

Lemma land_255 (x : Z) : Z.land x 255 = x mod 256.
Proof. change 255 with (Z.ones 8). rewrite Z.land_ones by lia. reflexivity. Qed.

Lemma be_bytes_length (n : nat) (v : Z) : length (binary.be_bytes n v) = n.
Proof. induction n as [| n IH]; simpl; [reflexivity | now rewrite IH]. Qed.

Lemma be_bytes_is_byte (n : nat) (v : Z) : Forall is_byte (binary.be_bytes n v).
Proof.
  induction n as [| n IH]; simpl; constructor; [| exact IH].
  unfold is_byte. rewrite land_255. apply Z.mod_pos_bound. lia.
Qed.

Lemma be_fold_app (l : list Z) (acc : Z) :
  Forall is_byte l ->
  fold_left (fun a x => Z.lor (Z.shiftl a 8) x) l acc
  = acc * 2 ^ (8 * Z.of_nat (length l)) + binary.be_value l.
Proof.
  unfold binary.be_value.
  revert acc. induction l as [| x l IH]; intros acc Hl.
  - simpl. lia.
  - inversion Hl as [| ? ? Hx Hl']; subst.
    cbn [fold_left length]. rewrite (IH _ Hl'), (IH (Z.lor _ x) Hl').
    rewrite !lor_shiftl_byte by exact Hx.
    replace (8 * Z.of_nat (S (length l))) with (8 + 8 * Z.of_nat (length l)) by lia.
    rewrite Z.pow_add_r by lia. change (2 ^ 8) with 256. lia.
Qed.

Lemma be_value_cons (x : Z) (l : list Z) :
  is_byte x -> Forall is_byte l ->
  binary.be_value (x :: l) = x * 2 ^ (8 * Z.of_nat (length l)) + binary.be_value l.
Proof.
  intros Hx Hl. unfold binary.be_value at 1. cbn [fold_left].
  rewrite be_fold_app by exact Hl. rewrite lor_shiftl_byte by exact Hx. lia.
Qed.

Lemma be_value_bound (l : list Z) :
  Forall is_byte l -> 0 <= binary.be_value l < 2 ^ (8 * Z.of_nat (length l)).
Proof.
  induction 1 as [| x l Hx Hl IH].
  - unfold binary.be_value. simpl. lia.
  - rewrite be_value_cons by assumption.
    replace (8 * Z.of_nat (length (x :: l))) with (8 + 8 * Z.of_nat (length l))
      by (simpl length; lia).
    rewrite Z.pow_add_r by lia. change (2 ^ 8) with 256.
    unfold is_byte in Hx. nia.
Qed.

Lemma be_value_be_bytes (n : nat) (v : Z) :
  0 <= v -> binary.be_value (binary.be_bytes n v) = v mod 2 ^ (8 * Z.of_nat n).
Proof.
  intros Hv. induction n as [| n IH].
  - unfold binary.be_value. simpl. rewrite Z.mod_1_r. reflexivity.
  - cbn [binary.be_bytes].
    rewrite be_value_cons;
      [| unfold is_byte; rewrite land_255; apply Z.mod_pos_bound; lia
       | apply be_bytes_is_byte].
    rewrite be_bytes_length, IH, land_255, Z.shiftr_div_pow2 by lia.
    replace (8 * Z.of_nat (S n)) with (8 * Z.of_nat n + 8) by lia.
    rewrite (Z.pow_add_r 2 (8 * Z.of_nat n) 8) by lia.
    change (2 ^ 8) with 256.
    rewrite (Z.rem_mul_r v (2 ^ (8 * Z.of_nat n)) 256) by lia.
    lia.
Qed.

(** ** Expiration and gas price *)

Lemma be_bytes_split (n m : nat) (v : Z) :
  0 <= v ->
  take n (binary.be_bytes (n + m) v) = binary.be_bytes n (Z.shiftr v (8 * Z.of_nat m)).
Proof.
  intros Hv. induction n as [| n IH].
  - reflexivity.
  - cbn [Nat.add binary.be_bytes take]. rewrite IH. f_equal.
    rewrite Z.shiftr_shiftr by lia. f_equal. f_equal. lia.
Qed.

(** The height of the block reference a transaction returns is the upper
    half of the packed [uint64] field. *)
Lemma BlockRef_Number (tx : Transaction.t) :
  0 <= body.BlockRef (Transaction.body tx) < 2 ^ 64 ->
  BlockRef.Number (Transaction.BlockRef tx)
  = body.BlockRef (Transaction.body tx) / 2 ^ 32.
Proof.
  intros Hr.
  unfold BlockRef.Number, Transaction.BlockRef, binary.BigEndian_Uint32,
    binary.BigEndian_PutUint64.
  rewrite (be_bytes_split 4 4) by lia.
  rewrite be_value_be_bytes by (apply Z.shiftr_nonneg; lia).
  rewrite Z.shiftr_div_pow2 by lia.
  change (8 * Z.of_nat 4) with 32.
  apply Z.mod_small. split.
  - apply Z.div_pos; lia.
  - apply Z.div_lt_upper_bound; [lia |].
    change (2 ^ 32 * 2 ^ 32) with (2 ^ 64). lia.
Qed.

(** C5: with a [uint64] block reference of height [H], a [uint32]
    expiration [E] and a [uint32] block number [N], [IsExpired N] holds
    exactly when [N > H + E] in unbounded arithmetic: the 64-bit sum never
    wraps.  In particular [IsExpired (H + E)] is false and
    [IsExpired (H + E + 1)] is true whenever these are block numbers. *)
Theorem IsExpired_boundary (tx : Transaction.t) (N : Z) :
  0 <= body.BlockRef (Transaction.body tx) < 2 ^ 64 ->
  0 <= body.Expiration (Transaction.body tx) < 2 ^ 32 ->
  0 <= N < 2 ^ 32 ->
  let H := BlockRef.Number (Transaction.BlockRef tx) in
  let E := Transaction.Expiration tx in
  0 <= H < 2 ^ 32 /\
  (Transaction.IsExpired tx N = true <-> N > H + E) /\
  (H + E < 2 ^ 32 -> Transaction.IsExpired tx (H + E) = false) /\
  (H + E + 1 < 2 ^ 32 -> Transaction.IsExpired tx (H + E + 1) = true).
Proof.
  intros Hr He HN H E.
  assert (HH : 0 <= H < 2 ^ 32).
  { subst H. rewrite BlockRef_Number by exact Hr. split.
    - apply Z.div_pos; lia.
    - apply Z.div_lt_upper_bound; [lia |].
      change (2 ^ 32 * 2 ^ 32) with (2 ^ 64). lia. }
  assert (Hsum : (H + E) mod 2 ^ 64 = H + E).
  { apply Z.mod_small. subst E. unfold Transaction.Expiration.
    change (2 ^ 64) with (2 ^ 32 * 2 ^ 32). lia. }
  assert (Hexp : forall n, Transaction.IsExpired tx n = (H + E <? n)).
  { intros n. unfold Transaction.IsExpired. fold H.
    unfold E, Transaction.Expiration in Hsum. rewrite Hsum. reflexivity. }
  split; [exact HH |]. split; [| split].
  - rewrite Hexp. rewrite Z.ltb_lt. lia.
  - intros _. rewrite Hexp. apply Z.ltb_irrefl.
  - intros _. rewrite Hexp. apply Z.ltb_lt. lia.
Qed.

(** C6: the gas price is [b + floor(b * coef / 255)] in unbounded integer
    arithmetic, for every base price and coefficient; with base 100 it is
    200 at coefficient 255 and 100 at coefficient 0. *)
Theorem GasPrice_formula :
  (forall (tx : Transaction.t) (b : Z),
      Transaction.GasPrice tx b
      = b + (b * Transaction.GasPriceCoef tx) / 255) /\
  (forall tx : Transaction.t,
      Transaction.GasPriceCoef tx = 255 -> Transaction.GasPrice tx 100 = 200) /\
  (forall tx : Transaction.t,
      Transaction.GasPriceCoef tx = 0 -> Transaction.GasPrice tx 100 = 100).
Proof.
  assert (Hgen : forall tx b,
             Transaction.GasPrice tx b
             = b + (b * Transaction.GasPriceCoef tx) / 255).
  { intros tx b.
    unfold Transaction.GasPrice, Transaction.GasPriceCoef, big.Add, big.Div,
      big.Mul, big.NewInt, MaxUint8.
    change (Z.sgn 255) with 1. change (Z.abs 255) with 255.
    rewrite Z.mul_1_l, (Z.mul_comm b). lia. }
  split; [exact Hgen |]. split; intros tx Hc; rewrite Hgen, Hc; reflexivity.
Qed.

Lemma IsExpired_boundary_witness :
  Transaction.IsExpired sample_tx 1334 = false /\
  Transaction.IsExpired sample_tx 1335 = true.
Proof.
  pose proof (IsExpired_boundary sample_tx 1334) as H.
  assert (Hr : 0 <= body.BlockRef (Transaction.body sample_tx) < 2 ^ 64)
    by (vm_compute; split; [discriminate | reflexivity]).
  assert (He : 0 <= body.Expiration (Transaction.body sample_tx) < 2 ^ 32)
    by (vm_compute; split; [discriminate | reflexivity]).
  assert (HN : 0 <= 1334 < 2 ^ 32) by lia.
  destruct (H Hr He HN) as (_ & _ & Hat & Hafter).
  split.
  - apply Hat. vm_compute. reflexivity.
  - apply Hafter. vm_compute. reflexivity.
Defined.

(** ** Parsing fixed-width identifiers *)

Lemma list_pair_ind {A} (P : list A -> Prop) :
  P [] -> (forall x, P [x]) -> (forall x y l, P l -> P (x :: y :: l)) ->
  forall l, P l.
Proof.
  intros Hnil Hone Hstep.
  assert (H : forall l, P l /\ forall x, P (x :: l)).
  { induction l as [| y l [IH1 IH2]]; split; auto. }
  intros l. apply H.
Qed.

Lemma lor_shiftl_low (k acc x : Z) :
  0 <= k -> 0 <= x < 2 ^ k -> Z.lor (Z.shiftl acc k) x = acc * 2 ^ k + x.
Proof.
  intros Hk Hx. rewrite Z.shiftl_mul_pow2 by lia.
  assert (Hdisj : Z.land (acc * 2 ^ k) x = 0).
  { apply Z.bits_inj'. intros n Hn. rewrite Z.land_spec, Z.bits_0.
    destruct (Z.ltb_spec n k) as [Hlt | Hge].
    - rewrite Z.mul_pow2_bits_low by lia. reflexivity.
    - destruct (Z.eq_dec x 0) as [-> | Hne].
      + rewrite Z.bits_0. apply andb_false_r.
      + rewrite (Z.bits_above_log2 x n); [apply andb_false_r | lia |].
        apply Z.lt_le_trans with k; [| exact Hge].
        apply Z.log2_lt_pow2; lia. }
  rewrite <- Z.lxor_lor by exact Hdisj.
  symmetry. apply Z.add_nocarry_lxor. exact Hdisj.
Qed.

Lemma fromHexChar_range (c v : Z) : hex.fromHexChar c = Some v -> 0 <= v < 16.
Proof.
  unfold hex.fromHexChar.
  repeat match goal with
         | |- context [if ?b then _ else _] => destruct b eqn:?
         end; intros [= <-]; lia.
Qed.

Lemma is_hex_digit_value (c : Z) :
  is_hex_digit c = true -> hex.fromHexChar c = Some (hex_digit_value c).
Proof.
  unfold is_hex_digit, hex_digit_value.
  destruct (hex.fromHexChar c); [reflexivity | discriminate].
Qed.

Lemma is_hex_digit_false (c : Z) :
  is_hex_digit c = false -> hex.fromHexChar c = None.
Proof.
  unfold is_hex_digit. destruct (hex.fromHexChar c); [discriminate | reflexivity].
Qed.

(** [hex.Decode] on an even number of characters: either every character
    is a hex digit and the decoded bytes overwrite [dst] from index [i],
    or the first character that is not a hex digit is reported. *)
Lemma Decode_from_even (src : list Z) :
  forall (dst : list Z) (i : nat),
    Nat.even (length src) = true ->
    (i + length src / 2 <= length dst)%nat ->
    match find (fun c => negb (is_hex_digit c)) src with
    | None =>
        hex.Decode_from dst i src
        = (take i dst ++ hex_value src ++ drop (i + length src / 2) dst,
           (i + length src / 2)%nat, None)
    | Some c =>
        exists dst' i',
          hex.Decode_from dst i src = (dst', i', Some (hex_InvalidByteError c))
    end.
Proof.
  induction src as [| x | p q rest IH] using list_pair_ind; intros dst i Hev Hlen.
  - simpl. rewrite Nat.add_0_r, take_drop. reflexivity.
  - discriminate Hev.
  - cbn [find hex.Decode_from].
    destruct (is_hex_digit p) eqn:Hp; cbn [negb].
    2:{ rewrite (is_hex_digit_false _ Hp). eauto. }
    rewrite (is_hex_digit_value _ Hp).
    destruct (is_hex_digit q) eqn:Hq; cbn [negb].
    2:{ rewrite (is_hex_digit_false _ Hq). eauto. }
    rewrite (is_hex_digit_value _ Hq).
    assert (Hhalf : (length (p :: q :: rest) / 2 = S (length rest / 2))%nat).
    { cbn [length]. change (S (S (length rest))) with (2 + length rest)%nat.
      replace (2 + length rest)%nat with (1 * 2 + length rest)%nat by lia.
      rewrite Nat.div_add_l by lia. lia. }
    rewrite Hhalf in *.
    specialize (IH (<[i := Z.lor (Z.shiftl (hex_digit_value p) 4) (hex_digit_value q)]> dst)
                   (S i)).
    rewrite length_insert in IH.
    specialize (IH Hev ltac:(lia)).
    destruct (find _ rest) as [c |]; [exact IH |].
    rewrite IH. clear IH.
    assert (Hv : Z.lor (Z.shiftl (hex_digit_value p) 4) (hex_digit_value q)
                 = 16 * hex_digit_value p + hex_digit_value q).
    { rewrite (lor_shiftl_low 4);
        [change (2 ^ 4) with 16; lia | lia |].
      apply fromHexChar_range with q, is_hex_digit_value, Hq. }
    rewrite Hv.
    assert (Hi : (i < length dst)%nat) by lia.
    rewrite (take_S_r _ _ (16 * hex_digit_value p + hex_digit_value q))
      by (apply list_lookup_insert_eq; exact Hi).
    rewrite take_insert_ge by lia.
    rewrite drop_insert_lt by lia.
    cbn [hex_value]. rewrite <- app_assoc. cbn [app].
    replace (S i + length rest / 2)%nat with (i + S (length rest / 2))%nat by lia.
    reflexivity.
Qed.

Lemma bytes_of_string_length (s : string) :
  length (bytes_of_string s) = String.length s.
Proof.
  unfold bytes_of_string. rewrite length_map.
  induction s as [| c s IH]; simpl; [reflexivity | now rewrite IH].
Qed.

Lemma hex_value_length (src : list Z) : length (hex_value src) = (length src / 2)%nat.
Proof.
  induction src as [| x | p q rest IH] using list_pair_ind; try reflexivity.
  cbn [hex_value length]. rewrite IH.
  change (S (S (length rest))) with (2 + length rest)%nat.
  replace (2 + length rest)%nat with (1 * 2 + length rest)%nat by lia.
  rewrite Nat.div_add_l by lia. lia.
Qed.

Lemma all_hex_first_non_hex (s : string) :
  all_hex s = true <-> first_non_hex s = None.
Proof.
  unfold all_hex, first_non_hex.
  induction (bytes_of_string s) as [| c l IH]; simpl; [tauto |].
  destruct (is_hex_digit c); simpl; [exact IH |].
  split; discriminate.
Qed.

Lemma lower_byte_zero (a : ascii) :
  Ascii.eqb (strings.lower_byte a) "0" = Ascii.eqb a "0".
Proof. destruct a as [[] [] [] [] [] [] [] []]; vm_compute; reflexivity. Qed.

Lemma lower_byte_x (a : ascii) :
  Ascii.eqb (strings.lower_byte a) "x" = Ascii.eqb a "x" || Ascii.eqb a "X".
Proof. destruct a as [[] [] [] [] [] [] [] []]; vm_compute; reflexivity. Qed.

(** Lowering a prefix gives "0x" exactly for "0x" and "0X". *)
Lemma ToLower_0x (p : string) :
  String.eqb (strings.ToLower p) "0x" = is_0x p.
Proof.
  unfold is_0x.
  destruct p as [| a [| b [| c p]]]; try reflexivity.
  - cbn [strings.ToLower String.eqb]. rewrite lower_byte_zero.
    destruct (Ascii.eqb a "0"); reflexivity.
  - cbn [strings.ToLower String.eqb].
    rewrite lower_byte_zero, lower_byte_x.
    destruct (Ascii.eqb a "0"), (Ascii.eqb b "x"), (Ascii.eqb b "X"); reflexivity.
  - cbn [strings.ToLower String.eqb].
    rewrite lower_byte_zero, lower_byte_x.
    destruct (Ascii.eqb a "0"), (Ascii.eqb b "x"), (Ascii.eqb b "X"); reflexivity.
Qed.

Lemma substring_0_length (s : string) : substring 0 (String.length s) s = s.
Proof. induction s as [| c s IH]; simpl; [reflexivity | now rewrite IH]. Qed.

Lemma substring_length_le (s : string) (n m : nat) :
  (n + m <= String.length s)%nat -> String.length (substring n m s) = m.
Proof.
  revert n m. induction s as [| c s IH]; intros n m H; simpl in H.
  - assert (n = 0%nat) by lia. assert (m = 0%nat) by lia. subst. reflexivity.
  - destruct n as [| n].
    + destruct m as [| m]; [reflexivity |].
      simpl. rewrite IH by lia. reflexivity.
    + simpl. apply IH. lia.
Qed.

(** The part of the parsers after the length and prefix tests. *)
Lemma decode_digits (w : nat) (d : string) :
  String.length d = (2 * w)%nat ->
  match first_non_hex d with
  | None =>
      hex.Decode (repeat 0 w) (bytes_of_string d)
      = (hex_value (bytes_of_string d), w, None)
  | Some c =>
      exists dst' i',
        hex.Decode (repeat 0 w) (bytes_of_string d)
        = (dst', i', Some (hex_InvalidByteError c))
  end.
Proof.
  intros Hlen. unfold hex.Decode, first_non_hex.
  pose proof (Decode_from_even (bytes_of_string d) (repeat 0 w) 0) as H.
  rewrite bytes_of_string_length, Hlen, repeat_length in H.
  replace (2 * w)%nat with (w * 2)%nat in H by lia.
  rewrite Nat.div_mul in H by lia.
  assert (Hev : Nat.even (w * 2) = true).
  { rewrite Nat.even_mul. apply orb_true_r. }
  specialize (H Hev ltac:(lia)).
  destruct (find _ (bytes_of_string d)) as [c |]; [exact H |].
  rewrite H. cbn [take app Nat.add].
  rewrite drop_ge by (rewrite repeat_length; lia).
  rewrite app_nil_r. reflexivity.
Qed.

(** Every input falls in exactly one of six cases. *)
Lemma parseFixed_cases (w : nat) (s : string) :
  let n := String.length s in
  let digits := substring 2 (2 * w) s in
  (n = (2 * w)%nat /\ first_non_hex s = None /\
   parseFixed w s = (hex_value (bytes_of_string s), None)) \/
  (n = (2 * w)%nat /\ exists c, first_non_hex s = Some c /\
   parseFixed w s = (repeat 0 w, Some (hex_InvalidByteError c))) \/
  (n = (2 * w + 2)%nat /\ is_0x (substring 0 2 s) = false /\
   parseFixed w s = (repeat 0 w, Some (errors_New "invalid prefix"))) \/
  (n = (2 * w + 2)%nat /\ is_0x (substring 0 2 s) = true /\
   first_non_hex digits = None /\
   parseFixed w s = (hex_value (bytes_of_string digits), None)) \/
  (n = (2 * w + 2)%nat /\ is_0x (substring 0 2 s) = true /\
   exists c, first_non_hex digits = Some c /\
   parseFixed w s = (repeat 0 w, Some (hex_InvalidByteError c))) \/
  (n <> (2 * w)%nat /\ n <> (2 * w + 2)%nat /\
   parseFixed w s = (repeat 0 w, Some (errors_New "invalid length"))).
Proof.
  intros n digits. unfold parseFixed. fold n.
  destruct (Nat.eqb_spec n (w * 2)) as [Hn | Hn].
  - assert (Hlen : String.length s = (2 * w)%nat) by (subst n; lia).
    pose proof (decode_digits w s Hlen) as Hd.
    destruct (first_non_hex s) as [c |] eqn:Hf.
    + right; left. destruct Hd as (dst' & i' & ->).
      split; [lia |]. exists c. split; reflexivity.
    + left. rewrite Hd. split; [lia |]. split; reflexivity.
  - destruct (Nat.eqb_spec n (w * 2 + 2)) as [Hn2 | Hn2].
    + rewrite ToLower_0x.
      destruct (is_0x (substring 0 2 s)) eqn:Hp; cbn [negb].
      * replace (n - 2)%nat with (2 * w)%nat by lia. fold digits.
        assert (Hlen : String.length digits = (2 * w)%nat).
        { subst digits. apply substring_length_le. subst n. lia. }
        pose proof (decode_digits w digits Hlen) as Hd.
        destruct (first_non_hex digits) as [c |] eqn:Hf.
        -- do 4 right; left. destruct Hd as (dst' & i' & ->).
           split; [lia |]. split; [reflexivity |]. exists c. split; reflexivity.
        -- do 3 right; left. rewrite Hd.
           split; [lia |]. repeat split; reflexivity.
      * do 2 right; left. split; [lia |]. split; reflexivity.
    + do 5 right. split; [lia |]. split; [lia |]. reflexivity.
Qed.

Lemma parseFixed_prefixed (w : nat) (s p : string) :
  String.length s = (2 * w)%nat -> String.length p = 2%nat -> is_0x p = true ->
  parseFixed w (p ++ s) = parseFixed w s.
Proof.
  intros Hlen Hp2 Hp.
  destruct p as [| a [| b [| c p]]]; try discriminate Hp2.
  change (String a (String b "") ++ s)%string with (String a (String b s)).
  unfold parseFixed at 1.
  cbn [String.length]. rewrite Hlen.
  destruct (Nat.eqb_spec (S (S (2 * w))) (w * 2)) as [Habs | _]; [lia |].
  destruct (Nat.eqb_spec (S (S (2 * w))) (w * 2 + 2)) as [_ | Habs]; [| lia].
  rewrite ToLower_0x.
  assert (Hpre : substring 0 2 (String a (String b s)) = String a (String b "")).
  { cbn [substring]. destruct s; reflexivity. }
  rewrite Hpre, Hp. cbn [negb].
  replace (S (S (2 * w)) - 2)%nat with (2 * w)%nat by lia.
  cbn [substring]. rewrite <- Hlen, substring_0_length.
  unfold parseFixed. rewrite Hlen.
  destruct (Nat.eqb_spec (2 * w) (w * 2)) as [_ | Habs]; [reflexivity | lia].
Qed.

Lemma parseFixed_contract (w : nat) (parse : string -> list Z * option error) :
  (forall s, parse s = parseFixed w s) -> parse_contract parse w.
Proof.
  intros Hparse s n digits. rewrite !Hparse.
  pose proof (parseFixed_cases w s) as Hc. cbv zeta in Hc. fold n digits in Hc.
  pose proof (all_hex_first_non_hex s) as Hs.
  pose proof (all_hex_first_non_hex digits) as Hd.
  assert (Hzero : length (repeat 0 w) = w) by apply repeat_length.
  assert (Hval : forall d, String.length d = (2 * w)%nat ->
                           length (hex_value (bytes_of_string d)) = w).
  { intros d Hlen. rewrite hex_value_length, bytes_of_string_length, Hlen.
    replace (2 * w)%nat with (w * 2)%nat by lia. apply Nat.div_mul. lia. }
  assert (Hdl : n = (2 * w + 2)%nat -> String.length digits = (2 * w)%nat).
  { intros Hn. subst digits. apply substring_length_le. subst n. lia. }
  assert (Hpre : n = (2 * w)%nat ->
                 parseFixed w ("0x" ++ s) = parseFixed w s /\
                 parseFixed w ("0X" ++ s) = parseFixed w s).
  { intros Hn. split; apply parseFixed_prefixed; auto. }
  destruct Hc as [(Hn & Hf & Heq) | [(Hn & c & Hf & Heq) | [(Hn & Hp & Heq)
    | [(Hn & Hp & Hf & Heq) | [(Hn & Hp & c & Hf & Heq) | (Hn & Hn2 & Heq)]]]]];
    rewrite Heq in Hpre |- *; clear Heq;
    cbn [fst snd];
    repeat match goal with |- _ /\ _ => split end;
    try (intros; first [ lia | congruence | tauto | reflexivity ]).
  all: try solve [ intros; first [ apply Hval; auto | apply Hpre; auto ] ].
  all: try solve [ intros; destruct Hs, Hd; intuition congruence ].
  all: try solve [ intros; destruct Hs, Hd; intuition (first [lia | congruence]) ].
Qed.

(** C7 (amended): [ParseAddress] (20 bytes) and [ParseBytes32] (32 bytes)
    succeed exactly on [2w] hex digits with or without a [0x]/[0X] prefix
    and then return the bytes the digits denote; they fail with "invalid
    length" when the whole string has neither [2w] nor [2w+2] characters,
    with "invalid prefix" when it has [2w+2] characters that do not start
    with [0x]/[0X], and with the hex error of the first non-hex character
    otherwise; the prefixed forms of a [2w]-character string parse like
    the bare form.  The spec's examples hold. *)
Theorem Parse_contract :
  parse_contract meter.ParseAddress 20 /\
  parse_contract meter.ParseBytes32 32 /\
  meter.ParseAddress "0x1111111111111111111111111111111111111111"
  = meter.ParseAddress "1111111111111111111111111111111111111111" /\
  meter.ParseAddress "1111111111111111111111111111111111111111"
  = (repeat 17 20, None) /\
  meter.ParseBytes32
    "0Xabababababababababababababababababababababababababababababababab"
  = (repeat 171 32, None) /\
  meter.ParseAddress "111111111111111111111111111111111111111"
  = (meter.Address_zero, Some (errors_New "invalid length")).
Proof.
  split; [apply parseFixed_contract; intros s; reflexivity |].
  split; [apply parseFixed_contract; intros s; reflexivity |].
  repeat split; vm_compute; reflexivity.
Qed.

Lemma Parse_contract_witness :
  snd (meter.ParseAddress "0y1111111111111111111111111111111111111111")
  = Some (errors_New "invalid prefix").
Proof.
  destruct Parse_contract as (Haddr & _).
  destruct (Haddr "0y1111111111111111111111111111111111111111"%string)
    as (_ & _ & _ & _ & _ & _ & Hprefix & _).
  apply Hprefix; vm_compute; reflexivity.
Defined.

(** C7 as the spec words it: a string whose length without the optional
    prefix is wrong would fail with "invalid length".  ["0x"] followed by
    38 digits has stripped length 38, yet it has 40 characters, is taken
    as 40 digits and fails on the character [x] (byte 120). *)
Lemma Parse_stripped_length_counterexample :
  String.length (spec_stripped "0x11111111111111111111111111111111111111") = 38%nat /\
  meter.ParseAddress "0x11111111111111111111111111111111111111"
  = (meter.Address_zero, Some (hex_InvalidByteError 120)) /\
  ~ spec_invalid_length meter.ParseAddress 20.
Proof.
  split; [vm_compute; reflexivity |].
  split; [vm_compute; reflexivity |].
  intros Hspec.
  specialize (Hspec "0x11111111111111111111111111111111111111"%string).
  assert (Hlen : String.length
                   (spec_stripped "0x11111111111111111111111111111111111111")
                 <> (2 * 20)%nat) by (vm_compute; lia).
  specialize (Hspec Hlen). vm_compute in Hspec. discriminate Hspec.
Qed.

(** ** Signing hash, signer and ID *)

Section Identity.

Context {C : Crypto}.

Lemma signingInput_WithSignature (tx : Transaction.t) (sig : list Z) :
  Transaction.signingInput (Transaction.WithSignature tx sig)
  = Transaction.signingInput tx.
Proof. reflexivity. Qed.

Lemma Signer_unsigned (tx : Transaction.t) :
  Transaction.Signature tx = [] ->
  Transaction.Signer tx = (meter.Address_zero, None).
Proof.
  unfold Transaction.Signature, Transaction.Signer. intros ->. reflexivity.
Qed.

Lemma Signer_signed (tx : Transaction.t) :
  Transaction.Signature tx <> [] ->
  Transaction.Signer tx
  = match SigToPub (meter.Bytes (Transaction.SigningHash tx))
                   (Transaction.Signature tx) with
    | Err err => (meter.Address_zero, Some err)
    | Ok pub => (PubkeyToAddress pub, None)
    end.
Proof.
  unfold Transaction.Signature, Transaction.Signer. intros Hsig.
  destruct (body.Signature (Transaction.body tx)) as [| x sig];
    [contradiction | reflexivity].
Qed.

(** What [ID] computes on a transaction without signature: the digest
    of the signing hash followed by twenty zero bytes. *)
Lemma ID_unsigned (tx : Transaction.t) :
  Transaction.Signature tx = [] ->
  Transaction.ID tx
  = Blake2b_Sum (Transaction.SigningHash tx ++ meter.Address_zero).
Proof.
  intros Hsig. unfold Transaction.ID.
  rewrite (Signer_unsigned tx Hsig). reflexivity.
Qed.

(** What [ID] computes when a signer address recovers. *)
Lemma ID_signed (tx : Transaction.t) (pub : PublicKey) :
  Transaction.Signature tx <> [] ->
  SigToPub (meter.Bytes (Transaction.SigningHash tx)) (Transaction.Signature tx)
  = Ok pub ->
  Transaction.ID tx
  = Blake2b_Sum (Transaction.SigningHash tx ++ PubkeyToAddress pub).
Proof.
  intros Hsig Hrec. unfold Transaction.ID.
  rewrite (Signer_signed tx Hsig), Hrec. reflexivity.
Qed.

(** C2: attaching a signature does not change the signing hash.  The
    hash input is the list of the nine fields before the signature, in
    the order chain tag, block reference, expiration, clauses, gas price
    coefficient, gas, dependency, nonce, reserved; the full encoding is
    the list of the same nine encodings followed by the signature. *)
Theorem SigningHash_excludes_signature (tx : Transaction.t) (sig : list Z) :
  Transaction.SigningHash (Transaction.WithSignature tx sig)
  = Transaction.SigningHash tx /\
  (forall cs : list Z,
      let b := Transaction.body tx in
      let nine :=
        rlp.writeUint (body.ChainTag b)
        ++ rlp.writeUint (body.BlockRef b)
        ++ rlp.writeUint (body.Expiration b)
        ++ rlp.encodeList cs
        ++ rlp.writeUint (body.GasPriceCoef b)
        ++ rlp.writeUint (body.Gas b)
        ++ rlp.writeByteArrayPtr (body.DependsOn b)
        ++ rlp.writeUint (body.Nonce b)
        ++ rlp.encodeList (concat (map rlp.encodeItem (body.Reserved b))) in
      rlp.encodeAll Clause.EncodeRLP (body.Clauses b) = Ok cs ->
      Transaction.SigningHash tx = Blake2b_Sum (rlp.encodeList nine) /\
      Transaction.EncodeRLP tx
      = Ok (rlp.encodeList (nine ++ rlp.encodeString (Transaction.Signature tx))) /\
      Transaction.EncodeRLP (Transaction.WithSignature tx sig)
      = Ok (rlp.encodeList (nine ++ rlp.encodeString sig))).
Proof.
  split.
  - unfold Transaction.SigningHash.
    rewrite signingInput_WithSignature. reflexivity.
  - intros cs b nine Hcs.
    unfold Transaction.SigningHash, Transaction.signingInput,
      Transaction.EncodeRLP, body.encode, body.encodeFields,
      Transaction.WithSignature, Transaction.Signature.
    cbn [Transaction.body body.Clauses body.ChainTag body.BlockRef
         body.Expiration body.GasPriceCoef body.Gas body.DependsOn
         body.Nonce body.Reserved body.Signature].
    fold b. rewrite Hcs. cbn [rbind]. fold nine. repeat split; reflexivity.
Qed.

(** C4 (amended): when the signature is present and recovery fails with
    an error, [Signer] returns that error (with the zero address), which
    differs from its result on a transaction without signature; [ID],
    whose only result is the hash, returns the all-zero [Bytes32]. *)
Theorem recovery_failure (tx : Transaction.t) (err : error) :
  Transaction.Signature tx <> [] ->
  SigToPub (meter.Bytes (Transaction.SigningHash tx)) (Transaction.Signature tx)
  = Err err ->
  Transaction.Signer tx = (meter.Address_zero, Some err) /\
  Transaction.ID tx = meter.Bytes32_zero /\
  (forall tx0 : Transaction.t,
      Transaction.Signature tx0 = [] ->
      snd (Transaction.Signer tx0) = None /\
      Transaction.Signer tx <> Transaction.Signer tx0).
Proof.
  intros Hsig Hrec.
  assert (Hs : Transaction.Signer tx = (meter.Address_zero, Some err)).
  { rewrite (Signer_signed tx Hsig), Hrec. reflexivity. }
  split; [exact Hs |]. split.
  - unfold Transaction.ID. rewrite Hs. reflexivity.
  - intros tx0 H0. rewrite (Signer_unsigned tx0 H0), Hs.
    split; [reflexivity | congruence].
Qed.

(** C10: without signature, [Signer] returns the zero address and no
    error; a transaction whose signature recovers to the zero address
    gives exactly the same results. *)
Theorem Signer_no_signature (tx : Transaction.t) :
  Transaction.Signature tx = [] ->
  Transaction.Signer tx = (meter.Address_zero, None) /\
  (forall (tx' : Transaction.t) (pub : PublicKey),
      Transaction.Signature tx' <> [] ->
      SigToPub (meter.Bytes (Transaction.SigningHash tx'))
               (Transaction.Signature tx') = Ok pub ->
      PubkeyToAddress pub = meter.Address_zero ->
      Transaction.Signer tx' = Transaction.Signer tx).
Proof.
  intros Hsig. split; [exact (Signer_unsigned tx Hsig) |].
  intros tx' pub Hsig' Hrec Haddr.
  rewrite (Signer_unsigned tx Hsig), (Signer_signed tx' Hsig'), Hrec, Haddr.
  reflexivity.
Qed.

End Identity.

Lemma recovery_failure_witness :
  @Transaction.Signer sample_crypto malformed_tx
  = (meter.Address_zero, Some (crypto_error "invalid signature length")) /\
  @Transaction.ID sample_crypto malformed_tx = meter.Bytes32_zero.
Proof.
  destruct (@recovery_failure sample_crypto malformed_tx
              (crypto_error "invalid signature length"))
    as (Hsigner & Hid & _).
  - vm_compute. discriminate.
  - vm_compute. reflexivity.
  - split; [exact Hsigner | exact Hid].
Defined.

Lemma Signer_no_signature_witness :
  @Transaction.Signer sample_crypto sample_tx = (meter.Address_zero, None) /\
  @Transaction.Signer sample_crypto zero_signed_tx
  = @Transaction.Signer sample_crypto sample_tx.
Proof.
  destruct (@Signer_no_signature sample_crypto sample_tx) as (Hzero & Hsame).
  - vm_compute. reflexivity.
  - split; [exact Hzero |].
    apply (Hsame zero_signed_tx (repeat 0 64)).
    + vm_compute. discriminate.
    + vm_compute. reflexivity.
    + vm_compute. reflexivity.
Defined.

(** C4 as stated: on the transaction with the one-byte signature recovery
    fails, and [ID] hands the caller the zero value instead of an error. *)
Lemma ID_recovery_failure_counterexample :
  Transaction.Signature malformed_tx = [1] /\
  snd (@Transaction.Signer sample_crypto malformed_tx)
  = Some (crypto_error "invalid signature length") /\
  @Transaction.ID sample_crypto malformed_tx = repeat 0 32.
Proof. repeat split; vm_compute; reflexivity. Qed.

(** C1: the ID of the unsigned transaction of the demo program, under
    BLAKE2b-256 and any signature collaborator, is the digest of its
    signing hash followed by twenty zero bytes, which is not the all-zero
    [Bytes32]. *)
Theorem ID_unsigned_sample :
  forall (PK : Type) (recover : list Z -> list Z -> result PK)
         (address : PK -> meter.Address),
    let C := {| Blake2b_Sum := blake2b.Sum256; PublicKey := PK;
                SigToPub := recover; PubkeyToAddress := address |} in
    Transaction.Signature sample_tx = [] /\
    @Transaction.ID C sample_tx
    = [191; 246; 200; 175; 193; 94; 8; 44; 19; 170; 238; 105; 1; 197; 211;
       228; 53; 88; 54; 243; 18; 76; 28; 236; 166; 118; 38; 22; 50; 18; 43; 26] /\
    @Transaction.ID C sample_tx <> meter.Bytes32_zero.
Proof.
  intros PK recover address C.
  assert (Hid : @Transaction.ID C sample_tx
                = [191; 246; 200; 175; 193; 94; 8; 44; 19; 170; 238; 105; 1;
                   197; 211; 228; 53; 88; 54; 243; 18; 76; 28; 236; 166; 118;
                   38; 22; 50; 18; 43; 26]).
  { rewrite ID_unsigned by reflexivity. vm_compute. reflexivity. }
  split; [reflexivity |]. split; [exact Hid |].
  rewrite Hid. vm_compute. discriminate.
Qed.

(** ** The codec: sizes and headers *)

Lemma len_app (a b : list Z) : rlp.len (a ++ b) = rlp.len a + rlp.len b.
Proof. unfold rlp.len. rewrite length_app. lia. Qed.

Lemma len_nonneg (a : list Z) : 0 <= rlp.len a.
Proof. unfold rlp.len. lia. Qed.

Lemma len_cons (x : Z) (a : list Z) : rlp.len (x :: a) = 1 + rlp.len a.
Proof. unfold rlp.len. cbn [length]. lia. Qed.

(** The first of [n+1] big-endian bytes of a value with exactly [n+1]
    significant bytes is not zero. *)
Lemma be_bytes_head (n : nat) (v : Z) :
  2 ^ (8 * Z.of_nat n) <= v < 2 ^ (8 * Z.of_nat (S n)) ->
  nth 0 (binary.be_bytes (S n) v) 0 <> 0.
Proof.
  intros Hv. cbn [binary.be_bytes nth].
  rewrite land_255, Z.shiftr_div_pow2 by lia.
  assert (Hpos : 0 < 2 ^ (8 * Z.of_nat n)) by (apply Z.pow_pos_nonneg; lia).
  assert (Hlo : 1 <= v / 2 ^ (8 * Z.of_nat n)).
  { apply Z.div_le_lower_bound; lia. }
  assert (Hhi : v / 2 ^ (8 * Z.of_nat n) < 256).
  { apply Z.div_lt_upper_bound; [lia |].
    replace (8 * Z.of_nat (S n)) with (8 * Z.of_nat n + 8) in Hv by lia.
    rewrite Z.pow_add_r in Hv by lia. change (2 ^ 8) with 256 in Hv. lia. }
  rewrite Z.mod_small by lia. lia.
Qed.

Lemma putint_be_bytes (n : nat) (i : Z) :
  (n <= 7)%nat ->
  (n = 0%nat \/ 2 ^ (8 * Z.of_nat n) <= i) -> 0 <= i < 2 ^ (8 * Z.of_nat (S n)) ->
  putint_spec i (binary.be_bytes (S n) i).
Proof.
  intros Hn Hlo Hhi. split.
  - apply be_bytes_is_byte.
  - rewrite be_bytes_length. lia.
  - rewrite be_value_be_bytes by lia. apply Z.mod_small. lia.
  - intros Hsmall. destruct n as [| n].
    + cbn [binary.be_bytes]. change (8 * Z.of_nat 0) with 0.
      rewrite Z.shiftr_0_r, land_255, Z.mod_small by lia. reflexivity.
    + exfalso. destruct Hlo as [Hlo | Hlo]; [discriminate Hlo |].
      assert (2 ^ (8 * 1) <= 2 ^ (8 * Z.of_nat (S n)))
        by (apply Z.pow_le_mono_r; lia).
      change (2 ^ (8 * 1)) with 256 in *. lia.
  - intros Hbig. rewrite be_bytes_length.
    destruct n as [| n].
    + change (2 ^ (8 * Z.of_nat 1)) with 256 in Hhi. lia.
    + destruct Hlo as [Hlo | Hlo]; [discriminate Hlo |].
      split; [lia | apply be_bytes_head; lia].
  - intros k Hk Hik. rewrite be_bytes_length.
    destruct n as [| n]; [lia |].
    destruct Hlo as [Hlo | Hlo]; [discriminate Hlo |].
    destruct (Nat.le_gt_cases (S (S n)) k) as [Hle | Hgt]; [exact Hle | exfalso].
    assert (2 ^ (8 * Z.of_nat k) <= 2 ^ (8 * Z.of_nat (S n)))
      by (apply Z.pow_le_mono_r; lia).
    lia.
Qed.

Lemma putint_ok (i : Z) : 0 <= i < 2 ^ 64 -> putint_spec i (rlp.putint i).
Proof.
  intros Hi. unfold rlp.putint. rewrite Z.mod_small by exact Hi.
  repeat match goal with
         | |- context [if ?a <? ?b then _ else _] =>
             destruct (Z.ltb_spec a b)
         end.
  - apply (putint_be_bytes 0); [lia | left; reflexivity |].
    change (2 ^ (8 * Z.of_nat 1)) with (2 ^ 8). lia.
  - apply (putint_be_bytes 1); [lia | right; exact H | ].
    change (2 ^ (8 * Z.of_nat 2)) with (2 ^ 16). lia.
  - apply (putint_be_bytes 2); [lia | right; exact H0 | ].
    change (2 ^ (8 * Z.of_nat 3)) with (2 ^ 24). lia.
  - apply (putint_be_bytes 3); [lia | right; exact H1 | ].
    change (2 ^ (8 * Z.of_nat 4)) with (2 ^ 32). lia.
  - apply (putint_be_bytes 4); [lia | right; exact H2 | ].
    change (2 ^ (8 * Z.of_nat 5)) with (2 ^ 40). lia.
  - apply (putint_be_bytes 5); [lia | right; exact H3 | ].
    change (2 ^ (8 * Z.of_nat 6)) with (2 ^ 48). lia.
  - apply (putint_be_bytes 6); [lia | right; exact H4 | ].
    change (2 ^ (8 * Z.of_nat 7)) with (2 ^ 56). lia.
  - apply (putint_be_bytes 7); [lia | right; exact H5 | ].
    change (2 ^ (8 * Z.of_nat 8)) with (2 ^ 64). lia.
Qed.

Ltac ltb_cases :=
  repeat match goal with
         | |- context [if ?a <? ?b then _ else _] =>
             destruct (Z.ltb_spec a b); try lia
         | |- context [if ?a =? ?b then _ else _] =>
             destruct (Z.eqb_spec a b); try lia
         end.

Lemma take_len_app (a s : list Z) : take (Z.to_nat (rlp.len a)) (a ++ s) = a.
Proof. unfold rlp.len. rewrite Nat2Z.id. apply take_app_length. Qed.

Lemma drop_len_app (a s : list Z) : drop (Z.to_nat (rlp.len a)) (a ++ s) = s.
Proof. unfold rlp.len. rewrite Nat2Z.id. apply drop_app_length. Qed.

Lemma readFull_app (inList : bool) (a s : list Z) :
  rlp.readFull inList (rlp.len a) (a ++ s) = Ok (a, s).
Proof.
  unfold rlp.readFull. rewrite len_app.
  pose proof (len_nonneg s). ltb_cases.
  rewrite take_len_app, drop_len_app. reflexivity.
Qed.

Lemma readUint_putint (inList : bool) (i : Z) (s : list Z) :
  0 <= i < 2 ^ 64 ->
  rlp.readUint inList (rlp.len (rlp.putint i)) (rlp.putint i ++ s) = Ok (i, s).
Proof.
  intros Hi. destruct (putint_ok i Hi) as [Hb Hl Hv Hshort Hlong _].
  unfold rlp.readUint.
  assert (Hlen : 1 <= rlp.len (rlp.putint i) <= 8) by (unfold rlp.len; lia).
  destruct (Z.eqb_spec (rlp.len (rlp.putint i)) 0) as [H0 | _]; [lia |].
  destruct (Z.eqb_spec (rlp.len (rlp.putint i)) 1) as [H1 | H1].
  - assert (Hs : i < 256).
    { destruct (Z.lt_ge_cases i 256) as [? | Hge]; [assumption |].
      destruct (Hlong Hge) as [H2 _]. unfold rlp.len in H1. lia. }
    rewrite (Hshort Hs). reflexivity.
  - rewrite readFull_app. cbn [rbind].
    assert (Hl2 : 256 <= i).
    { destruct (Z.lt_ge_cases i 256) as [Hs | ?]; [| assumption].
      rewrite (Hshort Hs) in H1. unfold rlp.len in H1. simpl in H1. lia. }
    destruct (Hlong Hl2) as [_ Hhd].
    destruct (Z.eqb_spec (nth 0 (rlp.putint i) 0) 0) as [? | _]; [contradiction |].
    rewrite Hv. reflexivity.
Qed.

(** Reading back a header written by [puthead]. *)
Lemma readKind_string (inList : bool) (n : Z) (s : list Z) :
  0 <= n < 2 ^ 64 ->
  rlp.readKind inList (rlp.encodeStringHeader n ++ s) = Ok (rlp.String, n, 0, s).
Proof.
  intros Hn. unfold rlp.encodeStringHeader, rlp.puthead.
  destruct (Z.ltb_spec n 56) as [Hs | Hl].
  - cbn [app rlp.readKind rlp.readByte]. ltb_cases.
    repeat f_equal. lia.
  - destruct (putint_ok n Hn) as [_ Hlen _ _ _ _].
    assert (Hlen' : 1 <= rlp.len (rlp.putint n) <= 8) by (unfold rlp.len; lia).
    cbn [app rlp.readKind rlp.readByte]. ltb_cases.
    replace (183 + rlp.len (rlp.putint n) - 183) with (rlp.len (rlp.putint n)) by lia.
    rewrite readUint_putint by exact Hn. cbn [rbind]. ltb_cases. reflexivity.
Qed.

Lemma readKind_list (inList : bool) (n : Z) (s : list Z) :
  0 <= n < 2 ^ 64 ->
  rlp.readKind inList (rlp.listHeader n ++ s) = Ok (rlp.List, n, 0, s).
Proof.
  intros Hn. unfold rlp.listHeader, rlp.puthead.
  destruct (Z.ltb_spec n 56) as [Hs | Hl].
  - cbn [app rlp.readKind rlp.readByte]. ltb_cases.
    repeat f_equal. lia.
  - destruct (putint_ok n Hn) as [_ Hlen _ _ _ _].
    assert (Hlen' : 1 <= rlp.len (rlp.putint n) <= 8) by (unfold rlp.len; lia).
    cbn [app rlp.readKind rlp.readByte]. ltb_cases.
    replace (247 + rlp.len (rlp.putint n) - 247) with (rlp.len (rlp.putint n)) by lia.
    rewrite readUint_putint by exact Hn. cbn [rbind]. ltb_cases. reflexivity.
Qed.

Lemma readKind_byte (inList : bool) (x : Z) (s : list Z) :
  x < 128 -> rlp.readKind inList (x :: s) = Ok (rlp.Byte, 0, x, s).
Proof. intros Hx. cbn [rlp.readKind rlp.readByte]. ltb_cases. reflexivity. Qed.

Lemma header_nonempty (small large n : Z) : 1 <= rlp.len (rlp.puthead small large n).
Proof.
  unfold rlp.puthead. destruct (n <? 56); rewrite len_cons;
    pose proof (len_nonneg (rlp.putint n)); pose proof (len_nonneg []); lia.
Qed.

(** [Kind] on a value whose [n] payload bytes are all there. *)
Lemma Kind_string (inList : bool) (b s : list Z) :
  rlp.len b < 2 ^ 64 ->
  rlp.Kind inList (rlp.encodeStringHeader (rlp.len b) ++ b ++ s)
  = Ok (rlp.String, rlp.len b, 0, b ++ s).
Proof.
  intros Hb. unfold rlp.Kind.
  pose proof (len_nonneg b). pose proof (len_nonneg s).
  pose proof (header_nonempty 128 183 (rlp.len b)) as Hh.
  fold (rlp.encodeStringHeader (rlp.len b)) in Hh.
  rewrite readKind_string by lia. cbn [rbind].
  rewrite !len_app.
  destruct inList; cbn [andb]; ltb_cases; reflexivity.
Qed.

Lemma Kind_list (inList : bool) (b s : list Z) :
  rlp.len b < 2 ^ 64 ->
  rlp.Kind inList (rlp.listHeader (rlp.len b) ++ b ++ s)
  = Ok (rlp.List, rlp.len b, 0, b ++ s).
Proof.
  intros Hb. unfold rlp.Kind.
  pose proof (len_nonneg b). pose proof (len_nonneg s).
  pose proof (header_nonempty 192 247 (rlp.len b)) as Hh.
  fold (rlp.listHeader (rlp.len b)) in Hh.
  rewrite readKind_list by lia. cbn [rbind].
  rewrite !len_app.
  destruct inList; cbn [andb]; ltb_cases; reflexivity.
Qed.

Lemma Kind_byte (inList : bool) (x : Z) (s : list Z) :
  x < 128 -> rlp.Kind inList (x :: s) = Ok (rlp.Byte, 0, x, s).
Proof.
  intros Hx. unfold rlp.Kind. rewrite readKind_byte by exact Hx. cbn [rbind].
  rewrite len_cons. pose proof (len_nonneg s).
  destruct inList; cbn [andb]; ltb_cases; reflexivity.
Qed.

Lemma Kind_EOL : rlp.Kind true [] = Err rlp_EOL.
Proof. reflexivity. Qed.

(** ** The codec: values *)

Lemma Bytes_encodeString (inList : bool) (b s : list Z) :
  Forall is_byte b -> rlp.len b < 2 ^ 64 ->
  rlp.Bytes inList (rlp.encodeString b ++ s) = Ok (b, s).
Proof.
  intros Hb Hlen. unfold rlp.Bytes, rlp.encodeString.
  destruct b as [| x [| y b']].
  - rewrite <- app_assoc.
    rewrite (Kind_string inList [] s) by exact Hlen. cbn [rbind].
    rewrite (readFull_app inList [] s). cbn [rbind].
    change (rlp.len []) with 0. reflexivity.
  - destruct (Z.leb_spec x 127) as [Hs | Hl].
    + cbn [app]. rewrite Kind_byte by lia. reflexivity.
    + rewrite <- app_assoc.
      change (rlp.encodeStringHeader 1)
        with (rlp.encodeStringHeader (rlp.len [x])).
      rewrite (Kind_string inList [x] s) by exact Hlen. cbn [rbind].
      rewrite (readFull_app inList [x] s). cbn [rbind nth].
      change (rlp.len [x]) with 1. cbn [Z.eqb Pos.eqb andb].
      destruct (Z.ltb_spec x 128); [lia | reflexivity].
  - rewrite <- app_assoc. rewrite Kind_string by exact Hlen. cbn [rbind].
    rewrite readFull_app. cbn [rbind].
    assert (Hne : rlp.len (x :: y :: b') <> 1).
    { rewrite !len_cons. pose proof (len_nonneg b'). lia. }
    destruct (Z.eqb_spec (rlp.len (x :: y :: b')) 1); [contradiction |].
    reflexivity.
Qed.

Lemma decodeByteArray_encodeString (inList : bool) (n : nat) (a s : list Z) :
  (2 <= n)%nat -> length a = n -> rlp.len a < 2 ^ 64 ->
  rlp.decodeByteArray (Z.of_nat n) inList (rlp.encodeString a ++ s) = Ok (a, s).
Proof.
  intros Hn Ha Hlen. unfold rlp.decodeByteArray, rlp.encodeString.
  destruct a as [| x [| y a']]; try (cbn [length] in Ha; lia).
  rewrite <- app_assoc. rewrite Kind_string by exact Hlen. cbn [rbind].
  assert (Hl : rlp.len (x :: y :: a') = Z.of_nat n) by (unfold rlp.len; lia).
  rewrite Hl. rewrite !Z.ltb_irrefl. rewrite <- Hl.
  rewrite readFull_app. cbn [rbind].
  destruct (Z.eqb_spec (rlp.len (x :: y :: a')) 1); [lia | reflexivity].
Qed.

Lemma optionalPtr_writeByteArrayPtr (inList : bool) (n : nat)
  (p : option (list Z)) (s : list Z) :
  (2 <= n)%nat -> Z.of_nat n < 2 ^ 64 -> array_ok n p ->
  rlp.optionalPtr (rlp.decodeByteArray (Z.of_nat n)) inList
                  (rlp.writeByteArrayPtr p ++ s)
  = Ok (p, s).
Proof.
  intros Hn Hfit Hp. unfold rlp.optionalPtr, rlp.writeByteArrayPtr.
  destruct p as [a |].
  - destruct Hp as [Ha Hb].
    assert (Hlen : rlp.len a < 2 ^ 64) by (unfold rlp.len; lia).
    rewrite decodeByteArray_encodeString by assumption. cbn [rbind].
    unfold rlp.encodeString.
    destruct a as [| x [| y a']]; try (cbn [length] in Ha; lia).
    rewrite <- app_assoc. rewrite Kind_string by exact Hlen.
    destruct (Z.eqb_spec (rlp.len (x :: y :: a')) 0) as [H0 | _];
      [rewrite !len_cons in H0; pose proof (len_nonneg a'); lia | reflexivity].
  - change ([128] ++ s) with (rlp.encodeStringHeader (rlp.len []) ++ [] ++ s).
    rewrite Kind_string by (change (rlp.len []) with 0; lia).
    reflexivity.
Qed.

Lemma uint_writeUint (inList : bool) (k : nat) (v : Z) (s : list Z) :
  (1 <= k <= 8)%nat -> 0 <= v < 2 ^ (8 * Z.of_nat k) ->
  rlp.uint (8 * Z.of_nat k) inList (rlp.writeUint v ++ s) = Ok (v, s).
Proof.
  intros Hk Hv. unfold rlp.uint, rlp.writeUint.
  destruct (Z.eqb_spec v 0) as [-> | Hnz].
  - change ([128] ++ s) with (rlp.encodeStringHeader (rlp.len []) ++ [] ++ s).
    rewrite Kind_string by (change (rlp.len []) with 0; lia). cbn [rbind].
    change (rlp.len []) with 0.
    rewrite (Z.mul_comm 8), Z.div_mul by lia.
    destruct (Z.ltb_spec (Z.of_nat k) 0); [lia |]. reflexivity.
  - destruct (Z.ltb_spec v 128) as [Hs | Hl].
    + cbn [app]. rewrite Kind_byte by exact Hs. cbn [rbind].
      destruct (Z.eqb_spec v 0); [contradiction | reflexivity].
    + assert (Hv64 : 0 <= v < 2 ^ 64).
      { split; [lia |]. apply Z.lt_le_trans with (2 ^ (8 * Z.of_nat k)); [lia |].
        apply Z.pow_le_mono_r; lia. }
      destruct (putint_ok v Hv64) as [_ Hlen _ _ _ Hfits].
      specialize (Hfits k ltac:(lia) ltac:(lia)).
      assert (Hl56 : rlp.len (rlp.putint v) < 56) by (unfold rlp.len; lia).
      assert (Hhdr : (128 + rlp.len (rlp.putint v)) :: rlp.putint v
                     = rlp.encodeStringHeader (rlp.len (rlp.putint v)) ++ rlp.putint v).
      { unfold rlp.encodeStringHeader, rlp.puthead.
        destruct (Z.ltb_spec (rlp.len (rlp.putint v)) 56); [reflexivity | lia]. }
      rewrite Hhdr, <- app_assoc. rewrite Kind_string by lia. cbn [rbind].
      rewrite (Z.mul_comm 8), Z.div_mul by lia.
      destruct (Z.ltb_spec (Z.of_nat k) (rlp.len (rlp.putint v)));
        [unfold rlp.len in *; lia |].
      rewrite readUint_putint by exact Hv64.
      destruct (Z.ltb_spec v 128); [lia |].
      rewrite andb_false_r. reflexivity.
Qed.

Lemma be_value_snoc (l : list Z) (x : Z) :
  Forall is_byte l -> is_byte x ->
  binary.be_value (l ++ [x]) = binary.be_value l * 256 + x.
Proof.
  intros Hl Hx. unfold binary.be_value. rewrite fold_left_app. cbn [fold_left].
  apply lor_shiftl_byte. exact Hx.
Qed.

(** [Int.Bytes] of a non-negative integer: bytes, most significant first
    and not zero, denoting the integer. *)
Lemma le_bytes_spec (fuel : nat) (x : Z) :
  0 <= x < 2 ^ Z.of_nat fuel ->
  Forall is_byte (rev (big.le_bytes fuel x)) /\
  binary.be_value (rev (big.le_bytes fuel x)) = x /\
  (0 < x -> nth 0 (rev (big.le_bytes fuel x)) 0 <> 0).
Proof.
  revert x. induction fuel as [| fuel IH]; intros x Hx.
  - change (2 ^ Z.of_nat 0) with 1 in Hx. assert (x = 0) by lia. subst x.
    cbn. repeat split; [constructor | lia].
  - cbn [big.le_bytes].
    destruct (Z.eqb_spec x 0) as [-> | Hnz].
    + cbn. repeat split; [constructor | lia].
    + assert (Hq : 0 <= x / 256 < 2 ^ Z.of_nat fuel).
      { split; [apply Z.div_pos; lia |].
        apply Z.div_lt_upper_bound; [lia |].
        rewrite Nat2Z.inj_succ, Z.pow_succ_r in Hx by lia.
        assert (0 < 2 ^ Z.of_nat fuel) by (apply Z.pow_pos_nonneg; lia). lia. }
      destruct (IH _ Hq) as (Hb & Hv & Hhd).
      assert (Hm : is_byte (x mod 256)) by (apply Z.mod_pos_bound; lia).
      cbn [rev]. split; [| split].
      * apply Forall_app. split; [exact Hb | constructor; [exact Hm | constructor]].
      * rewrite be_value_snoc by assumption. rewrite Hv.
        pose proof (Z.div_mod x 256). lia.
      * intros _.
        destruct (Z.eq_dec (x / 256) 0) as [Hz | Hnz'].
        -- rewrite Hz. assert (Hnil : big.le_bytes fuel 0 = [])
             by (destruct fuel; reflexivity).
           rewrite Hnil. cbn [rev app nth].
           rewrite Z.mod_small; [exact Hnz |].
           split; [lia |].
           destruct (Z.lt_ge_cases x 256) as [? | Hge]; [assumption | exfalso].
           assert (1 <= x / 256) by (apply Z.div_le_lower_bound; lia). lia.
        -- specialize (Hhd ltac:(lia)).
           destruct (rev (big.le_bytes fuel (x / 256))) as [| h t] eqn:Hr.
           ++ cbn [nth] in Hhd. contradiction.
           ++ cbn [app nth] in *. exact Hhd.
Qed.

Lemma big_Bytes_spec (v : Z) :
  0 <= v ->
  Forall is_byte (big.Bytes v) /\
  binary.be_value (big.Bytes v) = v /\
  (0 < v -> nth 0 (big.Bytes v) 0 <> 0) /\
  (v = 0 -> big.Bytes v = []).
Proof.
  intros Hv. unfold big.Bytes. rewrite Z.abs_eq by exact Hv.
  assert (Hb : 0 <= v < 2 ^ Z.of_nat (S (Z.to_nat (Z.log2 v)))).
  { split; [exact Hv |].
    rewrite Nat2Z.inj_succ, Z2Nat.id by apply Z.log2_nonneg.
    destruct (Z.eq_dec v 0) as [-> | Hnz]; [reflexivity |].
    apply Z.log2_spec. lia. }
  destruct (le_bytes_spec _ _ Hb) as (H1 & H2 & H3).
  repeat split; try assumption.
  intros ->. reflexivity.
Qed.

Lemma writeBigInt_ok (v : Z) :
  0 <= v -> rlp.writeBigInt v = Ok (rlp.encodeString (big.Bytes v)).
Proof.
  intros Hv. unfold rlp.writeBigInt.
  destruct (Z.ltb_spec v 0); [lia |].
  destruct (Z.eqb_spec v 0) as [-> | _]; reflexivity.
Qed.

Lemma decodeBigInt_encodeString (inList : bool) (v : Z) (s : list Z) :
  0 <= v -> rlp.len (big.Bytes v) < 2 ^ 64 ->
  rlp.decodeBigInt inList (rlp.encodeString (big.Bytes v) ++ s) = Ok (v, s).
Proof.
  intros Hv Hlen. destruct (big_Bytes_spec v Hv) as (Hb & Hval & Hhd & Hz).
  unfold rlp.decodeBigInt. rewrite Bytes_encodeString by assumption.
  cbn [rbind]. unfold big.SetBytes. rewrite Hval.
  destruct (Z.eq_dec v 0) as [H0 | Hnz].
  - rewrite (Hz H0). reflexivity.
  - destruct (Z.eqb_spec (nth 0 (big.Bytes v) 0) 0) as [Habs | _].
    + exfalso. apply Hhd; [lia | exact Habs].
    + rewrite andb_false_r. reflexivity.
Qed.

(** ** The codec: lists *)

Lemma List_encodeList (inList : bool) (payload s : list Z) :
  rlp.len payload < 2 ^ 64 ->
  rlp.List_ inList (rlp.encodeList payload ++ s)
  = Ok (rlp.len payload, payload, s).
Proof.
  intros Hlen. unfold rlp.List_, rlp.encodeList.
  rewrite <- app_assoc, Kind_list by exact Hlen. cbn [rbind].
  rewrite readFull_app. reflexivity.
Qed.

Lemma field_Ok {A} (d : rlp.decoder A) (s : list Z) (r : A * list Z) :
  d true s = Ok r -> rlp.field d s = Ok r.
Proof. unfold rlp.field. intros ->. reflexivity. Qed.

(** The element loop reads back the elements of a payload, given that the
    element decoder reads back each element and reports the end of the
    list. *)
Lemma decodeSliceElems_concat {A} (enc : A -> list Z) (dec : rlp.decoder A)
  (ok : A -> Prop) (xs : list A) (fuel : nat) :
  (forall x s, ok x -> dec true (enc x ++ s) = Ok (x, s)) ->
  dec true [] = Err rlp_EOL ->
  Forall ok xs -> (length xs < fuel)%nat ->
  rlp.decodeSliceElems fuel dec (concat (map enc xs)) = Ok (xs, []).
Proof.
  intros Hdec Heol. revert fuel.
  induction xs as [| x xs IH]; intros fuel Hok Hfuel.
  - destruct fuel as [| fuel]; [cbn [length] in Hfuel; lia |].
    cbn [map concat rlp.decodeSliceElems]. rewrite Heol. reflexivity.
  - destruct fuel as [| fuel]; [cbn [length] in Hfuel; lia |].
    inversion Hok as [| ? ? Hx Hxs]; subst.
    cbn [map concat rlp.decodeSliceElems].
    rewrite Hdec by exact Hx.
    rewrite IH by (try assumption; cbn [length] in Hfuel; lia).
    reflexivity.
Qed.

Lemma decodeListSlice_encodeList {A} (enc : A -> list Z) (dec : rlp.decoder A)
  (ok : A -> Prop) (xs : list A) (fuel : nat) (inList : bool) (s : list Z) :
  (forall x s, ok x -> dec true (enc x ++ s) = Ok (x, s)) ->
  dec true [] = Err rlp_EOL ->
  Forall ok xs -> (length xs < fuel)%nat ->
  rlp.len (concat (map enc xs)) < 2 ^ 64 ->
  rlp.decodeListSlice fuel dec inList (rlp.encodeList (concat (map enc xs)) ++ s)
  = Ok (xs, s).
Proof.
  intros Hdec Heol Hok Hfuel Hlen. unfold rlp.decodeListSlice.
  rewrite List_encodeList by exact Hlen. cbn [rbind].
  destruct (Z.eqb_spec (rlp.len (concat (map enc xs))) 0) as [H0 | Hnz].
  - destruct xs as [| x xs]; [reflexivity |].
    exfalso. unfold rlp.len in H0.
    assert (Hnil : concat (map enc (x :: xs)) = [])
      by (apply length_zero_iff_nil; lia).
    inversion Hok as [| ? ? Hx _]; subst.
    specialize (Hdec x [] Hx). cbn [map concat] in Hnil.
    apply app_eq_nil in Hnil. destruct Hnil as [Hex _].
    rewrite Hex in Hdec. cbn [app] in Hdec. congruence.
  - rewrite (decodeSliceElems_concat enc dec ok) by assumption.
    reflexivity.
Qed.

Lemma encodeString_len (b : list Z) : rlp.len b <= rlp.len (rlp.encodeString b).
Proof.
  unfold rlp.encodeString. destruct b as [| x [| y b']].
  - rewrite len_app. pose proof (len_nonneg (rlp.encodeStringHeader (rlp.len []))). lia.
  - destruct (x <=? 127); [lia |]. rewrite len_app.
    pose proof (len_nonneg (rlp.encodeStringHeader 1)). lia.
  - rewrite len_app.
    pose proof (len_nonneg (rlp.encodeStringHeader (rlp.len (x :: y :: b')))). lia.
Qed.

Lemma encodeList_len (payload : list Z) :
  1 + rlp.len payload <= rlp.len (rlp.encodeList payload).
Proof.
  unfold rlp.encodeList. rewrite len_app.
  pose proof (header_nonempty 192 247 (rlp.len payload)) as Hh.
  fold (rlp.listHeader (rlp.len payload)) in Hh. lia.
Qed.

Lemma Clause_EncodeRLP_ok (c : Clause.t) :
  0 <= Clause.Value c -> Clause.EncodeRLP c = Ok (Clause_bytes c).
Proof.
  intros Hv. unfold Clause.EncodeRLP, clauseBody.encode, Clause_bytes.
  unfold Clause.Value in Hv. rewrite writeBigInt_ok by exact Hv. reflexivity.
Qed.

(** A clause is read back from its encoding. *)
Lemma Clause_DecodeRLP_bytes (inList : bool) (c : Clause.t) (s : list Z) :
  Clause_ok c -> rlp.len (Clause_bytes c) < 2 ^ 64 ->
  Clause.DecodeRLP inList (Clause_bytes c ++ s) = Ok (c, s).
Proof.
  intros (Hto & Hval & Htok & Hdata) Hlen.
  unfold Clause.DecodeRLP, clauseBody.decode, Clause_bytes in *.
  pose proof (encodeList_len
                (rlp.writeByteArrayPtr (Clause.To c)
                 ++ rlp.encodeString (big.Bytes (Clause.Value c))
                 ++ rlp.writeUint (Clause.Token c)
                 ++ rlp.encodeString (Clause.Data c))) as Hpay.
  rewrite List_encodeList by lia. cbn [rbind].
  rewrite !len_app in Hpay.
  pose proof (encodeString_len (big.Bytes (Clause.Value c))).
  pose proof (encodeString_len (Clause.Data c)).
  pose proof (len_nonneg (rlp.writeByteArrayPtr (Clause.To c))).
  pose proof (len_nonneg (rlp.writeUint (Clause.Token c))).
  pose proof (len_nonneg (big.Bytes (Clause.Value c))).
  pose proof (len_nonneg (Clause.Data c)).
  rewrite (field_Ok _ _ (Clause.To c, _)
             (optionalPtr_writeByteArrayPtr true 20 _ _ ltac:(lia) ltac:(lia) Hto)).
  cbn [rbind].
  rewrite (field_Ok _ _ (Clause.Value c, _)
             (decodeBigInt_encodeString true _ _ Hval ltac:(lia))).
  cbn [rbind].
  rewrite (field_Ok _ _ (Clause.Token c, _)
             (uint_writeUint true 1 _ _ ltac:(lia) Htok)).
  cbn [rbind].
  rewrite <- (app_nil_r (rlp.encodeString (Clause.Data c))).
  rewrite (field_Ok _ _ (Clause.Data c, [])
             (Bytes_encodeString true _ _ Hdata ltac:(lia))).
  cbn [rbind rlp.ListEnd].
  destruct c as [[to value token data]]. reflexivity.
Qed.

Lemma Clause_DecodeRLP_EOL : Clause.DecodeRLP true [] = Err rlp_EOL.
Proof. reflexivity. Qed.

Lemma encodeAll_Clauses (cs : list Clause.t) :
  Forall Clause_ok cs ->
  rlp.encodeAll Clause.EncodeRLP cs = Ok (concat (map Clause_bytes cs)).
Proof.
  induction 1 as [| c cs Hc Hcs IH]; [reflexivity |].
  cbn [rlp.encodeAll map concat].
  destruct Hc as (_ & Hv & _). rewrite (Clause_EncodeRLP_ok c Hv), IH.
  reflexivity.
Qed.

Lemma concat_len_elem {A} (enc : A -> list Z) (xs : list A) (x : A) :
  In x xs -> rlp.len (enc x) <= rlp.len (concat (map enc xs)).
Proof.
  induction xs as [| y xs IH]; intros Hin; [destruct Hin |].
  cbn [map concat]. rewrite len_app.
  pose proof (len_nonneg (enc y)). pose proof (len_nonneg (concat (map enc xs))).
  destruct Hin as [-> | Hin]; [lia | specialize (IH Hin); lia].
Qed.

Lemma concat_len_count {A} (enc : A -> list Z) (xs : list A) :
  (forall x, In x xs -> 1 <= rlp.len (enc x)) ->
  Z.of_nat (length xs) <= rlp.len (concat (map enc xs)).
Proof.
  induction xs as [| y xs IH]; intros Hne.
  - cbn. unfold rlp.len. cbn. lia.
  - cbn [map concat length]. rewrite len_app.
    specialize (Hne y (or_introl eq_refl)) as Hy.
    specialize (IH (fun x Hx => Hne x (or_intror Hx))). lia.
Qed.

(** ** The codec: reserved items *)

Lemma item_nested_ind (P : rlp.item -> Prop) :
  (forall b, P (rlp.Str b)) ->
  (forall l, Forall P l -> P (rlp.Lst l)) ->
  forall v, P v.
Proof.
  intros Hstr Hlst. fix IH 1. intros [b | l].
  - apply Hstr.
  - apply Hlst. induction l as [| x l IHl]; constructor; [apply IH | exact IHl].
Qed.

Lemma item_ok_Lst (l : list rlp.item) : item_ok (rlp.Lst l) <-> Forall item_ok l.
Proof.
  cbn [item_ok]. induction l as [| x l IH].
  - split; [constructor | trivial].
  - split.
    + intros [Hx Hl]. constructor; [exact Hx | apply IH, Hl].
    + intros H. inversion H as [| ? ? Hx Hl]; subst. split; [exact Hx | apply IH, Hl].
Qed.

Lemma encodeString_nonempty (b : list Z) : 1 <= rlp.len (rlp.encodeString b).
Proof.
  unfold rlp.encodeString. destruct b as [| x [| y b']].
  - rewrite len_app. pose proof (header_nonempty 128 183 (rlp.len [])) as Hh.
    fold (rlp.encodeStringHeader (rlp.len [])) in Hh.
    pose proof (len_nonneg []). lia.
  - destruct (x <=? 127); [unfold rlp.len; cbn; lia |].
    rewrite len_app. pose proof (header_nonempty 128 183 1) as Hh.
    fold (rlp.encodeStringHeader 1) in Hh. pose proof (len_nonneg [x]). lia.
  - rewrite len_app.
    pose proof (header_nonempty 128 183 (rlp.len (x :: y :: b'))) as Hh.
    fold (rlp.encodeStringHeader (rlp.len (x :: y :: b'))) in Hh.
    pose proof (len_nonneg (x :: y :: b')). lia.
Qed.

Lemma encodeItem_nonempty (v : rlp.item) : 1 <= rlp.len (rlp.encodeItem v).
Proof.
  destruct v as [b | l]; cbn [rlp.encodeItem].
  - apply encodeString_nonempty.
  - pose proof (encodeList_len (concat (map rlp.encodeItem l))).
    pose proof (len_nonneg (concat (map rlp.encodeItem l))). lia.
Qed.

(** The tag of an encoded string is never the tag of a list. *)
Lemma Kind_encodeString (inList : bool) (b s : list Z) :
  Forall is_byte b -> rlp.len b < 2 ^ 64 ->
  exists k size bv s',
    rlp.Kind inList (rlp.encodeString b ++ s) = Ok (k, size, bv, s') /\
    k <> rlp.List.
Proof.
  intros Hb Hlen. unfold rlp.encodeString.
  destruct b as [| x [| y b']].
  - rewrite <- app_assoc, Kind_string by exact Hlen.
    do 4 eexists. split; [reflexivity | discriminate].
  - destruct (Z.leb_spec x 127).
    + cbn [app]. rewrite Kind_byte by lia.
      do 4 eexists. split; [reflexivity | discriminate].
    + rewrite <- app_assoc.
      change (rlp.encodeStringHeader 1)
        with (rlp.encodeStringHeader (rlp.len [x])).
      rewrite Kind_string by exact Hlen.
      do 4 eexists. split; [reflexivity | discriminate].
  - rewrite <- app_assoc, Kind_string by exact Hlen.
    do 4 eexists. split; [reflexivity | discriminate].
Qed.

(** An item is read back from its encoding, given fuel above the length
    of the encoding. *)
Lemma decodeInterface_encodeItem (v : rlp.item) :
  forall (fuel : nat) (inList : bool) (s : list Z),
    item_ok v -> rlp.len (rlp.encodeItem v) < 2 ^ 64 ->
    rlp.len (rlp.encodeItem v) < Z.of_nat fuel ->
    rlp.decodeInterface fuel inList (rlp.encodeItem v ++ s) = Ok (v, s).
Proof.
  induction v as [b | l IH] using item_nested_ind;
    intros fuel inList s Hok Hlen Hfuel.
  - destruct fuel as [| fuel];
      [pose proof (encodeItem_nonempty (rlp.Str b)); lia |].
    cbn [rlp.decodeInterface rlp.encodeItem] in *.
    pose proof (encodeString_len b).
    destruct (Kind_encodeString inList b s Hok ltac:(lia))
      as (k & size & bv & s' & -> & Hk).
    cbn [rbind]. rewrite Bytes_encodeString by (try exact Hok; lia).
    destruct k; [reflexivity | reflexivity | contradiction].
  - destruct fuel as [| fuel];
      [pose proof (encodeItem_nonempty (rlp.Lst l)); lia |].
    cbn [rlp.decodeInterface rlp.encodeItem] in *.
    pose proof (encodeList_len (concat (map rlp.encodeItem l))) as Hpay.
    pose proof (len_nonneg (concat (map rlp.encodeItem l))).
    unfold rlp.encodeList at 1.
    rewrite <- app_assoc, Kind_list by lia. cbn [rbind].
    fold (rlp.encodeList (concat (map rlp.encodeItem l))).
    apply item_ok_Lst in Hok.
    set (ok := fun x : rlp.item =>
                 item_ok x /\ rlp.len (rlp.encodeItem x) < 2 ^ 64 /\
                 rlp.len (rlp.encodeItem x) < Z.of_nat fuel /\
                 forall inList s,
                   rlp.decodeInterface fuel inList (rlp.encodeItem x ++ s)
                   = Ok (x, s)).
    assert (Hall : Forall ok l).
    { rewrite Forall_forall in IH, Hok. apply Forall_forall. intros x Hx.
      apply list_elem_of_In in Hx.
      pose proof (concat_len_elem rlp.encodeItem l x Hx) as Hle.
      assert (Hx' : x ∈ l) by (apply list_elem_of_In; exact Hx).
      unfold ok. repeat split; try lia.
      - apply Hok, Hx'.
      - intros inList' s'. apply IH; [exact Hx' | apply Hok, Hx' | lia | lia]. }
    assert (Hcount : Z.of_nat (length l) <= rlp.len (concat (map rlp.encodeItem l))).
    { apply concat_len_count. intros x _. apply encodeItem_nonempty. }
    rewrite (decodeListSlice_encodeList rlp.encodeItem
               (rlp.decodeInterface fuel) ok);
      [reflexivity | | | exact Hall | lia | lia].
    + intros x s0 (_ & _ & _ & Hx). apply Hx.
    + destruct fuel as [| fuel']; [lia | reflexivity].
Qed.

(** ** The codec: transactions *)

Lemma EncodeToBytes_ok (tx : Transaction.t) :
  Forall Clause_ok (body.Clauses (Transaction.body tx)) ->
  EncodeToBytes tx = Ok (Transaction_bytes tx).
Proof.
  intros Hcs.
  unfold EncodeToBytes, Transaction.EncodeRLP, body.encode, body.encodeFields,
    Transaction_bytes, Transaction_payload.
  rewrite (encodeAll_Clauses _ Hcs). cbn [rbind].
  repeat rewrite <- app_assoc. reflexivity.
Qed.

Lemma Clause_bytes_nonempty (c : Clause.t) : 1 <= rlp.len (Clause_bytes c).
Proof.
  unfold Clause_bytes.
  match goal with |- context [rlp.encodeList ?p] =>
    pose proof (encodeList_len p); pose proof (len_nonneg p) end.
  lia.
Qed.

Lemma writeUint_nonempty (v : Z) : 1 <= rlp.len (rlp.writeUint v).
Proof.
  unfold rlp.writeUint.
  destruct (v =? 0); [| destruct (v <? 128)]; rewrite len_cons;
    match goal with |- context [rlp.len ?l] => pose proof (len_nonneg l) end; lia.
Qed.

(** The struct decoder reads a well-formed transaction body back from its
    encoding, given fuel above the length of the encoding. *)
Lemma body_decode_bytes (tx : Transaction.t) (fuel : nat) (inList : bool)
  (s : list Z) :
  Transaction_ok tx ->
  rlp.len (Transaction_bytes tx) < Z.of_nat fuel ->
  body.decode fuel inList (Transaction_bytes tx ++ s)
  = Ok (Transaction.body tx, s).
Proof.
  intros (Htag & Href & Hexp & Hcs & Hcoef & Hgas & Hdep & Hnonce & Hres & Hsig
          & Hfit) Hfuel.
  rewrite (EncodeToBytes_ok tx Hcs) in Hfit.
  unfold Transaction_bytes in *.
  pose proof (encodeList_len (Transaction_payload tx)) as Hpay.
  unfold body.decode. rewrite List_encodeList by lia. cbn [rbind].
  unfold Transaction_payload in *.
  set (b := Transaction.body tx) in *.
  set (cs := concat (map Clause_bytes (body.Clauses b))) in *.
  set (rs := concat (map rlp.encodeItem (body.Reserved b))) in *.
  rewrite !len_app in Hpay.
  pose proof (encodeList_len cs). pose proof (encodeList_len rs).
  pose proof (encodeString_len (body.Signature b)).
  pose proof (len_nonneg cs). pose proof (len_nonneg rs).
  pose proof (len_nonneg (body.Signature b)).
  pose proof (len_nonneg (rlp.writeUint (body.ChainTag b))).
  pose proof (len_nonneg (rlp.writeUint (body.BlockRef b))).
  pose proof (len_nonneg (rlp.writeUint (body.Expiration b))).
  pose proof (len_nonneg (rlp.writeUint (body.GasPriceCoef b))).
  pose proof (len_nonneg (rlp.writeUint (body.Gas b))).
  pose proof (len_nonneg (rlp.writeUint (body.Nonce b))).
  pose proof (len_nonneg (rlp.writeByteArrayPtr (body.DependsOn b))).
  rewrite (field_Ok _ _ (body.ChainTag b, _)
             (uint_writeUint true 1 _ _ ltac:(lia) Htag)). cbn [rbind].
  rewrite (field_Ok _ _ (body.BlockRef b, _)
             (uint_writeUint true 8 _ _ ltac:(lia) Href)). cbn [rbind].
  rewrite (field_Ok _ _ (body.Expiration b, _)
             (uint_writeUint true 4 _ _ ltac:(lia) Hexp)). cbn [rbind].
  assert (Hclauses : Forall (fun c => Clause_ok c /\ rlp.len (Clause_bytes c) < 2 ^ 64)
                            (body.Clauses b)).
  { apply Forall_forall. intros c Hc. split.
    - rewrite Forall_forall in Hcs. apply Hcs, Hc.
    - apply list_elem_of_In in Hc.
      pose proof (concat_len_elem Clause_bytes _ c Hc) as Hle. fold cs in Hle. lia. }
  assert (Hccount : Z.of_nat (length (body.Clauses b)) <= rlp.len cs).
  { apply concat_len_count. intros c _. apply Clause_bytes_nonempty. }
  rewrite (field_Ok _ _ (body.Clauses b, _)
             (decodeListSlice_encodeList Clause_bytes Clause.DecodeRLP _ _ fuel
                true _
                (fun c s' H => Clause_DecodeRLP_bytes true c s' (proj1 H) (proj2 H))
                Clause_DecodeRLP_EOL Hclauses ltac:(lia) ltac:(fold cs; lia))).
  cbn [rbind].
  rewrite (field_Ok _ _ (body.GasPriceCoef b, _)
             (uint_writeUint true 1 _ _ ltac:(lia) Hcoef)). cbn [rbind].
  rewrite (field_Ok _ _ (body.Gas b, _)
             (uint_writeUint true 8 _ _ ltac:(lia) Hgas)). cbn [rbind].
  rewrite (field_Ok _ _ (body.DependsOn b, _)
             (optionalPtr_writeByteArrayPtr true 32 _ _ ltac:(lia) ltac:(lia) Hdep)).
  cbn [rbind].
  rewrite (field_Ok _ _ (body.Nonce b, _)
             (uint_writeUint true 8 _ _ ltac:(lia) Hnonce)). cbn [rbind].
  assert (Hitems : Forall (fun v => item_ok v /\ rlp.len (rlp.encodeItem v) < 2 ^ 64
                                    /\ rlp.len (rlp.encodeItem v) < Z.of_nat fuel)
                          (body.Reserved b)).
  { apply Forall_forall. intros v Hv. split.
    - rewrite Forall_forall in Hres. apply Hres, Hv.
    - apply list_elem_of_In in Hv.
      pose proof (concat_len_elem rlp.encodeItem _ v Hv) as Hle. fold rs in Hle. lia. }
  assert (Hrcount : Z.of_nat (length (body.Reserved b)) <= rlp.len rs).
  { apply concat_len_count. intros v _. apply encodeItem_nonempty. }
  assert (Hfuel1 : exists fuel', fuel = S fuel').
  { destruct fuel; [lia | eauto]. }
  rewrite (field_Ok _ _ (body.Reserved b, _)
             (decodeListSlice_encodeList rlp.encodeItem (rlp.decodeInterface fuel)
                _ _ fuel true _
                (fun v s' H =>
                   decodeInterface_encodeItem v fuel true s' (proj1 H)
                     (proj1 (proj2 H)) (proj2 (proj2 H)))
                ltac:(destruct Hfuel1 as [fuel' ->]; reflexivity)
                Hitems ltac:(lia) ltac:(fold rs; lia))).
  cbn [rbind].
  rewrite <- (app_nil_r (rlp.encodeString (body.Signature b))).
  rewrite (field_Ok _ _ (body.Signature b, [])
             (Bytes_encodeString true _ _ Hsig ltac:(lia))).
  cbn [rbind rlp.ListEnd].
  subst b. destruct tx as [[]]. reflexivity.
Qed.

(** C3: decoding the encoding of a well-formed transaction gives the
    transaction back, field for field: the clauses in order, absent and
    present recipients and dependency, and the reserved list, empty or
    not. *)
Theorem DecodeBytes_EncodeToBytes (tx : Transaction.t) :
  Transaction_ok tx ->
  exists bs : list Z, EncodeToBytes tx = Ok bs /\ DecodeBytes bs = Ok tx.
Proof.
  intros Hok. exists (Transaction_bytes tx).
  pose proof Hok as (_ & _ & _ & Hcs & _ & _ & _ & _ & _ & _ & Hfit).
  pose proof (EncodeToBytes_ok tx Hcs) as Henc. rewrite Henc in Hfit.
  split; [exact Henc |].
  unfold DecodeBytes, Transaction.DecodeRLP.
  pose proof (encodeList_len (Transaction_payload tx)) as Hpay.
  fold (Transaction_bytes tx) in Hpay.
  assert (HK : rlp.Kind false (Transaction_bytes tx)
               = Ok (rlp.List, rlp.len (Transaction_payload tx), 0,
                     Transaction_payload tx ++ [])).
  { unfold Transaction_bytes, rlp.encodeList.
    rewrite <- (app_nil_r (Transaction_payload tx)) at 2.
    apply Kind_list. lia. }
  rewrite HK. cbn [rbind].
  rewrite <- (app_nil_r (Transaction_bytes tx)) at 2.
  rewrite (body_decode_bytes tx _ false [] Hok)
    by (unfold rlp.len; lia).
  cbn [rbind]. destruct tx. reflexivity.
Qed.

Lemma removelast_len (l : list Z) : l <> [] -> rlp.len (removelast l) = rlp.len l - 1.
Proof.
  intros Hl. destruct (exists_last Hl) as (l' & x & ->).
  rewrite removelast_last, len_app. unfold rlp.len. cbn. lia.
Qed.

(** C9: the encoding of a well-formed transaction without its last byte
    is rejected: the list header announces more bytes than the input has
    (go-ethereum's [ErrValueTooLarge], "value size exceeds available input
    length"). *)
Theorem DecodeBytes_truncated (tx : Transaction.t) :
  Transaction_ok tx ->
  exists bs : list Z,
    EncodeToBytes tx = Ok bs /\
    DecodeBytes (removelast bs) = Err rlp_ErrValueTooLarge.
Proof.
  intros Hok. exists (Transaction_bytes tx).
  pose proof Hok as (_ & _ & _ & Hcs & _ & _ & _ & _ & _ & _ & Hfit).
  pose proof (EncodeToBytes_ok tx Hcs) as Henc. rewrite Henc in Hfit.
  split; [exact Henc |].
  pose proof (encodeList_len (Transaction_payload tx)) as Hpay.
  fold (Transaction_bytes tx) in Hpay.
  assert (Hne : Transaction_payload tx <> []).
  { unfold Transaction_payload. intros Hnil.
    apply app_eq_nil in Hnil. destruct Hnil as [Hnil _].
    pose proof (writeUint_nonempty (body.ChainTag (Transaction.body tx))) as H1.
    rewrite Hnil in H1. unfold rlp.len in H1. cbn in H1. lia. }
  unfold Transaction_bytes, rlp.encodeList.
  rewrite removelast_app by exact Hne.
  unfold DecodeBytes, Transaction.DecodeRLP, rlp.Kind.
  cbn [andb negb].
  rewrite readKind_list by (pose proof (len_nonneg (Transaction_payload tx)); lia).
  cbn [rbind]. rewrite removelast_len by exact Hne.
  destruct (Z.ltb_spec (rlp.len (Transaction_payload tx) - 1)
                       (rlp.len (Transaction_payload tx))); [reflexivity | lia].
Qed.

Ltac bytes_ok :=
  match goal with
  | |- Forall is_byte ?l =>
      let l' := eval vm_compute in l in
      change (Forall is_byte l');
      repeat (apply List.Forall_cons; [unfold is_byte; lia |]);
      apply List.Forall_nil
  end.

Lemma full_tx_ok : Transaction_ok full_tx.
Proof.
  unfold Transaction_ok, full_tx, is_uint.
  cbn [Transaction.body body.ChainTag body.BlockRef body.Expiration
       body.Clauses body.GasPriceCoef body.Gas body.DependsOn body.Nonce
       body.Reserved body.Signature].
  change (Z.shiftl 1234 32) with 5299989643264.
  repeat match goal with |- _ /\ _ => split end; try lia.
  - apply List.Forall_cons; [| apply List.Forall_cons; [| apply List.Forall_nil]];
      unfold Clause_ok, is_uint; cbn;
      repeat match goal with |- _ /\ _ => split end;
      try lia; try reflexivity; try exact I; bytes_ok.
  - cbn. split; [reflexivity | bytes_ok].
  - apply List.Forall_cons; [| apply List.Forall_cons; [| apply List.Forall_nil]];
      cbn; repeat match goal with |- _ /\ _ => split end;
      try exact I; bytes_ok.
  - cbn. bytes_ok.
  - vm_compute. reflexivity.
Qed.

(** ** The decoder's loop bound *)

Lemma bind_no_fuel {A B} (m : result A) (k : A -> result B) :
  m <> Err fuel_exhausted ->
  (forall a, m = Ok a -> k a <> Err fuel_exhausted) ->
  rbind m k <> Err fuel_exhausted.
Proof.
  intros Hm Hk. destruct m as [a | e]; cbn [rbind]; [apply Hk; reflexivity |].
  intros [= ->]. apply Hm. reflexivity.
Qed.

Ltac no_fuel :=
  first
    [ congruence
    | match goal with
      | H : _ <> Err fuel_exhausted |- _ <> Err fuel_exhausted =>
          let E := fresh in
          intros E; injection E as E; subst; apply H; reflexivity
      end ].

Ltac finish :=
  first
    [ congruence
    | no_fuel
    | intros;
      match goal with
      | H : Ok _ = Ok _ |- _ => injection H as; subst
      end;
      first [assumption | lia] ].

Lemma readByte_inv (inList : bool) (s : list Z) :
  rlp.readByte inList s <> Err fuel_exhausted /\
  forall b s', rlp.readByte inList s = Ok (b, s') -> s = b :: s'.
Proof.
  unfold rlp.readByte, rlp.overrun.
  destruct s as [| b s]; split; try congruence; destruct inList; congruence.
Qed.

Lemma readFull_inv (inList : bool) (n : Z) (s : list Z) :
  rlp.readFull inList n s <> Err fuel_exhausted /\
  forall b s', rlp.readFull inList n s = Ok (b, s') ->
               (length s' <= length s)%nat.
Proof.
  unfold rlp.readFull, rlp.overrun.
  destruct (rlp.len s <? n); split; try congruence.
  - destruct inList; congruence.
  - intros b s' [= <- <-]. rewrite length_drop. lia.
Qed.

Lemma readUint_inv (inList : bool) (size : Z) (s : list Z) :
  rlp.readUint inList size s <> Err fuel_exhausted /\
  forall v s', rlp.readUint inList size s = Ok (v, s') ->
               (length s' <= length s)%nat.
Proof.
  unfold rlp.readUint.
  destruct (size =? 0); [split; [congruence | intros v s' [= <- <-]; lia] |].
  destruct (size =? 1).
  - destruct (readByte_inv inList s) as [Hne Hok]. split; [no_fuel |].
    intros v s' H. rewrite (Hok _ _ H). cbn [length]. lia.
  - destruct (readFull_inv inList size s) as [Hne Hok].
    destruct (rlp.readFull inList size s) as [[b s1] | e]; cbn [rbind].
    + specialize (Hok b s1 eq_refl).
      destruct (nth 0 b 0 =? 0); split; congruence.
    + split; [no_fuel | congruence].
Qed.

Lemma readKind_inv (inList : bool) (s : list Z) :
  rlp.readKind inList s <> Err fuel_exhausted /\
  forall k size bv s', rlp.readKind inList s = Ok (k, size, bv, s') ->
                       (length s' < length s)%nat.
Proof.
  unfold rlp.readKind.
  destruct (readByte_inv inList s) as [Hne Hok].
  destruct (rlp.readByte inList s) as [[b s1] | e].
  - rewrite (Hok b s1 eq_refl). cbn [length].
    assert (Hsize : forall n (K : rlp.Kind_t),
               (do (size, s'') <- rlp.readUint inList n s1;
                if size <? 56 then Err rlp_ErrCanonSize
                else Ok (K, size, 0, s'')) <> Err fuel_exhausted /\
               forall k size bv s',
                 (do (size, s'') <- rlp.readUint inList n s1;
                  if size <? 56 then Err rlp_ErrCanonSize
                  else Ok (K, size, 0, s'')) = Ok (k, size, bv, s') ->
                 (length s' < S (length s1))%nat).
    { intros n K. destruct (readUint_inv inList n s1) as [Hn Ho].
      destruct (rlp.readUint inList n s1) as [[v s2] | e]; cbn [rbind].
      - specialize (Ho v s2 eq_refl).
        destruct (v <? 56); split; try congruence.
        intros k size bv s' [= <- <- <- <-]. lia.
      - split; [no_fuel | congruence]. }
    destruct (b <? 128); [split; [congruence | intros ? ? ? ? [= <- <- <- <-]; lia] |].
    destruct (b <? 184); [split; [congruence | intros ? ? ? ? [= <- <- <- <-]; lia] |].
    destruct (b <? 192); [apply Hsize |].
    destruct (b <? 248); [split; [congruence | intros ? ? ? ? [= <- <- <- <-]; lia] |].
    apply Hsize.
  - split; [| congruence].
    destruct inList; no_fuel.
Qed.

Lemma Kind_inv (inList : bool) (s : list Z) :
  rlp.Kind inList s <> Err fuel_exhausted /\
  forall k size bv s', rlp.Kind inList s = Ok (k, size, bv, s') ->
                       (length s' < length s)%nat.
Proof.
  unfold rlp.Kind.
  destruct (inList && (rlp.len s =? 0)); [split; congruence |].
  destruct (readKind_inv inList s) as [Hne Hok].
  destruct (rlp.readKind inList s) as [[[[k size] bv] s1] | e]; cbn [rbind].
  - specialize (Hok k size bv s1 eq_refl).
    destruct (rlp.len s1 <? size).
    + split; [unfold rlp.overrun; destruct inList; congruence | congruence].
    + split; [congruence | intros ? ? ? ? [= <- <- <- <-]; exact Hok].
  - split; [no_fuel | congruence].
Qed.

Lemma uint_well (maxbits : Z) (inList : bool) (s : list Z) :
  decodes_well (rlp.uint maxbits) inList s.
Proof.
  unfold decodes_well, rlp.uint.
  destruct (Kind_inv inList s) as [Hne Hok].
  destruct (rlp.Kind inList s) as [[[[k size] bv] s1] | e]; cbn [rbind];
    [| split; [no_fuel | congruence]].
  specialize (Hok k size bv s1 eq_refl). destruct k.
  - destruct (bv =? 0); split; finish.
  - destruct (maxbits / 8 <? size); [split; congruence |].
    destruct (readUint_inv inList size s1) as [Hn Ho].
    destruct (rlp.readUint inList size s1) as [[v s2] | e].
    + specialize (Ho v s2 eq_refl).
      destruct ((0 <? size) && (v <? 128)); split; finish.
    + split; [| destruct e; congruence].
      destruct e; first [congruence | no_fuel].
  - split; congruence.
Qed.

Lemma Bytes_well (inList : bool) (s : list Z) : decodes_well rlp.Bytes inList s.
Proof.
  unfold decodes_well, rlp.Bytes.
  destruct (Kind_inv inList s) as [Hne Hok].
  destruct (rlp.Kind inList s) as [[[[k size] bv] s1] | e]; cbn [rbind];
    [| split; [no_fuel | congruence]].
  specialize (Hok k size bv s1 eq_refl). destruct k.
  - split; finish.
  - destruct (readFull_inv inList size s1) as [Hn Ho].
    destruct (rlp.readFull inList size s1) as [[b s2] | e]; cbn [rbind].
    + specialize (Ho b s2 eq_refl).
      destruct ((size =? 1) && (nth 0 b 0 <? 128)); split; finish.
    + split; [no_fuel | congruence].
  - split; congruence.
Qed.

Lemma decodeByteArray_well (vlen : Z) (inList : bool) (s : list Z) :
  decodes_well (rlp.decodeByteArray vlen) inList s.
Proof.
  unfold decodes_well, rlp.decodeByteArray.
  destruct (Kind_inv inList s) as [Hne Hok].
  destruct (rlp.Kind inList s) as [[[[k size] bv] s1] | e]; cbn [rbind];
    [| split; [no_fuel | congruence]].
  specialize (Hok k size bv s1 eq_refl). destruct k.
  - destruct (vlen =? 0); [split; congruence |].
    destruct (1 <? vlen); split; finish.
  - destruct (vlen <? size); [split; congruence |].
    destruct (size <? vlen); [split; congruence |].
    destruct (readFull_inv inList size s1) as [Hn Ho].
    destruct (rlp.readFull inList size s1) as [[b s2] | e]; cbn [rbind].
    + specialize (Ho b s2 eq_refl).
      destruct ((size =? 1) && (nth 0 b 0 <? 128)); split; finish.
    + split; [no_fuel | congruence].
  - split; congruence.
Qed.

Lemma decodeBigInt_well (inList : bool) (s : list Z) :
  decodes_well rlp.decodeBigInt inList s.
Proof.
  unfold decodes_well, rlp.decodeBigInt.
  destruct (Bytes_well inList s) as [Hne Hok].
  destruct (rlp.Bytes inList s) as [[b s1] | e]; cbn [rbind];
    [| split; [no_fuel | congruence]].
  specialize (Hok b s1 eq_refl).
  destruct ((0 <? rlp.len b) && (nth 0 b 0 =? 0)); split; finish.
Qed.

Lemma optionalPtr_well {A} (elem : rlp.decoder A) (inList : bool) (s : list Z) :
  decodes_well elem inList s -> decodes_well (rlp.optionalPtr elem) inList s.
Proof.
  intros [Hne Hok]. unfold decodes_well, rlp.optionalPtr.
  destruct (Kind_inv inList s) as [HKne HKok].
  destruct (rlp.Kind inList s) as [[[[k size] bv] s1] | e];
    [| split; [no_fuel | congruence]].
  specialize (HKok k size bv s1 eq_refl).
  assert (Helem : (do (a, s'') <- elem inList s; Ok (Some a, s''))
                  <> Err fuel_exhausted /\
                  forall x s',
                    (do (a, s'') <- elem inList s; Ok (Some a, s'')) = Ok (x, s') ->
                    (length s' < length s)%nat).
  { destruct (elem inList s) as [[a s2] | e]; cbn [rbind].
    - split; [congruence |]. intros x s' [= <- <-]. apply (Hok a). reflexivity.
    - split; [no_fuel | congruence]. }
  destruct k; try exact Helem;
    (destruct (size =? 0); [| exact Helem];
     split; [congruence | intros x s' [= <- <-]; exact HKok]).
Qed.

Lemma List_inv (inList : bool) (s : list Z) :
  rlp.List_ inList s <> Err fuel_exhausted /\
  forall size payload after,
    rlp.List_ inList s = Ok (size, payload, after) ->
    (length payload < length s)%nat /\ (length after < length s)%nat.
Proof.
  unfold rlp.List_.
  destruct (Kind_inv inList s) as [Hne Hok].
  destruct (rlp.Kind inList s) as [[[[k size] bv] s1] | e]; cbn [rbind];
    [| split; [no_fuel | congruence]].
  specialize (Hok k size bv s1 eq_refl).
  destruct k; try (split; congruence).
  unfold rlp.readFull. destruct (rlp.len s1 <? size); cbn [rbind].
  - split; [unfold rlp.overrun; destruct inList; congruence | congruence].
  - split; [congruence |]. intros ? ? ? [= <- <- <-].
    rewrite length_take, length_drop. lia.
Qed.

Lemma field_inv {A} (d : rlp.decoder A) (s : list Z) :
  decodes_well d true s ->
  rlp.field d s <> Err fuel_exhausted /\
  forall x s', rlp.field d s = Ok (x, s') -> (length s' < length s)%nat.
Proof.
  intros [Hne Hok]. unfold rlp.field.
  destruct (d true s) as [[x s1] | e].
  - split; [congruence | exact Hok].
  - split; [| destruct e; congruence].
    destruct e; first [congruence | exact Hne].
Qed.

(** The element loop does not run out of fuel when the fuel exceeds the
    length of the payload. *)
Lemma decodeSliceElems_well {A} (dec : rlp.decoder A) (fuel : nat) (s : list Z) :
  (forall s0, (length s0 <= length s)%nat -> decodes_well dec true s0) ->
  (length s < fuel)%nat ->
  rlp.decodeSliceElems fuel dec s <> Err fuel_exhausted.
Proof.
  revert s. induction fuel as [| fuel IH]; intros s Hdec Hfuel; [lia |].
  cbn [rlp.decodeSliceElems].
  destruct (Hdec s (Nat.le_refl _)) as [Hne Hok].
  destruct (dec true s) as [[x s1] | e].
  - specialize (Hok x s1 eq_refl).
    apply bind_no_fuel; [| intros [xs s2] _; congruence].
    apply IH; [| lia]. intros s0 Hs0. apply Hdec. lia.
  - destruct e; first [congruence | exact Hne].
Qed.

Lemma decodeListSlice_well {A} (dec : rlp.decoder A) (fuel : nat)
  (inList : bool) (s : list Z) :
  (forall s0, (length s0 < length s)%nat -> decodes_well dec true s0) ->
  (length s <= fuel)%nat ->
  decodes_well (rlp.decodeListSlice fuel dec) inList s.
Proof.
  intros Hdec Hfuel. unfold decodes_well, rlp.decodeListSlice.
  destruct (List_inv inList s) as [Hne Hok].
  destruct (rlp.List_ inList s) as [[[size payload] after] | e]; cbn [rbind];
    [| split; [no_fuel | congruence]].
  destruct (Hok size payload after eq_refl) as [Hp Ha].
  destruct (size =? 0).
  - unfold rlp.ListEnd. destruct payload; cbn [rbind]; split; finish.
  - assert (Hloop : rlp.decodeSliceElems fuel dec payload <> Err fuel_exhausted).
    { apply decodeSliceElems_well; [| lia]. intros s0 Hs0. apply Hdec. lia. }
    destruct (rlp.decodeSliceElems fuel dec payload) as [[xs rest] | e];
      cbn [rbind]; [| split; [no_fuel | congruence]].
    unfold rlp.ListEnd. destruct rest; cbn [rbind]; split; finish.
Qed.

Lemma decodeInterface_well (fuel : nat) :
  forall (inList : bool) (s : list Z),
    (length s < fuel)%nat -> decodes_well (rlp.decodeInterface fuel) inList s.
Proof.
  induction fuel as [| fuel IH]; intros inList s Hfuel; [lia |].
  unfold decodes_well. cbn [rlp.decodeInterface].
  destruct (Kind_inv inList s) as [Hne Hok].
  destruct (rlp.Kind inList s) as [[[[k size] bv] s1] | e]; cbn [rbind];
    [| split; [no_fuel | congruence]].
  assert (Hbytes : (do (b, s') <- rlp.Bytes inList s; Ok (rlp.Str b, s'))
                   <> Err fuel_exhausted /\
                   forall x s',
                     (do (b, s') <- rlp.Bytes inList s; Ok (rlp.Str b, s'))
                     = Ok (x, s') -> (length s' < length s)%nat).
  { destruct (Bytes_well inList s) as [Hb Hbok].
    destruct (rlp.Bytes inList s) as [[b s2] | e]; cbn [rbind].
    - split; [congruence |]. intros x s' [= <- <-]. apply (Hbok b). reflexivity.
    - split; [no_fuel | congruence]. }
  destruct k; try exact Hbytes.
  destruct (decodeListSlice_well (rlp.decodeInterface fuel) fuel inList s)
    as [Hl Hlok]; [intros s0 Hs0; apply IH; lia | lia |].
  destruct (rlp.decodeListSlice fuel (rlp.decodeInterface fuel) inList s)
    as [[l s2] | e]; cbn [rbind].
  - split; [congruence |]. intros x s' [= <- <-]. apply (Hlok l). reflexivity.
  - split; [no_fuel | congruence].
Qed.

(** One field of a struct decoder: the field fails with an error other
    than lack of fuel, or leaves the rest [p'] of the payload. *)
Ltac field_step Hwell p' :=
  match goal with
  | |- context [rbind (rlp.field ?d ?p) _] =>
      let Hn := fresh "Hn" in
      let Ho := fresh "Ho" in
      let x := fresh "x" in
      destruct (field_inv d p Hwell) as [Hn Ho];
      destruct (rlp.field d p) as [[x p'] | ?]; cbn [rbind];
      [ specialize (Ho _ _ eq_refl) | split; [no_fuel | congruence] ]
  end.

Lemma clauseBody_decode_well (inList : bool) (s : list Z) :
  decodes_well clauseBody.decode inList s.
Proof.
  unfold decodes_well, clauseBody.decode.
  destruct (List_inv inList s) as [Hne Hok].
  destruct (rlp.List_ inList s) as [[[size payload] after] | e]; cbn [rbind];
    [| split; [no_fuel | congruence]].
  destruct (Hok size payload after eq_refl) as [_ Ha].
  field_step (optionalPtr_well _ true payload
                (decodeByteArray_well 20 true payload)) p1.
  field_step (decodeBigInt_well true p1) p2.
  field_step (uint_well 8 true p2) p3.
  field_step (Bytes_well true p3) p4.
  unfold rlp.ListEnd. destruct p4; cbn [rbind]; split; finish.
Qed.

Lemma Clause_DecodeRLP_well (inList : bool) (s : list Z) :
  decodes_well Clause.DecodeRLP inList s.
Proof.
  unfold decodes_well, Clause.DecodeRLP.
  destruct (clauseBody_decode_well inList s) as [Hne Hok].
  destruct (clauseBody.decode inList s) as [[b s1] | e]; cbn [rbind].
  - split; [congruence |]. intros x s' [= <- <-]. apply (Hok b). reflexivity.
  - split; [no_fuel | congruence].
Qed.

Lemma body_decode_well (fuel : nat) (inList : bool) (s : list Z) :
  (length s <= fuel)%nat -> decodes_well (body.decode fuel) inList s.
Proof.
  intros Hfuel. unfold decodes_well, body.decode.
  destruct (List_inv inList s) as [Hne Hok].
  destruct (rlp.List_ inList s) as [[[size payload] after] | e]; cbn [rbind];
    [| split; [no_fuel | congruence]].
  destruct (Hok size payload after eq_refl) as [Hp Ha].
  field_step (uint_well 8 true payload) p1.
  field_step (uint_well 64 true p1) p2.
  field_step (uint_well 32 true p2) p3.
  field_step (decodeListSlice_well Clause.DecodeRLP fuel true p3
                (fun s0 _ => Clause_DecodeRLP_well true s0) ltac:(lia)) p4.
  field_step (uint_well 8 true p4) p5.
  field_step (uint_well 64 true p5) p6.
  field_step (optionalPtr_well _ true p6 (decodeByteArray_well 32 true p6)) p7.
  field_step (uint_well 64 true p7) p8.
  field_step (decodeListSlice_well (rlp.decodeInterface fuel) fuel true p8
                (fun s0 Hs0 => decodeInterface_well fuel true s0 ltac:(lia))
                ltac:(lia)) p9.
  field_step (Bytes_well true p9) p10.
  unfold rlp.ListEnd. destruct p10; cbn [rbind]; split; finish.
Qed.

(** Decoding never stops for lack of fuel: the bound chosen by
    [DecodeBytes] is enough for every input. *)
Lemma DecodeBytes_fuel (b : list Z) : DecodeBytes b <> Err fuel_exhausted.
Proof.
  unfold DecodeBytes, Transaction.DecodeRLP.
  apply bind_no_fuel.
  - apply bind_no_fuel; [apply Kind_inv |]. intros a _.
    destruct (body_decode_well (S (length b)) false b ltac:(lia)) as [Hne _].
    apply bind_no_fuel; [exact Hne |]. intros [x s'] _. congruence.
  - intros [t rest] _. destruct rest; congruence.
Qed.

(** ** Immutability on the store *)

Lemma alloc_spec (h : heap) (o : object) :
  h !! (alloc h o).2 = None /\
  (alloc h o).1 = <[(alloc h o).2 := o]> h /\
  h ⊆ (alloc h o).1.
Proof.
  unfold alloc. cbn [fst snd].
  assert (Hfresh : h !! fresh (dom h) = None).
  { apply not_elem_of_dom. apply is_fresh. }
  repeat split; [exact Hfresh |].
  apply insert_subseteq. exact Hfresh.
Qed.

Lemma mutate_alloc (h : heap) (o o' : object) :
  h ⊆ mutate (alloc h o).1 (Some (alloc h o).2) o'.
Proof.
  destruct (alloc_spec h o) as (Hfresh & Heq & _).
  cbn [mutate]. rewrite Heq, insert_insert_eq.
  apply insert_subseteq. exact Hfresh.
Qed.

Section Monotone.

Variables h h' : heap.
Hypothesis Hsub : h ⊆ h'.

Lemma lookup_mono (l : loc) (o : object) : h !! l = Some o -> h' !! l = Some o.
Proof. intros Hl. exact (lookup_weaken _ _ _ _ Hl Hsub). Qed.

Lemma read_bytes_mono s bs : read_bytes h s = Some bs -> read_bytes h' s = Some bs.
Proof.
  unfold read_bytes. destruct s as [l |]; [| tauto].
  destruct (h !! l) as [o |] eqn:Hl; [| discriminate].
  rewrite (lookup_mono _ _ Hl). tauto.
Qed.

Lemma read_array_mono p a : read_array h p = Some a -> read_array h' p = Some a.
Proof.
  unfold read_array. destruct p as [l |]; [| tauto].
  destruct (h !! l) as [o |] eqn:Hl; [| discriminate].
  rewrite (lookup_mono _ _ Hl). tauto.
Qed.

Lemma read_int_mono p v : read_int h p = Some v -> read_int h' p = Some v.
Proof.
  unfold read_int. destruct p as [l |]; [| tauto].
  destruct (h !! l) as [o |] eqn:Hl; [| discriminate].
  rewrite (lookup_mono _ _ Hl). tauto.
Qed.

Lemma read_ptrs_mono s ps : read_ptrs h s = Some ps -> read_ptrs h' s = Some ps.
Proof.
  unfold read_ptrs. destruct s as [l |]; [| tauto].
  destruct (h !! l) as [o |] eqn:Hl; [| discriminate].
  rewrite (lookup_mono _ _ Hl). tauto.
Qed.

Lemma read_items_mono s vs : read_items h s = Some vs -> read_items h' s = Some vs.
Proof.
  unfold read_items. destruct s as [l |]; [| tauto].
  destruct (h !! l) as [o |] eqn:Hl; [| discriminate].
  rewrite (lookup_mono _ _ Hl). tauto.
Qed.

Lemma load_clause_mono c b : load_clause h c = Some b -> load_clause h' c = Some b.
Proof.
  unfold load_clause. destruct (h !! c) as [o |] eqn:Hl; [| discriminate].
  rewrite (lookup_mono _ _ Hl). tauto.
Qed.

Lemma load_tx_mono t b : load_tx h t = Some b -> load_tx h' t = Some b.
Proof.
  unfold load_tx. destruct (h !! t) as [o |] eqn:Hl; [| discriminate].
  rewrite (lookup_mono _ _ Hl). tauto.
Qed.

Lemma clause_at_mono c cv : clause_at h c = Some cv -> clause_at h' c = Some cv.
Proof.
  unfold clause_at. intros H.
  destruct (load_clause h c) as [b |] eqn:Hb; [| discriminate].
  cbn in H. rewrite (load_clause_mono _ _ Hb). cbn.
  destruct (read_array h (cell_To b)) as [to |] eqn:Hto; [| discriminate].
  cbn in H. rewrite (read_array_mono _ _ Hto). cbn.
  destruct (read_int h (cell_Value b)) as [v |] eqn:Hv; [| discriminate].
  cbn in H. rewrite (read_int_mono _ _ Hv). cbn.
  destruct (read_bytes h (cell_Data b)) as [d |] eqn:Hd; [| discriminate].
  cbn in H. rewrite (read_bytes_mono _ _ Hd). cbn. exact H.
Qed.

Lemma clauses_at_mono ps cs :
  mapM (clause_at h) ps = Some cs -> mapM (clause_at h') ps = Some cs.
Proof.
  rewrite !mapM_Some. intros H.
  eapply Forall2_impl; [exact H |]. intros c cv. apply clause_at_mono.
Qed.

Lemma read_clauses_mono s cs :
  read_clauses h s = Some cs -> read_clauses h' s = Some cs.
Proof.
  unfold read_clauses. intros H.
  destruct (read_ptrs h s) as [ps |] eqn:Hps; [| discriminate].
  cbn in H. rewrite (read_ptrs_mono _ _ Hps). cbn.
  apply clauses_at_mono, H.
Qed.

Lemma tx_at_mono t tv : tx_at h t = Some tv -> tx_at h' t = Some tv.
Proof.
  unfold tx_at. intros H.
  destruct (load_tx h t) as [b |] eqn:Hb; [| discriminate].
  cbn in H. rewrite (load_tx_mono _ _ Hb). cbn.
  destruct (read_ptrs h (cell_Clauses b)) as [ps |] eqn:Hps; [| discriminate].
  cbn in H. rewrite (read_ptrs_mono _ _ Hps). cbn.
  destruct (mapM (clause_at h) ps) as [cs |] eqn:Hcs; [| discriminate].
  cbn in H. rewrite (clauses_at_mono _ _ Hcs). cbn.
  destruct (read_array h (cell_DependsOn b)) as [d |] eqn:Hd; [| discriminate].
  cbn in H. rewrite (read_array_mono _ _ Hd). cbn.
  destruct (read_items h (cell_Reserved b)) as [r |] eqn:Hr; [| discriminate].
  cbn in H. rewrite (read_items_mono _ _ Hr). cbn.
  destruct (read_bytes h (cell_Signature b)) as [s |] eqn:Hs; [| discriminate].
  cbn in H. rewrite (read_bytes_mono _ _ Hs). cbn. exact H.
Qed.

End Monotone.

(** The copies made by the accessors and the [With...] methods. *)
Lemma copy_bytes_spec (h : heap) (s : option loc) (bs : list Z) :
  read_bytes h s = Some bs ->
  exists h' r,
    copy_bytes h s = Some (h', r) /\ is_new h r /\ h ⊆ h' /\
    (forall o, h ⊆ mutate h' r o) /\ read_bytes h' r = Some bs.
Proof.
  unfold read_bytes, copy_bytes. destruct s as [l |].
  - destruct (h !! l) as [[bs' | | | | |] |] eqn:Hl; try discriminate.
    intros [= <-]. destruct bs' as [| x bs'].
    + exists h, None. repeat split; try reflexivity; try (intros o; reflexivity).
    + destruct (alloc_spec h (OBytes (x :: bs'))) as (Hnew & Heq & Hsub).
      exists (alloc h (OBytes (x :: bs'))).1, (Some (alloc h (OBytes (x :: bs'))).2).
      repeat split; try assumption.
      * intros o. apply mutate_alloc.
      * cbn [read_bytes]. rewrite Heq, lookup_insert_eq. reflexivity.
  - intros [= <-]. exists h, None.
    repeat split; try reflexivity; try (intros o; reflexivity).
Qed.

Lemma copy_array_spec (h : heap) (p : option loc) (a : option (list Z)) :
  read_array h p = Some a ->
  exists h' r,
    copy_array h p = Some (h', r) /\ is_new h r /\ h ⊆ h' /\
    (forall o, h ⊆ mutate h' r o) /\ read_array h' r = Some a.
Proof.
  unfold read_array, copy_array. destruct p as [l |].
  - destruct (h !! l) as [[bs | | | | |] |] eqn:Hl; try discriminate.
    intros [= <-].
    destruct (alloc_spec h (OBytes bs)) as (Hnew & Heq & Hsub).
    exists (alloc h (OBytes bs)).1, (Some (alloc h (OBytes bs)).2).
    repeat split; try assumption.
    + intros o. apply mutate_alloc.
    + cbn [read_array]. rewrite Heq, lookup_insert_eq. reflexivity.
  - intros [= <-]. exists h, None.
    repeat split; try reflexivity; try (intros o; reflexivity).
Qed.

Lemma copy_int_spec (h : heap) (p : option loc) (v : Z) :
  read_int h p = Some v ->
  exists h' r,
    copy_int h p = Some (h', r) /\ is_new h r /\ h ⊆ h' /\
    (forall o, h ⊆ mutate h' r o) /\ read_int h' r = Some v.
Proof.
  unfold read_int, copy_int. destruct p as [l |]; [| discriminate].
  destruct (h !! l) as [[| v' | | | |] |] eqn:Hl; try discriminate.
  intros [= <-].
  destruct (alloc_spec h (OInt v')) as (Hnew & Heq & Hsub).
  exists (alloc h (OInt v')).1, (Some (alloc h (OInt v')).2).
  repeat split; try assumption.
  - intros o. apply mutate_alloc.
  - cbn [read_int]. rewrite Heq, lookup_insert_eq. reflexivity.
Qed.

Lemma copy_ptrs_spec (h : heap) (s : option loc) (cs : list Clause.t) :
  read_clauses h s = Some cs ->
  exists h' r,
    copy_ptrs h s = Some (h', r) /\ is_new h r /\ h ⊆ h' /\
    (forall o, h ⊆ mutate h' r o) /\ read_clauses h' r = Some cs.
Proof.
  unfold read_clauses. intros H.
  destruct (read_ptrs h s) as [ps |] eqn:Hps; [| discriminate].
  change (mapM (clause_at h) ps = Some cs) in H.
  unfold copy_ptrs. unfold read_ptrs in Hps. destruct s as [l |].
  - destruct (h !! l) as [[| | ps' | | |] |] eqn:Hl; try discriminate.
    injection Hps as ->. destruct ps as [| c ps].
    + exists h, None.
      refine (conj eq_refl (conj I (conj _ (conj _ H))));
        [reflexivity | intros o; reflexivity].
    + destruct (alloc_spec h (OPtrs (c :: ps))) as (Hnew & Heq & Hsub).
      destruct (alloc h (OPtrs (c :: ps))) as [h1 l1]. cbn [fst snd] in *.
      exists h1, (Some l1).
      refine (conj eq_refl (conj Hnew (conj Hsub (conj _ _)))).
      * intros o. cbn [mutate]. rewrite Heq, insert_insert_eq.
        apply insert_subseteq, Hnew.
      * assert (Hl1 : h1 !! l1 = Some (OPtrs (c :: ps)))
          by (rewrite Heq; apply lookup_insert_eq).
        unfold read_ptrs. rewrite Hl1.
        change (mapM (clause_at h1) (c :: ps) = Some cs).
        apply (clauses_at_mono h _ Hsub), H.
  - injection Hps as <-. exists h, None.
    refine (conj eq_refl (conj I (conj _ (conj _ H))));
      [reflexivity | intros o; reflexivity].
Qed.

Lemma clause_at_inv (h : heap) (c : loc) (cv : Clause.t) :
  clause_at h c = Some cv ->
  exists b,
    load_clause h c = Some b /\
    read_array h (cell_To b) = Some (Clause.To cv) /\
    read_int h (cell_Value b) = Some (Clause.Value cv) /\
    cell_Token b = Clause.Token cv /\
    read_bytes h (cell_Data b) = Some (Clause.Data cv).
Proof.
  unfold clause_at. intros H.
  destruct (load_clause h c) as [b |] eqn:Hb; [| discriminate]. cbn in H.
  destruct (read_array h (cell_To b)) as [to |] eqn:Hto; [| discriminate].
  cbn in H.
  destruct (read_int h (cell_Value b)) as [v |] eqn:Hv; [| discriminate].
  cbn in H.
  destruct (read_bytes h (cell_Data b)) as [d |] eqn:Hd; [| discriminate].
  cbn in H.
  injection H as <-. exists b.
  refine (conj eq_refl (conj Hto (conj Hv (conj eq_refl Hd)))).
Qed.

Lemma tx_at_inv (h : heap) (t : loc) (tv : Transaction.t) :
  tx_at h t = Some tv ->
  exists b,
    load_tx h t = Some b /\
    read_clauses h (cell_Clauses b) = Some (Transaction.Clauses tv) /\
    read_array h (cell_DependsOn b) = Some (Transaction.DependsOn tv) /\
    read_items h (cell_Reserved b) = Some (body.Reserved (Transaction.body tv)) /\
    read_bytes h (cell_Signature b) = Some (Transaction.Signature tv) /\
    tv = Transaction.mk
           (body.mk (cell_ChainTag b) (cell_BlockRef b) (cell_Expiration b)
                    (Transaction.Clauses tv) (cell_GasPriceCoef b) (cell_Gas b)
                    (Transaction.DependsOn tv) (cell_Nonce b)
                    (body.Reserved (Transaction.body tv))
                    (Transaction.Signature tv)).
Proof.
  unfold tx_at, read_clauses. intros H.
  destruct (load_tx h t) as [b |] eqn:Hb; [| discriminate]. cbn in H.
  destruct (read_ptrs h (cell_Clauses b)) as [ps |] eqn:Hps; [| discriminate].
  cbn in H.
  destruct (mapM (clause_at h) ps) as [cs |] eqn:Hcs; [| discriminate].
  cbn in H.
  destruct (read_array h (cell_DependsOn b)) as [d |] eqn:Hd; [| discriminate].
  cbn in H.
  destruct (read_items h (cell_Reserved b)) as [r |] eqn:Hr; [| discriminate].
  cbn in H.
  destruct (read_bytes h (cell_Signature b)) as [s |] eqn:Hs; [| discriminate].
  cbn in H.
  injection H as <-. exists b.
  assert (Hcl : read_ptrs h (cell_Clauses b) ≫= mapM (clause_at h) = Some cs)
    by (rewrite Hps; exact Hcs).
  refine (conj eq_refl (conj Hcl (conj Hd (conj Hr (conj Hs eq_refl))))).
Qed.

(** An accessor that copies the field it reads hands out a copy. *)
Lemma returns_copy_intro {A V : Type}
  (accessor : heap -> loc -> option (heap * option loc))
  (denote : heap -> loc -> option A)
  (read : heap -> option loc -> option V) (field : A -> V) :
  (forall h h' p a, h ⊆ h' -> denote h p = Some a -> denote h' p = Some a) ->
  (forall h p a,
      denote h p = Some a ->
      exists h' r,
        accessor h p = Some (h', r) /\ is_new h r /\ h ⊆ h' /\
        (forall o, h ⊆ mutate h' r o) /\ read h' r = Some (field a)) ->
  returns_copy accessor denote read field.
Proof.
  intros Hmono Hacc h p a Ha.
  destruct (Hacc h p a Ha) as (h' & r & Hrun & Hnew & Hsub & Hmut & Hread).
  exists h', r. repeat split; try assumption.
  - exact (Hmono _ _ _ _ Hsub Ha).
  - exact (Hmono _ _ _ _ (Hmut o) Ha).
  - destruct (Hacc _ p a (Hmono _ _ _ _ (Hmut o) Ha))
      as (h2 & r2 & Hrun2 & _ & _ & _ & Hread2).
    exists h2, r2. split; assumption.
Qed.

Lemma clause_at_intro (h : heap) (c : loc) (b : clause_cell)
  (to : option (list Z)) (v : Z) (d : list Z) :
  load_clause h c = Some b ->
  read_array h (cell_To b) = Some to ->
  read_int h (cell_Value b) = Some v ->
  read_bytes h (cell_Data b) = Some d ->
  clause_at h c = Some (Clause.mk (clauseBody.mk to v (cell_Token b) d)).
Proof.
  intros Hb Hto Hv Hd. unfold clause_at. rewrite Hb. cbn.
  rewrite Hto. cbn. rewrite Hv. cbn. rewrite Hd. reflexivity.
Qed.

Lemma load_clause_alloc (h : heap) (b : clause_cell) :
  load_clause (alloc h (OClause b)).1 (alloc h (OClause b)).2 = Some b.
Proof.
  destruct (alloc_spec h (OClause b)) as (_ & Heq & _).
  unfold load_clause. rewrite Heq, lookup_insert_eq. reflexivity.
Qed.

Lemma load_tx_alloc (h : heap) (b : tx_cell) :
  load_tx (alloc h (OTx b)).1 (alloc h (OTx b)).2 = Some b.
Proof.
  destruct (alloc_spec h (OTx b)) as (_ & Heq & _).
  unfold load_tx. rewrite Heq, lookup_insert_eq. reflexivity.
Qed.

Lemma new_below (h h1 : heap) (l : loc) : h ⊆ h1 -> h1 !! l = None -> h !! l = None.
Proof.
  intros Hsub Hl. destruct (h !! l) as [o |] eqn:Ho; [| reflexivity].
  rewrite (lookup_weaken _ _ _ _ Ho Hsub) in Hl. discriminate.
Qed.

(** A new clause struct whose fields denote the given contents. *)
Lemma alloc_clause (h h1 : heap) (c : loc) (cv : Clause.t) (b : clause_cell)
  (to : option (list Z)) (v : Z) (d : list Z) :
  h ⊆ h1 -> clause_at h c = Some cv ->
  read_array h1 (cell_To b) = Some to ->
  read_int h1 (cell_Value b) = Some v ->
  read_bytes h1 (cell_Data b) = Some d ->
  let h' := (alloc h1 (OClause b)).1 in
  let c' := (alloc h1 (OClause b)).2 in
  h !! c' = None /\ h ⊆ h' /\ clause_at h' c = Some cv /\
  clause_at h' c' = Some (Clause.mk (clauseBody.mk to v (cell_Token b) d)).
Proof.
  intros Hsub Hc Hto Hv Hd h' c'.
  destruct (alloc_spec h1 (OClause b)) as (Hnew & _ & Hsub').
  fold h' c' in Hnew, Hsub'.
  assert (Hall : h ⊆ h') by (etrans; eassumption).
  split; [exact (new_below _ _ _ Hsub Hnew) |].
  split; [exact Hall |].
  split; [exact (clause_at_mono _ _ Hall _ _ Hc) |].
  apply clause_at_intro.
  - apply load_clause_alloc.
  - exact (read_array_mono _ _ Hsub' _ _ Hto).
  - exact (read_int_mono _ _ Hsub' _ _ Hv).
  - exact (read_bytes_mono _ _ Hsub' _ _ Hd).
Qed.

Lemma WithValue_new :
  returns_new PtrClause.WithValue clause_at read_int Clause.WithValue.
Proof.
  intros h c value cv y Hc Hy.
  destruct (clause_at_inv h c cv Hc) as (b & Hb & Hto & Hv & Htok & Hd).
  destruct (copy_int_spec h value y Hy) as (h1 & v & Hcopy & _ & Hsub & _ & Hread).
  unfold PtrClause.WithValue. rewrite Hb. cbn -[alloc]. rewrite Hcopy. cbn -[alloc].
  set (b' := mk_clause_cell (cell_To b) v (cell_Token b) (cell_Data b)).
  destruct (alloc_clause h h1 c cv b' (Clause.To cv) y (Clause.Data cv) Hsub Hc
              (read_array_mono _ _ Hsub _ _ Hto) Hread
              (read_bytes_mono _ _ Hsub _ _ Hd))
    as (Hnew & Hall & Hold & Hnewv).
  exists (alloc h1 (OClause b')).1, (alloc h1 (OClause b')).2.
  split; [destruct (alloc h1 (OClause b')); reflexivity |].
  refine (conj Hnew (conj Hall (conj Hold _))).
  rewrite Hnewv. cbn [cell_Token b']. rewrite Htok.
  destruct cv as [[]]. reflexivity.
Qed.

Lemma WithData_new :
  returns_new PtrClause.WithData clause_at read_bytes Clause.WithData.
Proof.
  intros h c data cv y Hc Hy.
  destruct (clause_at_inv h c cv Hc) as (b & Hb & Hto & Hv & Htok & Hd).
  destruct (copy_bytes_spec h data y Hy) as (h1 & d & Hcopy & _ & Hsub & _ & Hread).
  unfold PtrClause.WithData. rewrite Hb. cbn -[alloc]. rewrite Hcopy. cbn -[alloc].
  set (b' := mk_clause_cell (cell_To b) (cell_Value b) (cell_Token b) d).
  destruct (alloc_clause h h1 c cv b' (Clause.To cv) (Clause.Value cv) y Hsub Hc
              (read_array_mono _ _ Hsub _ _ Hto)
              (read_int_mono _ _ Hsub _ _ Hv) Hread)
    as (Hnew & Hall & Hold & Hnewv).
  exists (alloc h1 (OClause b')).1, (alloc h1 (OClause b')).2.
  split; [destruct (alloc h1 (OClause b')); reflexivity |].
  refine (conj Hnew (conj Hall (conj Hold _))).
  rewrite Hnewv. cbn [cell_Token b']. rewrite Htok.
  destruct cv as [[]]. reflexivity.
Qed.

Lemma WithToken_new :
  returns_new PtrClause.WithToken clause_at (fun _ token => Some token)
              Clause.WithToken.
Proof.
  intros h c token cv y Hc [= <-].
  destruct (clause_at_inv h c cv Hc) as (b & Hb & Hto & Hv & Htok & Hd).
  unfold PtrClause.WithToken. rewrite Hb. cbn -[alloc].
  set (b' := mk_clause_cell (cell_To b) (cell_Value b) token (cell_Data b)).
  destruct (alloc_clause h h c cv b' (Clause.To cv) (Clause.Value cv)
              (Clause.Data cv) (reflexivity h) Hc Hto Hv Hd)
    as (Hnew & Hall & Hold & Hnewv).
  exists (alloc h (OClause b')).1, (alloc h (OClause b')).2.
  split; [destruct (alloc h (OClause b')); reflexivity |].
  refine (conj Hnew (conj Hall (conj Hold _))).
  rewrite Hnewv. destruct cv as [[]]. reflexivity.
Qed.

Lemma WithSignature_new :
  returns_new PtrTransaction.WithSignature tx_at read_bytes
              Transaction.WithSignature.
Proof.
  intros h t sig tv y Ht Hy.
  destruct (tx_at_inv h t tv Ht) as (b & Hb & Hcs & Hdep & Hres & Hsig & Htv).
  destruct (copy_bytes_spec h sig y Hy) as (h1 & s & Hcopy & _ & Hsub & _ & Hread).
  unfold PtrTransaction.WithSignature. rewrite Hb. cbn -[alloc].
  rewrite Hcopy. cbn -[alloc].
  match goal with |- context [alloc h1 (OTx ?c)] => set (b' := c) end.
  destruct (alloc_spec h1 (OTx b')) as (Hnew & _ & Hsub').
  pose proof (load_tx_alloc h1 b') as Hload.
  destruct (alloc h1 (OTx b')) as [h' t']. cbn [fst snd] in *.
  assert (Hall : h ⊆ h') by (etrans; eassumption).
  exists h', t'.
  refine (conj eq_refl (conj (new_below _ _ _ Hsub Hnew) (conj Hall
            (conj (tx_at_mono _ _ Hall _ _ Ht) _)))).
  unfold tx_at. rewrite Hload. cbn.
  unfold read_clauses in Hcs.
  destruct (read_ptrs h (cell_Clauses b)) as [ps |] eqn:Hps; [| discriminate].
  change (mapM (clause_at h) ps = Some (Transaction.Clauses tv)) in Hcs.
  rewrite (read_ptrs_mono _ _ Hall _ _ Hps). cbn.
  rewrite (clauses_at_mono _ _ Hall _ _ Hcs). cbn.
  rewrite (read_array_mono _ _ Hall _ _ Hdep). cbn.
  rewrite (read_items_mono _ _ Hall _ _ Hres). cbn.
  rewrite (read_bytes_mono _ _ Hsub' _ _ Hread). cbn.
  clear -Htv. destruct tv as [[ct br ex cl gp g dp nn rs sg]].
  cbn in Htv. injection Htv as -> -> -> -> -> ->. reflexivity.
Qed.

Lemma clause_at_weaken (h h' : heap) (p : loc) (a : Clause.t) :
  h ⊆ h' -> clause_at h p = Some a -> clause_at h' p = Some a.
Proof. intros Hsub. apply clause_at_mono, Hsub. Qed.

Lemma tx_at_weaken (h h' : heap) (p : loc) (a : Transaction.t) :
  h ⊆ h' -> tx_at h p = Some a -> tx_at h' p = Some a.
Proof. intros Hsub. apply tx_at_mono, Hsub. Qed.

(** New values and new buffers: [WithValue], [WithData], [WithToken] and
    [WithSignature] return a pointer that was not in use, denoting the
    updated value; they change no object of the store, so the receiver
    denotes what it denoted.  [To], [Value], [Data], [Clauses],
    [DependsOn] and [Signature] return a new buffer with the field's
    contents; overwriting that buffer in any way changes neither what the
    receiver denotes nor what the accessor returns afterwards.  For
    [Clauses] the buffer is the slice of pointers, not the clauses behind
    them. *)
Theorem immutable_values :
  returns_new PtrClause.WithValue clause_at read_int Clause.WithValue /\
  returns_new PtrClause.WithData clause_at read_bytes Clause.WithData /\
  returns_new PtrClause.WithToken clause_at (fun _ token => Some token)
              Clause.WithToken /\
  returns_new PtrTransaction.WithSignature tx_at read_bytes
              Transaction.WithSignature /\
  returns_copy PtrClause.To clause_at read_array Clause.To /\
  returns_copy PtrClause.Value clause_at read_int Clause.Value /\
  returns_copy PtrClause.Data clause_at read_bytes Clause.Data /\
  returns_copy PtrTransaction.Clauses tx_at read_clauses Transaction.Clauses /\
  returns_copy PtrTransaction.DependsOn tx_at read_array Transaction.DependsOn /\
  returns_copy PtrTransaction.Signature tx_at read_bytes Transaction.Signature.
Proof.
  split; [exact WithValue_new |]. split; [exact WithData_new |].
  split; [exact WithToken_new |]. split; [exact WithSignature_new |].
  repeat split; apply returns_copy_intro;
    try exact clause_at_weaken; try exact tx_at_weaken.
  - intros h c cv Hc.
    destruct (clause_at_inv h c cv Hc) as (b & Hb & Hto & _).
    unfold PtrClause.To. rewrite Hb. apply copy_array_spec, Hto.
  - intros h c cv Hc.
    destruct (clause_at_inv h c cv Hc) as (b & Hb & _ & Hv & _).
    unfold PtrClause.Value. rewrite Hb. apply copy_int_spec, Hv.
  - intros h c cv Hc.
    destruct (clause_at_inv h c cv Hc) as (b & Hb & _ & _ & _ & Hd).
    unfold PtrClause.Data. rewrite Hb. apply copy_bytes_spec, Hd.
  - intros h t tv Ht.
    destruct (tx_at_inv h t tv Ht) as (b & Hb & Hcs & _).
    unfold PtrTransaction.Clauses. rewrite Hb. apply copy_ptrs_spec, Hcs.
  - intros h t tv Ht.
    destruct (tx_at_inv h t tv Ht) as (b & Hb & _ & Hdep & _).
    unfold PtrTransaction.DependsOn. rewrite Hb. apply copy_array_spec, Hdep.
  - intros h t tv Ht.
    destruct (tx_at_inv h t tv Ht) as (b & Hb & _ & _ & _ & Hsig & _).
    unfold PtrTransaction.Signature. rewrite Hb. apply copy_bytes_spec, Hsig.
Qed.

Lemma immutable_values_witness :
  exists (h' : heap) (r : option loc),
    PtrClause.To sample_heap 2%nat = Some (h', r) /\
    read_array h' r = Some (Clause.To sample_clause) /\
    clause_at (mutate h' r (OBytes (repeat 255 20))) 2%nat = Some sample_clause.
Proof.
  destruct immutable_values as (_ & _ & _ & _ & HTo & _).
  destruct (HTo sample_heap 2%nat sample_clause)
    as (h' & r & Hrun & _ & _ & Hread & _ & Hmut).
  - vm_compute. reflexivity.
  - exists h', r. split; [exact Hrun |]. split; [exact Hread |].
    destruct (Hmut (OBytes (repeat 255 20))) as [Hsame _]. exact Hsame.
Defined.

(** The slice [Clauses] returns is new, the clauses it points to are the
    transaction's own: writing through one of the returned pointers (as
    [Clause.DecodeRLP] does with its receiver) changes what the
    transaction denotes. *)
Lemma Clauses_shares_clauses :
  exists (h' : heap) (r : loc),
    PtrTransaction.Clauses sample_heap 4%nat = Some (h', Some r) /\
    r <> 3%nat /\
    read_ptrs h' (Some r) = Some [2%nat] /\
    read_ptrs h' (Some 3%nat) = Some [2%nat] /\
    tx_at h' 4%nat = Some sample_tx /\
    tx_at (mutate h' (Some 2%nat)
                  (OClause (mk_clause_cell None (Some 1%nat) MeterGovToken None)))
          4%nat
    <> Some sample_tx.
Proof.
  eexists _, _. split; [vm_compute; reflexivity |].
  repeat split; vm_compute; congruence.
Qed.

Lemma GasPrice_formula_witness :
  Transaction.GasPrice full_tx 100 = 200 /\ Transaction.GasPrice sample_tx 100 = 150.
Proof.
  destruct GasPrice_formula as (Hgen & H255 & _). split.
  - apply H255. reflexivity.
  - rewrite Hgen. reflexivity.
Defined.

Lemma SigningHash_excludes_signature_witness :
  @Transaction.SigningHash sample_crypto zero_signed_tx
  = @Transaction.SigningHash sample_crypto sample_tx /\
  Transaction.EncodeRLP zero_signed_tx
  = match Transaction.signingInput sample_tx with
    | Ok (_ :: nine) =>
        Ok (rlp.encodeList (nine ++ rlp.encodeString (repeat 0 65)))
    | _ => Err fuel_exhausted
    end.
Proof.
  destruct (@SigningHash_excludes_signature sample_crypto sample_tx (repeat 0 65))
    as (Hhash & Hfields).
  split; [exact Hhash |].
  destruct (Hfields (concat (map Clause_bytes [sample_clause])))
    as (_ & _ & Henc).
  - vm_compute. reflexivity.
  - unfold zero_signed_tx. rewrite Henc. vm_compute. reflexivity.
Defined.

Lemma DecodeBytes_EncodeToBytes_witness :
  exists bs : list Z,
    EncodeToBytes full_tx = Ok bs /\ DecodeBytes bs = Ok full_tx.
Proof. apply (DecodeBytes_EncodeToBytes full_tx). exact full_tx_ok. Defined.

Lemma DecodeBytes_truncated_witness :
  exists bs : list Z,
    EncodeToBytes full_tx = Ok bs /\
    DecodeBytes (removelast bs) = Err rlp_ErrValueTooLarge.
Proof. apply (DecodeBytes_truncated full_tx). exact full_tx_ok. Defined.

(** * Further properties *)

(** ** Printing identifiers *)

Lemma hexdigit_digit (v : Z) :
  0 <= v < 16 ->
  hex.fromHexChar (Z.of_nat (nat_of_ascii (hex.hexdigit v))) = Some v.
Proof.
  intros Hv.
  assert (Hn : v = Z.of_nat (Z.to_nat v)) by lia.
  assert (Hlt : (Z.to_nat v < 16)%nat) by lia.
  revert Hn Hlt. generalize (Z.to_nat v) as n. intros n -> Hlt.
  do 16 (destruct n as [| n]; [reflexivity |]). lia.
Qed.

Lemma byte_digits (v : Z) :
  is_byte v ->
  0 <= Z.shiftr v 4 < 16 /\ 0 <= Z.land v 15 < 16 /\
  16 * Z.shiftr v 4 + Z.land v 15 = v.
Proof.
  unfold is_byte. intros Hv.
  rewrite Z.shiftr_div_pow2 by lia.
  change 15 with (Z.ones 4). rewrite Z.land_ones by lia.
  change (2 ^ 4) with 16.
  pose proof (Z.div_mod v 16 ltac:(lia)).
  pose proof (Z.mod_pos_bound v 16 ltac:(lia)).
  assert (0 <= v / 16) by (apply Z.div_pos; lia).
  assert (v / 16 < 16) by (apply Z.div_lt_upper_bound; lia).
  lia.
Qed.

Lemma EncodeToString_length (a : list Z) :
  String.length (hex.EncodeToString a) = (2 * length a)%nat.
Proof.
  induction a as [| v a IH]; [reflexivity |].
  cbn [hex.EncodeToString String.length length]. rewrite IH. lia.
Qed.

Lemma bytes_of_string_cons (c : ascii) (s : string) :
  bytes_of_string (String c s) = Z.of_nat (nat_of_ascii c) :: bytes_of_string s.
Proof. reflexivity. Qed.

(** The digits [hex.EncodeToString] writes are hex digits, and they
    denote the bytes they were written for. *)
Lemma EncodeToString_digits (a : list Z) :
  Forall is_byte a ->
  first_non_hex (hex.EncodeToString a) = None /\
  hex_value (bytes_of_string (hex.EncodeToString a)) = a.
Proof.
  unfold first_non_hex.
  induction 1 as [| v a Hv Ha [IHf IHv]]; [split; reflexivity |].
  destruct (byte_digits v Hv) as (Hhi & Hlo & Hsum).
  cbn [hex.EncodeToString]. rewrite !bytes_of_string_cons.
  cbn [find hex_value]. unfold is_hex_digit, hex_digit_value.
  rewrite (hexdigit_digit _ Hhi), (hexdigit_digit _ Hlo). cbn [negb].
  split; [exact IHf |]. rewrite IHv, Hsum. reflexivity.
Qed.

(** Parsing what [String] prints gives the value back, by byte width. *)
Lemma parseFixed_String (w : nat) (a : list Z) :
  length a = w -> Forall is_byte a ->
  parseFixed w (meter.String a) = (a, None) /\
  parseFixed w (hex.EncodeToString a) = (a, None).
Proof.
  intros Hlen Ha.
  assert (Hl : String.length (hex.EncodeToString a) = (2 * w)%nat)
    by (rewrite EncodeToString_length, Hlen; reflexivity).
  destruct (EncodeToString_digits a Ha) as [Hf Hv].
  assert (Hbare : parseFixed w (hex.EncodeToString a) = (a, None)).
  { pose proof (parseFixed_cases w (hex.EncodeToString a)) as Hc.
    cbv zeta in Hc. rewrite Hf, Hv in Hc.
    destruct Hc as [(_ & _ & Heq) | [(_ & c & Hc & _) | [(Hn & _)
      | [(Hn & _) | [(Hn & _) | (Hn & _)]]]]];
      first [exact Heq | discriminate Hc | lia]. }
  split; [| exact Hbare].
  unfold meter.String. rewrite <- Hbare.
  apply parseFixed_prefixed; [exact Hl | reflexivity | reflexivity].
Qed.

(** X1: [ParseAddress] and [ParseBytes32] read back what [String] prints:
    for a value of the type (20 or 32 bytes) the printed form parses,
    without error, to the value itself, so the panicking variants return
    it as well; the digits without the [0x] prefix parse to the same
    value. *)
Theorem Parse_String (a : list Z) :
  Forall is_byte a ->
  (length a = meter.AddressLength ->
   meter.ParseAddress (meter.String a) = (a, None) /\
   meter.MustParseAddress (meter.String a) = Returns a /\
   meter.ParseAddress (hex.EncodeToString a) = (a, None)) /\
  (length a = 32%nat ->
   meter.ParseBytes32 (meter.String a) = (a, None) /\
   meter.MustParseBytes32 (meter.String a) = Returns a /\
   meter.ParseBytes32 (hex.EncodeToString a) = (a, None)).
Proof.
  intros Ha. split; intros Hlen.
  - destruct (parseFixed_String 20 a Hlen Ha) as [Hp Hb].
    change (parseFixed 20) with meter.ParseAddress in Hp, Hb.
    unfold meter.MustParseAddress. rewrite Hp. auto.
  - destruct (parseFixed_String 32 a Hlen Ha) as [Hp Hb].
    change (parseFixed 32) with meter.ParseBytes32 in Hp, Hb.
    unfold meter.MustParseBytes32. rewrite Hp. auto.
Qed.

Lemma hexdigit_lower (c : ascii) :
  is_hex_digit (Z.of_nat (nat_of_ascii c)) = true ->
  hex.hexdigit (hex_digit_value (Z.of_nat (nat_of_ascii c)))
  = strings.lower_byte c.
Proof.
  destruct c as [[] [] [] [] [] [] [] []]; vm_compute;
    first [discriminate | reflexivity].
Qed.

Lemma digits_byte (p q : Z) :
  0 <= p < 16 -> 0 <= q < 16 ->
  Z.shiftr (16 * p + q) 4 = p /\ Z.land (16 * p + q) 15 = q.
Proof.
  intros Hp Hq.
  rewrite Z.shiftr_div_pow2 by lia.
  change 15 with (Z.ones 4). rewrite Z.land_ones by lia.
  change (2 ^ 4) with 16. split.
  - symmetry. apply (Z.div_unique (16 * p + q) 16 p q); lia.
  - symmetry. apply (Z.mod_unique (16 * p + q) 16 p q); lia.
Qed.

(** Printing the bytes a string of hex digits denotes gives the digits in
    lower case. *)
Lemma EncodeToString_hex_value (w : nat) (d : string) :
  String.length d = (2 * w)%nat -> first_non_hex d = None ->
  hex.EncodeToString (hex_value (bytes_of_string d)) = strings.ToLower d.
Proof.
  unfold first_non_hex. revert d.
  induction w as [| w IH]; intros d Hlen Hf.
  - destruct d; [reflexivity | discriminate Hlen].
  - destruct d as [| p [| q d]]; cbn [String.length] in Hlen; try lia.
    rewrite !bytes_of_string_cons in *. cbn [find] in Hf.
    destruct (is_hex_digit (Z.of_nat (nat_of_ascii p))) eqn:Hp;
      cbn [negb] in Hf; [| discriminate Hf].
    destruct (is_hex_digit (Z.of_nat (nat_of_ascii q))) eqn:Hq;
      cbn [negb] in Hf; [| discriminate Hf].
    cbn [hex_value hex.EncodeToString strings.ToLower].
    destruct (digits_byte (hex_digit_value (Z.of_nat (nat_of_ascii p)))
                          (hex_digit_value (Z.of_nat (nat_of_ascii q))))
      as [Hhi Hlo];
      try (eapply fromHexChar_range, is_hex_digit_value; eassumption).
    rewrite Hhi, Hlo, (hexdigit_lower _ Hp), (hexdigit_lower _ Hq).
    rewrite IH; [reflexivity | lia | exact Hf].
Qed.

Lemma parseFixed_canonical (w : nat) (s : string) (a : list Z) :
  parseFixed w s = (a, None) ->
  meter.String a
  = String.append "0x"
      (strings.ToLower (substring (String.length s - 2 * w) (2 * w) s)).
Proof.
  intros Hparse. unfold meter.String. f_equal.
  pose proof (parseFixed_cases w s) as Hc. cbv zeta in Hc.
  rewrite Hparse in Hc.
  destruct Hc as [(Hn & Hf & Heq) | [(_ & c & _ & Heq) | [(_ & _ & Heq)
    | [(Hn & _ & Hf & Heq) | [(_ & _ & c & _ & Heq) | (_ & _ & Heq)]]]]];
    try discriminate Heq; injection Heq as ->.
  - rewrite Hn, Nat.sub_diag, <- Hn, substring_0_length.
    apply (EncodeToString_hex_value w); assumption.
  - replace (String.length s - 2 * w)%nat with 2%nat by lia.
    apply (EncodeToString_hex_value w); [| exact Hf].
    apply substring_length_le. lia.
Qed.

(** X2: the printed form of a parsed value is canonical: when
    [ParseAddress] or [ParseBytes32] accept a string, [String] prints the
    result as [0x] followed by the digits of the input in lower case,
    whatever the case of the input and whether or not it had a prefix. *)
Theorem String_Parse (s : string) (a : list Z) :
  (meter.ParseAddress s = (a, None) ->
   meter.String a
   = String.append "0x"
       (strings.ToLower (substring (String.length s - 40) 40 s))) /\
  (meter.ParseBytes32 s = (a, None) ->
   meter.String a
   = String.append "0x"
       (strings.ToLower (substring (String.length s - 64) 64 s))).
Proof.
  split; intros Hparse.
  - exact (parseFixed_canonical 20 s a Hparse).
  - exact (parseFixed_canonical 32 s a Hparse).
Qed.

Lemma Parse_String_witness :
  meter.MustParseAddress "0xf3dd5c55b96889369f714143f213403464a268a6"
  = Returns [243; 221; 92; 85; 185; 104; 137; 54; 159; 113;
             65; 67; 242; 19; 64; 52; 100; 162; 104; 166] /\
  meter.ParseBytes32 (meter.String (repeat 171 32)) = (repeat 171 32, None).
Proof.
  assert (Hto : Forall is_byte [243; 221; 92; 85; 185; 104; 137; 54; 159; 113;
                                65; 67; 242; 19; 64; 52; 100; 162; 104; 166])
    by bytes_ok.
  assert (H32 : Forall is_byte (repeat 171 32)) by bytes_ok.
  split.
  - destruct (Parse_String _ Hto) as [Haddr _].
    destruct (Haddr eq_refl) as (_ & Hmust & _). exact Hmust.
  - destruct (Parse_String _ H32) as [_ Hb32].
    destruct (Hb32 eq_refl) as (Hparse & _). exact Hparse.
Defined.

Lemma String_Parse_witness :
  meter.String (repeat 171 20)
  = "0xabababababababababababababababababababab"%string.
Proof.
  destruct (String_Parse "0XABabABabABabABabABabABabABabABabABabABab"
                         (repeat 171 20)) as [Haddr _].
  rewrite Haddr; reflexivity.
Defined.

(** ** Gas price and expiry *)

(** X3: for a coefficient in the range of its type and a base price that
    is not negative, the gas price lies between the base price and twice
    the base price; it is the base price at coefficient 0 and twice the
    base price at coefficient 255, and it grows with the coefficient and
    with the base price. *)
Theorem GasPrice_bounds (tx : Transaction.t) (b : Z) :
  is_uint 8 (Transaction.GasPriceCoef tx) -> 0 <= b ->
  b <= Transaction.GasPrice tx b <= 2 * b /\
  (Transaction.GasPriceCoef tx = 0 -> Transaction.GasPrice tx b = b) /\
  (Transaction.GasPriceCoef tx = 255 -> Transaction.GasPrice tx b = 2 * b) /\
  (forall (tx' : Transaction.t) (b' : Z),
      Transaction.GasPriceCoef tx <= Transaction.GasPriceCoef tx' ->
      b <= b' ->
      Transaction.GasPrice tx b <= Transaction.GasPrice tx' b').
Proof.
  unfold is_uint. change (2 ^ 8) with 256. intros Hc Hb.
  assert (Hgen : forall t x, Transaction.GasPrice t x
                             = Transaction.GasPriceCoef t * x / 255 + x).
  { intros t x.
    unfold Transaction.GasPrice, Transaction.GasPriceCoef, big.Add, big.Div,
      big.Mul, big.NewInt, MaxUint8.
    change (Z.sgn 255) with 1. change (Z.abs 255) with 255. lia. }
  rewrite !Hgen. set (c := Transaction.GasPriceCoef tx) in *.
  assert (Hlo : 0 <= c * b / 255) by (apply Z.div_pos; nia).
  assert (Hhi : c * b / 255 <= b).
  { apply Z.div_le_upper_bound; nia. }
  split; [lia |]. split; [| split].
  - intros ->. rewrite Z.mul_0_l, Z.div_0_l by lia. lia.
  - intros ->. rewrite Z.mul_comm, Z.div_mul by lia. lia.
  - intros tx' b' Hc' Hb'. rewrite Hgen.
    assert (c * b / 255 <= Transaction.GasPriceCoef tx' * b' / 255)
      by (apply Z.div_le_mono; nia).
    lia.
Qed.

Lemma GasPrice_bounds_witness :
  100 <= Transaction.GasPrice sample_tx 100 <= 200.
Proof.
  refine (proj1 (GasPrice_bounds sample_tx 100 _ _)).
  - unfold is_uint. vm_compute. split; [discriminate | reflexivity].
  - lia.
Defined.

Lemma be_bytes_drop (n m : nat) (v : Z) :
  drop n (binary.be_bytes (n + m) v) = binary.be_bytes m v.
Proof. induction n as [| n IH]; [reflexivity | exact IH]. Qed.

(** X4: [BlockRef] returns the eight big-endian bytes of the packed
    block reference: their value is the field, the first four are the
    height (the upper half of the field), the last four its lower half;
    two transactions return the same bytes only if the fields are
    equal. *)
Theorem BlockRef_bytes (tx : Transaction.t) :
  is_uint 64 (body.BlockRef (Transaction.body tx)) ->
  length (Transaction.BlockRef tx) = 8%nat /\
  Forall is_byte (Transaction.BlockRef tx) /\
  binary.be_value (Transaction.BlockRef tx)
  = body.BlockRef (Transaction.body tx) /\
  BlockRef.Number (Transaction.BlockRef tx)
  = body.BlockRef (Transaction.body tx) / 2 ^ 32 /\
  binary.be_value (drop 4 (Transaction.BlockRef tx))
  = body.BlockRef (Transaction.body tx) mod 2 ^ 32 /\
  (forall tx' : Transaction.t,
      is_uint 64 (body.BlockRef (Transaction.body tx')) ->
      Transaction.BlockRef tx' = Transaction.BlockRef tx ->
      body.BlockRef (Transaction.body tx')
      = body.BlockRef (Transaction.body tx)).
Proof.
  unfold is_uint. intros Hr.
  assert (Hval : forall t : Transaction.t,
             0 <= body.BlockRef (Transaction.body t) < 2 ^ 64 ->
             binary.be_value (Transaction.BlockRef t)
             = body.BlockRef (Transaction.body t)).
  { intros t Ht. unfold Transaction.BlockRef, binary.BigEndian_PutUint64.
    rewrite be_value_be_bytes by lia. apply Z.mod_small. exact Ht. }
  split; [apply be_bytes_length |].
  split; [apply be_bytes_is_byte |].
  split; [apply Hval, Hr |].
  split; [apply BlockRef_Number, Hr |].
  split.
  - unfold Transaction.BlockRef, binary.BigEndian_PutUint64.
    rewrite (be_bytes_drop 4 4), be_value_be_bytes by lia. reflexivity.
  - intros tx' Hr' Heq. rewrite <- (Hval tx' Hr'), Heq. apply Hval, Hr.
Qed.

Lemma BlockRef_bytes_witness :
  Transaction.BlockRef sample_tx = [0; 0; 4; 210; 0; 0; 0; 0] /\
  BlockRef.Number (Transaction.BlockRef sample_tx) = 1234.
Proof.
  assert (Hr : is_uint 64 (body.BlockRef (Transaction.body sample_tx))).
  { unfold is_uint. vm_compute. split; [discriminate | reflexivity]. }
  destruct (BlockRef_bytes sample_tx Hr) as (_ & _ & _ & Hnum & _).
  split; [reflexivity |]. rewrite Hnum. reflexivity.
Defined.

(** X5: expiry looks at the height and the expiration only.  A
    transaction expired at a block is expired at every later block; it is
    not expired at its reference height or before; and two transactions
    whose block references have the same first four bytes and whose
    expirations are equal are expired at the same blocks. *)
Theorem IsExpired_window (tx : Transaction.t) :
  is_uint 64 (body.BlockRef (Transaction.body tx)) ->
  is_uint 32 (Transaction.Expiration tx) ->
  (forall N N' : Z,
      N <= N' -> Transaction.IsExpired tx N = true ->
      Transaction.IsExpired tx N' = true) /\
  (forall N : Z,
      N <= BlockRef.Number (Transaction.BlockRef tx) ->
      Transaction.IsExpired tx N = false) /\
  (forall tx' : Transaction.t,
      take 4 (Transaction.BlockRef tx') = take 4 (Transaction.BlockRef tx) ->
      Transaction.Expiration tx' = Transaction.Expiration tx ->
      forall N : Z, Transaction.IsExpired tx' N = Transaction.IsExpired tx N).
Proof.
  unfold is_uint, Transaction.Expiration. intros Hr He.
  pose proof (BlockRef_Number tx Hr) as Hnum.
  assert (HH : 0 <= BlockRef.Number (Transaction.BlockRef tx) < 2 ^ 32).
  { rewrite Hnum. split.
    - apply Z.div_pos; lia.
    - apply Z.div_lt_upper_bound; [lia |].
      change (2 ^ 32 * 2 ^ 32) with (2 ^ 64). lia. }
  assert (Hsum : forall N, Transaction.IsExpired tx N
                 = (BlockRef.Number (Transaction.BlockRef tx)
                    + body.Expiration (Transaction.body tx) <? N)).
  { intros N. unfold Transaction.IsExpired. rewrite Z.mod_small; [reflexivity |].
    change (2 ^ 64) with (2 ^ 32 * 2 ^ 32). lia. }
  split; [| split].
  - intros N N' Hle. rewrite !Hsum, !Z.ltb_lt. lia.
  - intros N Hle. rewrite Hsum. apply Z.ltb_ge. lia.
  - intros tx' Hhead Hexp N.
    unfold Transaction.IsExpired, BlockRef.Number, binary.BigEndian_Uint32.
    rewrite Hhead, Hexp. reflexivity.
Qed.

Lemma IsExpired_window_witness :
  Transaction.IsExpired sample_tx 1234 = false.
Proof.
  assert (Hr : is_uint 64 (body.BlockRef (Transaction.body sample_tx))).
  { unfold is_uint. vm_compute. split; [discriminate | reflexivity]. }
  assert (He : is_uint 32 (Transaction.Expiration sample_tx)).
  { unfold is_uint. vm_compute. split; [discriminate | reflexivity]. }
  destruct (IsExpired_window sample_tx Hr He) as (_ & Hbefore & _).
  apply Hbefore. vm_compute. discriminate.
Defined.

(** ** The wire format: more of the decoder *)

Lemma Transaction_ok_fits (tx : Transaction.t) :
  Transaction_ok tx ->
  EncodeToBytes tx = Ok (Transaction_bytes tx) /\
  rlp.len (Transaction_payload tx) < rlp.len (Transaction_bytes tx) /\
  rlp.len (Transaction_bytes tx) < 2 ^ 64.
Proof.
  intros Hok.
  pose proof Hok as (_ & _ & _ & Hcs & _ & _ & _ & _ & _ & _ & Hfit).
  pose proof (EncodeToBytes_ok tx Hcs) as Henc. rewrite Henc in Hfit.
  pose proof (encodeList_len (Transaction_payload tx)) as Hpay.
  fold (Transaction_bytes tx) in Hpay.
  split; [exact Henc |]. lia.
Qed.

(** [Transaction.DecodeRLP] reads a well-formed transaction from the
    front of a stream and leaves what follows it. *)
Lemma DecodeRLP_Transaction_bytes (tx : Transaction.t) (fuel : nat)
  (inList : bool) (s : list Z) :
  Transaction_ok tx ->
  rlp.len (Transaction_bytes tx) < Z.of_nat fuel ->
  Transaction.DecodeRLP fuel inList (Transaction_bytes tx ++ s) = Ok (tx, s).
Proof.
  intros Hok Hfuel.
  destruct (Transaction_ok_fits tx Hok) as (_ & Hpay & Hfit).
  unfold Transaction.DecodeRLP.
  assert (HK : rlp.Kind inList (Transaction_bytes tx ++ s)
               = Ok (rlp.List, rlp.len (Transaction_payload tx), 0,
                     Transaction_payload tx ++ s)).
  { unfold Transaction_bytes, rlp.encodeList. rewrite <- app_assoc.
    apply Kind_list. lia. }
  rewrite HK. cbn [rbind].
  rewrite (body_decode_bytes tx fuel inList s Hok Hfuel). cbn [rbind].
  destruct tx. reflexivity.
Qed.

Lemma DecodeBytes_Transaction_bytes (tx : Transaction.t) :
  Transaction_ok tx -> DecodeBytes (Transaction_bytes tx) = Ok tx.
Proof.
  intros Hok. unfold DecodeBytes.
  rewrite <- (app_nil_r (Transaction_bytes tx)) at 2.
  rewrite (DecodeRLP_Transaction_bytes tx _ false [] Hok)
    by (unfold rlp.len; lia).
  reflexivity.
Qed.

(** X6: bytes after the encoding.  [Transaction.DecodeRLP] reads a
    well-formed transaction from the front of a stream and leaves the
    bytes that follow unread, inside a list or at top level;
    [rlp.DecodeBytes], which wants one value, rejects the same input with
    [ErrMoreThanOneValue] as soon as one byte follows. *)
Theorem DecodeBytes_trailing (tx : Transaction.t) (extra : list Z) :
  Transaction_ok tx -> extra <> [] ->
  exists bs : list Z,
    EncodeToBytes tx = Ok bs /\
    DecodeBytes (bs ++ extra) = Err rlp_ErrMoreThanOneValue /\
    forall (inList : bool) (fuel : nat),
      (length bs < fuel)%nat ->
      Transaction.DecodeRLP fuel inList (bs ++ extra) = Ok (tx, extra).
Proof.
  intros Hok Hextra. exists (Transaction_bytes tx).
  destruct (Transaction_ok_fits tx Hok) as (Henc & _).
  split; [exact Henc |]. split.
  - unfold DecodeBytes.
    rewrite (DecodeRLP_Transaction_bytes tx _ false extra Hok)
      by (unfold rlp.len; rewrite length_app; lia).
    cbn [rbind]. destruct extra; [contradiction | reflexivity].
  - intros inList fuel Hfuel.
    apply DecodeRLP_Transaction_bytes; [exact Hok | unfold rlp.len; lia].
Qed.

Lemma DecodeBytes_trailing_witness :
  exists bs : list Z,
    EncodeToBytes full_tx = Ok bs /\
    DecodeBytes (bs ++ [0]) = Err rlp_ErrMoreThanOneValue.
Proof.
  destruct (DecodeBytes_trailing full_tx [0] full_tx_ok) as (bs & Henc & Hdec & _).
  - discriminate.
  - exists bs. split; [exact Henc | exact Hdec].
Defined.

(** A cut inside the size bytes of a list header. *)
Lemma Kind_cut_header (n : Z) (k : nat) (p : list Z) :
  0 <= n < 2 ^ 64 ->
  (1 <= k < length (rlp.listHeader n))%nat ->
  rlp.Kind false (take k (rlp.listHeader n ++ p)) = Err rlp_ErrValueTooLarge.
Proof.
  intros Hn. unfold rlp.listHeader, rlp.puthead.
  destruct (Z.ltb_spec n 56) as [Hs | Hl]; [cbn [length]; lia |].
  destruct (putint_ok n Hn) as [_ Hlen _ _ _ _].
  set (sb := rlp.putint n) in *.
  assert (Hlen' : 1 <= rlp.len sb <= 8) by (unfold rlp.len; lia).
  cbn [length app]. intros Hk.
  destruct k as [| k]; [lia |]. cbn [take].
  rewrite take_app_le by lia.
  assert (Hshort : rlp.len (take k sb) < rlp.len sb).
  { unfold rlp.len. rewrite length_take. lia. }
  unfold rlp.Kind. cbn [andb rlp.readKind rlp.readByte]. ltb_cases.
  replace (247 + rlp.len sb - 247) with (rlp.len sb) by lia.
  unfold rlp.readUint. ltb_cases.
  - assert (Hk0 : k = 0%nat) by (unfold rlp.len in *; lia).
    subst k. reflexivity.
  - unfold rlp.readFull. ltb_cases. reflexivity.
Qed.

(** X7: no proper prefix of the encoding of a well-formed transaction
    decodes.  The empty input is [io.EOF]; every other proper prefix is
    [ErrValueTooLarge], whether the cut falls inside the list header or
    inside the payload. *)
Theorem DecodeBytes_prefix (tx : Transaction.t) (k : nat) :
  Transaction_ok tx ->
  exists bs : list Z,
    EncodeToBytes tx = Ok bs /\
    ((k < length bs)%nat ->
     DecodeBytes (take k bs)
     = Err (if (k =? 0)%nat then io_EOF else rlp_ErrValueTooLarge)).
Proof.
  intros Hok. exists (Transaction_bytes tx).
  destruct (Transaction_ok_fits tx Hok) as (Henc & Hpay & Hfit).
  split; [exact Henc |]. intros Hk.
  pose proof (len_nonneg (Transaction_payload tx)) as Hnn.
  destruct k as [| k]; [reflexivity |]. cbn [Nat.eqb].
  unfold DecodeBytes, Transaction.DecodeRLP.
  set (hd := rlp.listHeader (rlp.len (Transaction_payload tx))).
  assert (Hbytes : Transaction_bytes tx = hd ++ Transaction_payload tx)
    by reflexivity.
  rewrite Hbytes in Hk |- *. rewrite length_app in Hk.
  destruct (Nat.lt_ge_cases (S k) (length hd)) as [Hin | Hout].
  - unfold hd. rewrite Kind_cut_header; [reflexivity | lia |].
    fold hd. lia.
  - rewrite take_app_ge by lia.
    unfold rlp.Kind. cbn [andb].
    unfold hd at 1. rewrite readKind_list by lia. cbn [rbind].
    assert (Hshort : rlp.len (take (S k - length hd) (Transaction_payload tx))
                     < rlp.len (Transaction_payload tx)).
    { unfold rlp.len. rewrite length_take. lia. }
    ltb_cases. reflexivity.
Qed.

Lemma DecodeBytes_prefix_witness :
  exists bs : list Z,
    EncodeToBytes full_tx = Ok bs /\
    DecodeBytes (take 1 bs) = Err rlp_ErrValueTooLarge.
Proof.
  destruct (DecodeBytes_prefix full_tx 1 full_tx_ok) as (bs & Henc & Hdec).
  exists bs. split; [exact Henc |]. apply Hdec.
  assert (Hbs : bs = Transaction_bytes full_tx).
  { pose proof (EncodeToBytes_ok full_tx) as H. rewrite Henc in H.
    injection H as ->; [reflexivity |].
    destruct full_tx_ok as (_ & _ & _ & Hcs & _). exact Hcs. }
  rewrite Hbs. vm_compute. lia.
Defined.

(** X8: the encoding is injective on well-formed transactions: two of
    them with the same bytes are equal in every field. *)
Theorem EncodeToBytes_injective (tx1 tx2 : Transaction.t) :
  Transaction_ok tx1 -> Transaction_ok tx2 ->
  EncodeToBytes tx1 = EncodeToBytes tx2 -> tx1 = tx2.
Proof.
  intros Hok1 Hok2 Heq.
  destruct (Transaction_ok_fits tx1 Hok1) as (Henc1 & _).
  destruct (Transaction_ok_fits tx2 Hok2) as (Henc2 & _).
  rewrite Henc1, Henc2 in Heq. injection Heq as Heq.
  pose proof (DecodeBytes_Transaction_bytes tx1 Hok1) as H1.
  pose proof (DecodeBytes_Transaction_bytes tx2 Hok2) as H2.
  rewrite Heq in H1. congruence.
Qed.


Lemma sample_tx_ok : Transaction_ok sample_tx.
Proof.
  unfold Transaction_ok, sample_tx, is_uint.
  cbn [Transaction.body body.ChainTag body.BlockRef body.Expiration
       body.Clauses body.GasPriceCoef body.Gas body.DependsOn body.Nonce
       body.Reserved body.Signature].
  change (Z.shiftl 1234 32) with 5299989643264.
  repeat match goal with |- _ /\ _ => split end; try lia.
  - apply List.Forall_cons; [| apply List.Forall_nil].
    unfold Clause_ok, is_uint; cbn;
      repeat match goal with |- _ /\ _ => split end;
      try lia; try reflexivity; try exact I; bytes_ok.
  - exact I.
  - apply List.Forall_nil.
  - apply List.Forall_nil.
  - vm_compute. reflexivity.
Qed.

Lemma EncodeToBytes_injective_witness :
  Transaction.GasPriceCoef sample_tx <> Transaction.GasPriceCoef full_tx /\
  EncodeToBytes sample_tx <> EncodeToBytes full_tx.
Proof.
  split; [discriminate |]. intros Heq.
  apply (EncodeToBytes_injective sample_tx full_tx sample_tx_ok full_tx_ok)
    in Heq.
  apply (f_equal Transaction.GasPriceCoef) in Heq. discriminate Heq.
Defined.

Lemma putint_len_mono (i j : Z) :
  0 <= i <= j -> j < 2 ^ 64 ->
  rlp.len (rlp.putint i) <= rlp.len (rlp.putint j).
Proof.
  intros Hij Hj.
  destruct (putint_ok i ltac:(lia)) as [_ _ _ _ _ Hfits].
  destruct (putint_ok j ltac:(lia)) as [Hb Hl Hv _ _ _].
  pose proof (be_value_bound _ Hb) as Hbound. rewrite Hv in Hbound.
  specialize (Hfits (length (rlp.putint j)) ltac:(lia) ltac:(lia)).
  unfold rlp.len. lia.
Qed.

Lemma encodeList_len_mono (p q : list Z) :
  rlp.len p <= rlp.len q -> rlp.len q < 2 ^ 64 ->
  rlp.len (rlp.encodeList p) <= rlp.len (rlp.encodeList q).
Proof.
  intros Hpq Hq. pose proof (len_nonneg p) as Hp.
  unfold rlp.encodeList, rlp.listHeader, rlp.puthead. rewrite !len_app.
  pose proof (putint_len_mono (rlp.len p) (rlp.len q) ltac:(lia) Hq).
  pose proof (len_nonneg (rlp.putint (rlp.len q))).
  destruct (Z.ltb_spec (rlp.len p) 56), (Z.ltb_spec (rlp.len q) 56);
    rewrite ?len_cons; change (rlp.len []) with 0; lia.
Qed.

(** The encoding of a well-formed transaction is the list of the signed
    fields followed by the signature. *)
Lemma Transaction_payload_split (tx : Transaction.t) :
  Transaction_payload tx
  = Transaction_signed tx
    ++ rlp.encodeString (body.Signature (Transaction.body tx)).
Proof.
  unfold Transaction_payload, Transaction_signed.
  repeat rewrite <- app_assoc. reflexivity.
Qed.

Lemma signingInput_ok (tx : Transaction.t) :
  Forall Clause_ok (body.Clauses (Transaction.body tx)) ->
  Transaction.signingInput tx = Ok (rlp.encodeList (Transaction_signed tx)).
Proof.
  intros Hcs.
  unfold Transaction.signingInput, body.encodeFields, Transaction_signed.
  rewrite (encodeAll_Clauses _ Hcs). reflexivity.
Qed.

(** Dropping the signature of a well-formed transaction leaves a
    well-formed transaction. *)
Lemma Transaction_ok_unsigned (tx : Transaction.t) :
  Transaction_ok tx -> Transaction_ok (Transaction.WithSignature tx []).
Proof.
  intros Hok. destruct (Transaction_ok_fits tx Hok) as (_ & Hpay & Hfit).
  destruct Hok as (H1 & H2 & H3 & Hcs & H5 & H6 & H7 & H8 & H9 & _ & _).
  unfold Transaction_ok.
  refine (conj H1 (conj H2 (conj H3 (conj Hcs (conj H5 (conj H6 (conj H7
            (conj H8 (conj H9 (conj (List.Forall_nil _) _)))))))))).
  rewrite (EncodeToBytes_ok (Transaction.WithSignature tx []) Hcs).
  apply Z.le_lt_trans with (rlp.len (Transaction_bytes tx)); [| exact Hfit].
  unfold Transaction_bytes. apply encodeList_len_mono; [| lia].
  rewrite !Transaction_payload_split, !len_app.
  pose proof (encodeString_nonempty (body.Signature (Transaction.body tx))).
  change (rlp.len (rlp.encodeString
            (body.Signature (Transaction.body (Transaction.WithSignature tx [])))))
    with 1.
  change (Transaction_signed (Transaction.WithSignature tx []))
    with (Transaction_signed tx).
  lia.
Qed.

(** X9: the input of the signing hash determines the nine signed fields:
    two well-formed transactions with the same hash input differ in
    their signatures at most. *)
Theorem signingInput_injective (tx1 tx2 : Transaction.t) :
  Transaction_ok tx1 -> Transaction_ok tx2 ->
  Transaction.signingInput tx1 = Transaction.signingInput tx2 ->
  forall sig : list Z,
    Transaction.WithSignature tx1 sig = Transaction.WithSignature tx2 sig.
Proof.
  intros Hok1 Hok2 Heq.
  assert (Hcs : forall tx, Transaction_ok tx ->
                  Forall Clause_ok (body.Clauses (Transaction.body tx))).
  { intros tx Hok. apply Hok. }
  assert (Hlen : forall tx, Transaction_ok tx ->
                   rlp.len (Transaction_signed tx) < 2 ^ 64).
  { intros tx Hok. destruct (Transaction_ok_fits tx Hok) as (_ & Hpay & Hfit).
    rewrite Transaction_payload_split, len_app in Hpay.
    pose proof (len_nonneg
                  (rlp.encodeString (body.Signature (Transaction.body tx)))).
    lia. }
  rewrite (signingInput_ok tx1 (Hcs _ Hok1)),
          (signingInput_ok tx2 (Hcs _ Hok2)) in Heq.
  injection Heq as Heq.
  assert (Hnine : Transaction_signed tx1 = Transaction_signed tx2).
  { pose proof (List_encodeList false (Transaction_signed tx1) []
                  (Hlen _ Hok1)) as L1.
    pose proof (List_encodeList false (Transaction_signed tx2) []
                  (Hlen _ Hok2)) as L2.
    rewrite Heq in L1. congruence. }
  assert (Hun : Transaction.WithSignature tx1 []
                = Transaction.WithSignature tx2 []).
  { pose proof (DecodeBytes_Transaction_bytes _
                  (Transaction_ok_unsigned tx1 Hok1)) as D1.
    pose proof (DecodeBytes_Transaction_bytes _
                  (Transaction_ok_unsigned tx2 Hok2)) as D2.
    unfold Transaction_bytes in D1, D2.
    rewrite Transaction_payload_split in D1, D2.
    change (Transaction_signed (Transaction.WithSignature tx1 []))
      with (Transaction_signed tx1) in D1.
    change (Transaction_signed (Transaction.WithSignature tx2 []))
      with (Transaction_signed tx2) in D2.
    rewrite Hnine in D1.
    change (body.Signature (Transaction.body (Transaction.WithSignature tx1 [])))
      with (body.Signature (Transaction.body (Transaction.WithSignature tx2 [])))
      in D1.
    congruence. }
  intros sig.
  change (Transaction.WithSignature tx1 sig)
    with (Transaction.WithSignature (Transaction.WithSignature tx1 []) sig).
  rewrite Hun. reflexivity.
Qed.

Lemma signingInput_injective_witness :
  Transaction.WithSignature full_tx [7]
  = Transaction.WithSignature (Transaction.WithSignature full_tx []) [7].
Proof.
  apply signingInput_injective.
  - exact full_tx_ok.
  - exact (Transaction_ok_unsigned full_tx full_tx_ok).
  - reflexivity.
Defined.

(** ** Values that do not encode *)

Lemma encodeAll_negative (cs : list Clause.t) :
  Exists (fun c => Clause.Value c < 0) cs ->
  rlp.encodeAll Clause.EncodeRLP cs = Err rlp_errNegativeBigInt.
Proof.
  induction cs as [| c cs IH]; intros Hex; [inversion Hex |].
  cbn [rlp.encodeAll].
  unfold Clause.EncodeRLP at 1, clauseBody.encode, rlp.writeBigInt.
  fold (Clause.Value c).
  destruct (Z.ltb_spec (Clause.Value c) 0) as [Hneg | Hpos]; [reflexivity |].
  inversion Hex as [? ? Hhead | ? ? Htail]; subst; [lia |].
  rewrite (IH Htail).
  destruct (Clause.Value c =? 0); reflexivity.
Qed.

Lemma encodeAll_nonneg (cs : list Clause.t) :
  ~ Exists (fun c => Clause.Value c < 0) cs ->
  rlp.encodeAll Clause.EncodeRLP cs = Ok (concat (map Clause_bytes cs)).
Proof.
  induction cs as [| c cs IH]; intros Hno; [reflexivity |].
  cbn [rlp.encodeAll map concat].
  rewrite Clause_EncodeRLP_ok, IH; [reflexivity | |].
  - intros Hex. apply Hno. apply List.Exists_cons_tl, Hex.
  - destruct (Z.lt_ge_cases (Clause.Value c) 0) as [Hneg | Hpos]; [| lia].
    exfalso. apply Hno. apply List.Exists_cons_hd, Hneg.
Qed.

(** X10: encoding fails exactly on a negative clause value.  When some
    clause of a transaction has a negative value, [EncodeRLP] returns the
    encoder's error for negative integers, and [SigningHash], which has
    no error result, returns the all-zero [Bytes32], the same for every
    such transaction; otherwise the encoding and the hash input exist and
    the signing hash is the digest of the list of the nine signed
    fields. *)
Theorem Encode_negative_value `{C : Crypto} (tx : Transaction.t) :
  (Exists (fun c => Clause.Value c < 0) (Transaction.Clauses tx) ->
   EncodeToBytes tx = Err rlp_errNegativeBigInt /\
   Transaction.signingInput tx = Err rlp_errNegativeBigInt /\
   Transaction.SigningHash tx = meter.Bytes32_zero) /\
  (~ Exists (fun c => Clause.Value c < 0) (Transaction.Clauses tx) ->
   EncodeToBytes tx = Ok (Transaction_bytes tx) /\
   Transaction.signingInput tx = Ok (rlp.encodeList (Transaction_signed tx)) /\
   Transaction.SigningHash tx
   = Blake2b_Sum (rlp.encodeList (Transaction_signed tx))).
Proof.
  unfold Transaction.Clauses. split; intros Hex.
  - pose proof (encodeAll_negative _ Hex) as Henc.
    assert (Hin : Transaction.signingInput tx = Err rlp_errNegativeBigInt).
    { unfold Transaction.signingInput, body.encodeFields.
      rewrite Henc. reflexivity. }
    split; [| split; [exact Hin |]].
    + unfold EncodeToBytes, Transaction.EncodeRLP, body.encode,
        body.encodeFields.
      rewrite Henc. reflexivity.
    + unfold Transaction.SigningHash. rewrite Hin. reflexivity.
  - pose proof (encodeAll_nonneg _ Hex) as Henc.
    assert (Hin : Transaction.signingInput tx
                  = Ok (rlp.encodeList (Transaction_signed tx))).
    { unfold Transaction.signingInput, body.encodeFields, Transaction_signed.
      rewrite Henc. reflexivity. }
    split; [| split; [exact Hin |]].
    + unfold EncodeToBytes, Transaction.EncodeRLP, body.encode,
        body.encodeFields, Transaction_bytes, Transaction_payload.
      rewrite Henc. cbn [rbind]. repeat rewrite <- app_assoc. reflexivity.
    + unfold Transaction.SigningHash. rewrite Hin. reflexivity.
Qed.

Lemma Encode_negative_value_witness :
  let tx := Transaction.mk
              (body.mk 88 0 100 [sample_clause; Clause.WithValue sample_clause (-1)]
                       0 21000 None 0 [] []) in
  EncodeToBytes tx = Err rlp_errNegativeBigInt /\
  @Transaction.SigningHash sample_crypto tx = meter.Bytes32_zero /\
  @Transaction.SigningHash sample_crypto sample_tx <> meter.Bytes32_zero.
Proof.
  intros tx.
  destruct (@Encode_negative_value sample_crypto tx) as [Hneg _].
  destruct Hneg as (Henc & _ & Hhash).
  - apply List.Exists_cons_tl, List.Exists_cons_hd. vm_compute. reflexivity.
  - split; [exact Henc |]. split; [exact Hhash |].
    destruct (@Encode_negative_value sample_crypto sample_tx) as [_ Hpos].
    destruct Hpos as (_ & _ & Hh).
    + intros Hex. inversion Hex as [? ? Hhead | ? ? Htail]; subst.
      * vm_compute in Hhead. discriminate Hhead.
      * inversion Htail.
    + rewrite Hh. vm_compute. discriminate.
Defined.

(** X11: [Size] is the number of bytes of the encoding, at least one, when
    the transaction encodes, and 0 exactly when it does not, that is when
    some clause has a negative value. *)
Theorem Size_encoding (tx : Transaction.t) :
  (forall bs : list Z,
      EncodeToBytes tx = Ok bs ->
      Transaction.Size tx = rlp.len bs /\ 1 <= Transaction.Size tx) /\
  (Transaction.Size tx = 0 <->
   Exists (fun c => Clause.Value c < 0) (Transaction.Clauses tx)) /\
  (Transaction.Size tx = 0 <-> EncodeToBytes tx = Err rlp_errNegativeBigInt).
Proof.
  assert (Hok : forall bs, EncodeToBytes tx = Ok bs ->
                  Transaction.Size tx = rlp.len bs /\ 1 <= Transaction.Size tx).
  { intros bs Henc. unfold Transaction.Size.
    unfold EncodeToBytes in Henc. rewrite Henc.
    unfold meter.StorageSize_Write. fold (rlp.len bs).
    split; [lia |].
    unfold Transaction.EncodeRLP, body.encode in Henc.
    destruct (body.encodeFields (Transaction.body tx)) as [fs |];
      [| discriminate Henc].
    cbn [rbind] in Henc. injection Henc as <-.
    match goal with |- context [rlp.encodeList ?p] =>
      pose proof (encodeList_len p); pose proof (len_nonneg p) end.
    lia. }
  assert (Herr : forall e, EncodeToBytes tx = Err e -> Transaction.Size tx = 0).
  { intros e Henc. unfold Transaction.Size.
    unfold EncodeToBytes in Henc. rewrite Henc. reflexivity. }
  assert (Hcases :
            (Exists (fun c => Clause.Value c < 0) (Transaction.Clauses tx) /\
             EncodeToBytes tx = Err rlp_errNegativeBigInt) \/
            (~ Exists (fun c => Clause.Value c < 0) (Transaction.Clauses tx) /\
             EncodeToBytes tx = Ok (Transaction_bytes tx))).
  { destruct (decide (Exists (fun c => Clause.Value c < 0)
                               (Transaction.Clauses tx))) as [Hex | Hno].
    - left. split; [exact Hex |].
      unfold EncodeToBytes, Transaction.EncodeRLP, body.encode,
        body.encodeFields.
      unfold Transaction.Clauses in Hex.
      rewrite (encodeAll_negative _ Hex). reflexivity.
    - right. split; [exact Hno |].
      unfold EncodeToBytes, Transaction.EncodeRLP, body.encode,
        body.encodeFields, Transaction_bytes, Transaction_payload.
      unfold Transaction.Clauses in Hno.
      rewrite (encodeAll_nonneg _ Hno). cbn [rbind].
      repeat rewrite <- app_assoc. reflexivity. }
  split; [exact Hok |].
  destruct Hcases as [[Hex Henc] | [Hno Henc]].
  - pose proof (Herr _ Henc). tauto.
  - destruct (Hok _ Henc) as [_ Hpos].
    split; split; intros H; first [lia | contradiction | congruence].
Qed.

Lemma Size_encoding_witness :
  Transaction.Size full_tx = 233.
Proof.
  destruct (Size_encoding full_tx) as (Hlen & _).
  destruct (Hlen (Transaction_bytes full_tx)) as [Hsize _].
  - apply EncodeToBytes_ok. apply full_tx_ok.
  - rewrite Hsize. vm_compute. reflexivity.
Defined.

(** X12: a clause is read back from its encoding.  A well-formed clause
    (recipient of 20 bytes or none, value not negative, token a byte)
    encodes, and [Clause.DecodeRLP] reads it from the front of any stream,
    leaving what follows; a clause with a negative value does not
    encode. *)
Theorem Clause_DecodeRLP_EncodeRLP (c : Clause.t) :
  (Clause_ok c ->
   exists bs : list Z,
     Clause.EncodeRLP c = Ok bs /\
     (rlp.len bs < 2 ^ 64 ->
      forall (inList : bool) (rest : list Z),
        Clause.DecodeRLP inList (bs ++ rest) = Ok (c, rest))) /\
  (Clause.Value c < 0 -> Clause.EncodeRLP c = Err rlp_errNegativeBigInt).
Proof.
  split.
  - intros Hok. exists (Clause_bytes c). split.
    + apply Clause_EncodeRLP_ok. apply Hok.
    + intros Hlen inList rest. apply Clause_DecodeRLP_bytes; assumption.
  - intros Hneg. unfold Clause.EncodeRLP, clauseBody.encode, rlp.writeBigInt.
    fold (Clause.Value c).
    destruct (Z.ltb_spec (Clause.Value c) 0); [reflexivity | lia].
Qed.

Lemma Clause_DecodeRLP_EncodeRLP_witness :
  exists bs : list Z,
    Clause.EncodeRLP sample_clause = Ok bs /\
    Clause.DecodeRLP true (bs ++ [1; 2; 3]) = Ok (sample_clause, [1; 2; 3]).
Proof.
  destruct (Clause_DecodeRLP_EncodeRLP sample_clause) as [Hok _].
  destruct Hok as (bs & Henc & Hdec).
  - unfold Clause_ok, is_uint. cbn.
    repeat match goal with |- _ /\ _ => split end;
      try lia; try reflexivity; try apply List.Forall_nil; bytes_ok.
  - exists bs. split; [exact Henc |]. apply Hdec.
    assert (Hbs : Ok bs = Ok (Clause_bytes sample_clause))
      by (rewrite <- Henc; reflexivity).
    injection Hbs as ->. vm_compute. reflexivity.
Defined.

(** ** What the decoder returns has the types of the fields *)

Lemma readByte_typed (inList : bool) (s : list Z) (b : Z) (s' : list Z) :
  Forall is_byte s -> rlp.readByte inList s = Ok (b, s') ->
  is_byte b /\ Forall is_byte s'.
Proof.
  intros Hs H. destruct (readByte_inv inList s) as [_ Hinv].
  rewrite (Hinv b s' H) in Hs. inversion Hs; subst. split; assumption.
Qed.

Lemma readFull_typed (inList : bool) (n : Z) (s b s' : list Z) :
  Forall is_byte s -> 0 <= n -> rlp.readFull inList n s = Ok (b, s') ->
  Forall is_byte b /\ Forall is_byte s' /\ rlp.len b = n.
Proof.
  unfold rlp.readFull. intros Hs Hn.
  destruct (Z.ltb_spec (rlp.len s) n) as [| Hlen]; [discriminate |].
  intros [= <- <-]. split; [apply Forall_take, Hs |].
  split; [apply Forall_drop, Hs |].
  unfold rlp.len in *. rewrite length_take. lia.
Qed.

Lemma readUint_typed (inList : bool) (size : Z) (s : list Z) (v : Z)
  (s' : list Z) :
  Forall is_byte s -> 0 <= size ->
  rlp.readUint inList size s = Ok (v, s') ->
  0 <= v < 2 ^ (8 * size) /\ Forall is_byte s'.
Proof.
  intros Hs Hsize. unfold rlp.readUint.
  destruct (Z.eqb_spec size 0) as [-> | H0].
  { intros [= <- <-]. split; [cbn; lia | exact Hs]. }
  destruct (Z.eqb_spec size 1) as [-> | H1].
  { intros H. destruct (readByte_typed _ _ _ _ Hs H) as [Hb Hs'].
    split; [exact Hb | exact Hs']. }
  destruct (rlp.readFull inList size s) as [[b s1] | e] eqn:Hfull;
    cbn [rbind]; [| discriminate].
  destruct (readFull_typed _ _ _ _ _ Hs Hsize Hfull) as (Hb & Hs1 & Hlen).
  destruct (nth 0 b 0 =? 0); [discriminate |]. intros [= <- <-].
  split; [| exact Hs1].
  pose proof (be_value_bound b Hb) as Hbound.
  unfold rlp.len in Hlen. rewrite Hlen in Hbound. exact Hbound.
Qed.

Lemma readKind_typed (inList : bool) (s : list Z) (k : rlp.Kind_t)
  (size bv : Z) (s' : list Z) :
  Forall is_byte s ->
  rlp.readKind inList s = Ok (k, size, bv, s') ->
  0 <= size /\ 0 <= bv < 128 /\ Forall is_byte s'.
Proof.
  intros Hs. unfold rlp.readKind.
  destruct (rlp.readByte inList s) as [[b s1] | e] eqn:Hb; [| discriminate].
  destruct (readByte_typed _ _ _ _ Hs Hb) as [Hbyte Hs1].
  unfold is_byte in Hbyte.
  assert (Hsize : forall n (K : rlp.Kind_t),
             0 <= n ->
             (do (size, s'') <- rlp.readUint inList n s1;
              if size <? 56 then Err rlp_ErrCanonSize
              else Ok (K, size, 0, s'')) = Ok (k, size, bv, s') ->
             0 <= size /\ 0 <= bv < 128 /\ Forall is_byte s').
  { intros n K Hn H.
    destruct (rlp.readUint inList n s1) as [[v s2] | e] eqn:Hu;
      cbn [rbind] in H; [| discriminate].
    destruct (readUint_typed _ _ _ _ _ Hs1 Hn Hu) as [_ Hs2].
    destruct (Z.ltb_spec v 56); [discriminate |].
    injection H as <- <- <- <-. split; [lia |]. split; [lia | exact Hs2]. }
  destruct (Z.ltb_spec b 128).
  { intros [= <- <- <- <-]. split; [lia |]. split; [lia | exact Hs1]. }
  destruct (Z.ltb_spec b 184).
  { intros [= <- <- <- <-]. split; [lia |]. split; [lia | exact Hs1]. }
  destruct (Z.ltb_spec b 192); [apply Hsize; lia |].
  destruct (Z.ltb_spec b 248).
  { intros [= <- <- <- <-]. split; [lia |]. split; [lia | exact Hs1]. }
  apply Hsize; lia.
Qed.

Lemma Kind_typed (inList : bool) (s : list Z) (k : rlp.Kind_t)
  (size bv : Z) (s' : list Z) :
  Forall is_byte s ->
  rlp.Kind inList s = Ok (k, size, bv, s') ->
  0 <= size <= rlp.len s' /\ 0 <= bv < 128 /\ Forall is_byte s'.
Proof.
  intros Hs. unfold rlp.Kind.
  destruct (inList && (rlp.len s =? 0)); [discriminate |].
  destruct (rlp.readKind inList s) as [[[[k1 size1] bv1] s1] | e] eqn:Hk;
    cbn [rbind]; [| discriminate].
  destruct (readKind_typed _ _ _ _ _ _ Hs Hk) as (Hsize & Hbv & Hs1).
  destruct (Z.ltb_spec (rlp.len s1) size1); [discriminate |].
  intros [= <- <- <- <-]. split; [lia |]. split; assumption.
Qed.

Lemma uint_typed (maxbits : Z) :
  8 <= maxbits -> decodes_to (is_uint maxbits) (rlp.uint maxbits).
Proof.
  intros Hbits inList s v s' Hs. unfold rlp.uint, is_uint.
  destruct (rlp.Kind inList s) as [[[[k size] bv] s1] | e] eqn:HK;
    cbn [rbind]; [| discriminate].
  destruct (Kind_typed _ _ _ _ _ _ Hs HK) as (Hsize & Hbv & Hs1).
  assert (Hpow : 2 ^ 8 <= 2 ^ maxbits) by (apply Z.pow_le_mono_r; lia).
  destruct k.
  - destruct (bv =? 0); [discriminate |]. intros [= <- <-].
    split; [lia | exact Hs1].
  - destruct (Z.ltb_spec (maxbits / 8) size); [discriminate |].
    destruct (rlp.readUint inList size s1) as [[v1 s2] | e] eqn:Hu.
    + destruct (readUint_typed _ _ _ _ _ Hs1 (proj1 Hsize) Hu) as [Hv Hs2].
      destruct ((0 <? size) && (v1 <? 128)); [discriminate |].
      intros [= <- <-]. split; [| exact Hs2].
      assert (2 ^ (8 * size) <= 2 ^ maxbits).
      { apply Z.pow_le_mono_r; [lia |].
        pose proof (Z.mul_div_le maxbits 8 ltac:(lia)). lia. }
      lia.
    + destruct e; discriminate.
  - discriminate.
Qed.

Lemma Bytes_typed : decodes_to (Forall is_byte) rlp.Bytes.
Proof.
  intros inList s b s' Hs. unfold rlp.Bytes.
  destruct (rlp.Kind inList s) as [[[[k size] bv] s1] | e] eqn:HK;
    cbn [rbind]; [| discriminate].
  destruct (Kind_typed _ _ _ _ _ _ Hs HK) as (Hsize & Hbv & Hs1).
  destruct k.
  - intros [= <- <-]. split; [| exact Hs1].
    apply List.Forall_cons; [unfold is_byte; lia | apply List.Forall_nil].
  - destruct (rlp.readFull inList size s1) as [[b1 s2] | e] eqn:Hfull;
      cbn [rbind]; [| discriminate].
    destruct (readFull_typed _ _ _ _ _ Hs1 (proj1 Hsize) Hfull) as (Hb & Hs2 & _).
    destruct ((size =? 1) && (nth 0 b1 0 <? 128)); [discriminate |].
    intros [= <- <-]. split; assumption.
  - discriminate.
Qed.

Lemma decodeByteArray_typed (n : nat) :
  (1 <= n)%nat ->
  decodes_to (fun a => length a = n /\ Forall is_byte a)
             (rlp.decodeByteArray (Z.of_nat n)).
Proof.
  intros Hn inList s b s' Hs. unfold rlp.decodeByteArray.
  destruct (rlp.Kind inList s) as [[[[k size] bv] s1] | e] eqn:HK;
    cbn [rbind]; [| discriminate].
  destruct (Kind_typed _ _ _ _ _ _ Hs HK) as (Hsize & Hbv & Hs1).
  destruct k.
  - destruct (Z.eqb_spec (Z.of_nat n) 0); [discriminate |].
    destruct (Z.ltb_spec 1 (Z.of_nat n)); [discriminate |].
    intros [= <- <-]. split; [| exact Hs1]. split; [cbn [length]; lia |].
    apply List.Forall_cons; [unfold is_byte; lia | apply List.Forall_nil].
  - destruct (Z.ltb_spec (Z.of_nat n) size); [discriminate |].
    destruct (Z.ltb_spec size (Z.of_nat n)); [discriminate |].
    destruct (rlp.readFull inList size s1) as [[b1 s2] | e] eqn:Hfull;
      cbn [rbind]; [| discriminate].
    destruct (readFull_typed _ _ _ _ _ Hs1 (proj1 Hsize) Hfull) as (Hb & Hs2 & Hlen).
    destruct ((size =? 1) && (nth 0 b1 0 <? 128)); [discriminate |].
    intros [= <- <-]. split; [| exact Hs2].
    split; [unfold rlp.len in Hlen; lia | exact Hb].
  - discriminate.
Qed.

Lemma decodeBigInt_typed : decodes_to (fun v => 0 <= v) rlp.decodeBigInt.
Proof.
  intros inList s v s' Hs. unfold rlp.decodeBigInt.
  destruct (rlp.Bytes inList s) as [[b s1] | e] eqn:HB;
    cbn [rbind]; [| discriminate].
  destruct (Bytes_typed _ _ _ _ Hs HB) as [Hb Hs1].
  destruct ((0 <? rlp.len b) && (nth 0 b 0 =? 0)); [discriminate |].
  intros [= <- <-]. split; [| exact Hs1].
  unfold big.SetBytes. apply be_value_bound, Hb.
Qed.

Lemma optionalPtr_typed (n : nat) :
  (1 <= n)%nat ->
  decodes_to (array_ok n)
             (rlp.optionalPtr (rlp.decodeByteArray (Z.of_nat n))).
Proof.
  intros Hn inList s p s' Hs. unfold rlp.optionalPtr.
  destruct (rlp.Kind inList s) as [[[[k size] bv] s1] | e] eqn:HK;
    [| discriminate].
  destruct (Kind_typed _ _ _ _ _ _ Hs HK) as (_ & _ & Hs1).
  assert (Helem : (do (a, s'') <- rlp.decodeByteArray (Z.of_nat n) inList s;
                   Ok (Some a, s'')) = Ok (p, s') ->
                  array_ok n p /\ Forall is_byte s').
  { destruct (rlp.decodeByteArray (Z.of_nat n) inList s) as [[a s2] | e] eqn:Ha;
      cbn [rbind]; [| discriminate].
    destruct (decodeByteArray_typed n Hn _ _ _ _ Hs Ha) as [Hok Hs2].
    intros [= <- <-]. split; [exact Hok | exact Hs2]. }
  destruct k; try exact Helem;
    (destruct (size =? 0); [| exact Helem];
     intros [= <- <-]; split; [exact I | exact Hs1]).
Qed.

Lemma List_typed (inList : bool) (s : list Z) (size : Z)
  (payload after : list Z) :
  Forall is_byte s -> rlp.List_ inList s = Ok (size, payload, after) ->
  Forall is_byte payload /\ Forall is_byte after.
Proof.
  intros Hs. unfold rlp.List_.
  destruct (rlp.Kind inList s) as [[[[k size1] bv] s1] | e] eqn:HK;
    cbn [rbind]; [| discriminate].
  destruct (Kind_typed _ _ _ _ _ _ Hs HK) as (Hsize & _ & Hs1).
  destruct k; try discriminate.
  destruct (rlp.readFull inList size1 s1) as [[b1 s2] | e] eqn:Hfull;
    cbn [rbind]; [| discriminate].
  destruct (readFull_typed _ _ _ _ _ Hs1 (proj1 Hsize) Hfull) as (Hb & Hs2 & _).
  intros [= <- <- <-]. split; assumption.
Qed.

Lemma field_typed {A} (P : A -> Prop) (d : rlp.decoder A) (s : list Z)
  (x : A) (s' : list Z) :
  decodes_to P d -> Forall is_byte s -> rlp.field d s = Ok (x, s') ->
  P x /\ Forall is_byte s'.
Proof.
  intros Hd Hs. unfold rlp.field.
  destruct (d true s) as [[x1 s1] | e] eqn:Hx.
  - intros [= <- <-]. exact (Hd _ _ _ _ Hs Hx).
  - destruct e; discriminate.
Qed.

Lemma decodeSliceElems_typed {A} (P : A -> Prop) (d : rlp.decoder A)
  (fuel : nat) (s : list Z) (xs : list A) (s' : list Z) :
  decodes_to P d -> Forall is_byte s ->
  rlp.decodeSliceElems fuel d s = Ok (xs, s') ->
  Forall P xs /\ Forall is_byte s'.
Proof.
  intros Hd. revert s xs s'.
  induction fuel as [| fuel IH]; intros s xs s' Hs; [discriminate |].
  cbn [rlp.decodeSliceElems].
  destruct (d true s) as [[x s1] | e] eqn:Hx.
  - destruct (Hd _ _ _ _ Hs Hx) as [HP Hs1].
    destruct (rlp.decodeSliceElems fuel d s1) as [[xs1 s2] | e] eqn:Hrest;
      cbn [rbind]; [| discriminate].
    destruct (IH _ _ _ Hs1 Hrest) as [Hxs Hs2].
    intros [= <- <-]. split; [apply List.Forall_cons; assumption | exact Hs2].
  - destruct e; try discriminate.
    intros [= <- <-]. split; [apply List.Forall_nil | exact Hs].
Qed.

Lemma decodeListSlice_typed {A} (P : A -> Prop) (d : rlp.decoder A)
  (fuel : nat) :
  decodes_to P d -> decodes_to (Forall P) (rlp.decodeListSlice fuel d).
Proof.
  intros Hd inList s xs s' Hs. unfold rlp.decodeListSlice.
  destruct (rlp.List_ inList s) as [[[size payload] after] | e] eqn:HL;
    cbn [rbind]; [| discriminate].
  destruct (List_typed _ _ _ _ _ Hs HL) as [Hp Ha].
  destruct (size =? 0).
  - destruct (rlp.ListEnd payload); cbn [rbind]; [| discriminate].
    intros [= <- <-]. split; [apply List.Forall_nil | exact Ha].
  - destruct (rlp.decodeSliceElems fuel d payload) as [[xs1 rest] | e] eqn:Hel;
      cbn [rbind]; [| discriminate].
    destruct (decodeSliceElems_typed P d _ _ _ _ Hd Hp Hel) as [Hxs _].
    destruct (rlp.ListEnd rest); cbn [rbind]; [| discriminate].
    intros [= <- <-]. split; assumption.
Qed.

Lemma decodeInterface_typed (fuel : nat) :
  decodes_to item_ok (rlp.decodeInterface fuel).
Proof.
  induction fuel as [| fuel IH]; intros inList s v s' Hs; [discriminate |].
  cbn [rlp.decodeInterface].
  destruct (rlp.Kind inList s) as [[[[k size] bv] s1] | e] eqn:HK;
    cbn [rbind]; [| discriminate].
  assert (Hbytes : (do (b, s') <- rlp.Bytes inList s; Ok (rlp.Str b, s'))
                   = Ok (v, s') -> item_ok v /\ Forall is_byte s').
  { destruct (rlp.Bytes inList s) as [[b s2] | e] eqn:HB;
      cbn [rbind]; [| discriminate].
    destruct (Bytes_typed _ _ _ _ Hs HB) as [Hb Hs2].
    intros [= <- <-]. split; [exact Hb | exact Hs2]. }
  destruct k; try exact Hbytes.
  destruct (rlp.decodeListSlice fuel (rlp.decodeInterface fuel) inList s)
    as [[l s2] | e] eqn:HL; cbn [rbind]; [| discriminate].
  destruct (decodeListSlice_typed item_ok _ fuel IH _ _ _ _ Hs HL) as [Hl Hs2].
  intros [= <- <-]. split; [apply item_ok_Lst, Hl | exact Hs2].
Qed.

Lemma Clause_DecodeRLP_typed : decodes_to Clause_ok Clause.DecodeRLP.
Proof.
  intros inList s c s' Hs. unfold Clause.DecodeRLP, clauseBody.decode.
  destruct (rlp.List_ inList s) as [[[size payload] after] | e] eqn:HL;
    cbn [rbind]; [| discriminate].
  destruct (List_typed _ _ _ _ _ Hs HL) as [Hp Ha].
  destruct (rlp.field (rlp.optionalPtr (rlp.decodeByteArray 20)) payload)
    as [[to p1] | e] eqn:H1; cbn [rbind]; [| discriminate].
  destruct (field_typed _ _ _ _ _ (optionalPtr_typed 20 ltac:(lia)) Hp H1)
    as [Hto Hp1].
  destruct (rlp.field rlp.decodeBigInt p1) as [[value p2] | e] eqn:H2;
    cbn [rbind]; [| discriminate].
  destruct (field_typed _ _ _ _ _ decodeBigInt_typed Hp1 H2) as [Hv Hp2].
  destruct (rlp.field (rlp.uint 8) p2) as [[token p3] | e] eqn:H3;
    cbn [rbind]; [| discriminate].
  destruct (field_typed _ _ _ _ _ (uint_typed 8 ltac:(lia)) Hp2 H3)
    as [Htok Hp3].
  destruct (rlp.field rlp.Bytes p3) as [[data p4] | e] eqn:H4;
    cbn [rbind]; [| discriminate].
  destruct (field_typed _ _ _ _ _ Bytes_typed Hp3 H4) as [Hd Hp4].
  destruct (rlp.ListEnd p4); cbn [rbind]; [| discriminate].
  intros [= <- <-]. split; [| exact Ha].
  refine (conj Hto (conj Hv (conj Htok Hd))).
Qed.

Lemma body_decode_typed (fuel : nat) : decodes_to body_typed (body.decode fuel).
Proof.
  intros inList s b s' Hs. unfold body.decode.
  destruct (rlp.List_ inList s) as [[[size payload] after] | e] eqn:HL;
    cbn [rbind]; [| discriminate].
  destruct (List_typed _ _ _ _ _ Hs HL) as [Hp Ha].
  destruct (rlp.field (rlp.uint 8) payload) as [[x1 p1] | e] eqn:H1;
    cbn [rbind]; [| discriminate].
  destruct (field_typed _ _ _ _ _ (uint_typed 8 ltac:(lia)) Hp H1) as [T1 Hp1].
  destruct (rlp.field (rlp.uint 64) p1) as [[x2 p2] | e] eqn:H2;
    cbn [rbind]; [| discriminate].
  destruct (field_typed _ _ _ _ _ (uint_typed 64 ltac:(lia)) Hp1 H2) as [T2 Hp2].
  destruct (rlp.field (rlp.uint 32) p2) as [[x3 p3] | e] eqn:H3;
    cbn [rbind]; [| discriminate].
  destruct (field_typed _ _ _ _ _ (uint_typed 32 ltac:(lia)) Hp2 H3) as [T3 Hp3].
  destruct (rlp.field (rlp.decodeListSlice fuel Clause.DecodeRLP) p3)
    as [[x4 p4] | e] eqn:H4; cbn [rbind]; [| discriminate].
  destruct (field_typed _ _ _ _ _
              (decodeListSlice_typed _ _ fuel Clause_DecodeRLP_typed) Hp3 H4)
    as [T4 Hp4].
  destruct (rlp.field (rlp.uint 8) p4) as [[x5 p5] | e] eqn:H5;
    cbn [rbind]; [| discriminate].
  destruct (field_typed _ _ _ _ _ (uint_typed 8 ltac:(lia)) Hp4 H5) as [T5 Hp5].
  destruct (rlp.field (rlp.uint 64) p5) as [[x6 p6] | e] eqn:H6;
    cbn [rbind]; [| discriminate].
  destruct (field_typed _ _ _ _ _ (uint_typed 64 ltac:(lia)) Hp5 H6) as [T6 Hp6].
  destruct (rlp.field (rlp.optionalPtr (rlp.decodeByteArray 32)) p6)
    as [[x7 p7] | e] eqn:H7; cbn [rbind]; [| discriminate].
  destruct (field_typed _ _ _ _ _ (optionalPtr_typed 32 ltac:(lia)) Hp6 H7)
    as [T7 Hp7].
  destruct (rlp.field (rlp.uint 64) p7) as [[x8 p8] | e] eqn:H8;
    cbn [rbind]; [| discriminate].
  destruct (field_typed _ _ _ _ _ (uint_typed 64 ltac:(lia)) Hp7 H8) as [T8 Hp8].
  destruct (rlp.field (rlp.decodeListSlice fuel (rlp.decodeInterface fuel)) p8)
    as [[x9 p9] | e] eqn:H9; cbn [rbind]; [| discriminate].
  destruct (field_typed _ _ _ _ _
              (decodeListSlice_typed _ _ fuel (decodeInterface_typed fuel))
              Hp8 H9) as [T9 Hp9].
  destruct (rlp.field rlp.Bytes p9) as [[x10 p10] | e] eqn:H10;
    cbn [rbind]; [| discriminate].
  destruct (field_typed _ _ _ _ _ Bytes_typed Hp9 H10) as [T10 Hp10].
  destruct (rlp.ListEnd p10); cbn [rbind]; [| discriminate].
  intros [= <- <-]. split; [| exact Ha].
  refine (conj T1 (conj T2 (conj T3 (conj T4 (conj T5 (conj T6 (conj T7
            (conj T8 (conj T9 T10))))))))).
Qed.

(** X13: what [rlp.DecodeBytes] accepts has the types of the fields: every
    number is in the range of its Go type, recipients have 20 bytes and
    the dependency 32, and no clause value is negative.  So a decoded
    transaction always encodes again, its signing hash is never the zero
    value of a failed encoding, and (the encoding being shorter than 2^64
    bytes) it is a well-formed transaction that its own encoding decodes
    to. *)
Theorem DecodeBytes_typed `{C : Crypto} (b : list Z) (tx : Transaction.t) :
  Forall is_byte b -> DecodeBytes b = Ok tx ->
  body_typed (Transaction.body tx) /\
  EncodeToBytes tx = Ok (Transaction_bytes tx) /\
  Transaction.SigningHash tx
  = Blake2b_Sum (rlp.encodeList (Transaction_signed tx)) /\
  (rlp.len (Transaction_bytes tx) < 2 ^ 64 ->
   Transaction_ok tx /\ DecodeBytes (Transaction_bytes tx) = Ok tx).
Proof.
  intros Hb. unfold DecodeBytes at 1. unfold Transaction.DecodeRLP.
  destruct (rlp.Kind false b) as [r |]; cbn [rbind]; [| discriminate].
  destruct (body.decode (S (length b)) false b) as [[bd rest] | e] eqn:Hdec;
    cbn [rbind]; [| discriminate].
  destruct (body_decode_typed _ _ _ _ _ Hb Hdec) as [Htyped _].
  destruct rest; [| discriminate]. intros [= <-]. cbn [Transaction.body].
  split; [exact Htyped |].
  pose proof Htyped as (H1 & H2 & H3 & Hcs & H5 & H6 & H7 & H8 & H9 & H10).
  pose proof (EncodeToBytes_ok (Transaction.mk bd) Hcs) as Henc.
  split; [exact Henc |]. split.
  - unfold Transaction.SigningHash.
    rewrite signingInput_ok by exact Hcs. reflexivity.
  - intros Hfit.
    assert (Hok : Transaction_ok (Transaction.mk bd)).
    { unfold Transaction_ok. cbn [Transaction.body]. rewrite Henc.
      refine (conj H1 (conj H2 (conj H3 (conj Hcs (conj H5 (conj H6 (conj H7
                (conj H8 (conj H9 (conj H10 Hfit)))))))))). }
    split; [exact Hok |]. apply DecodeBytes_Transaction_bytes, Hok.
Qed.

Lemma DecodeBytes_typed_witness :
  body_typed (Transaction.body full_tx).
Proof.
  refine (proj1 (@DecodeBytes_typed sample_crypto (Transaction_bytes full_tx)
                   full_tx _ _)).
  - bytes_ok.
  - apply DecodeBytes_Transaction_bytes, full_tx_ok.
Defined.

(** ** Writing to the store *)

(** Overwriting one object changes no buffer behind another location. *)
Lemma read_bytes_insert (h : heap) (l : loc) (o : object) (s : option loc) :
  s <> Some l -> read_bytes (<[l := o]> h) s = read_bytes h s.
Proof.
  intros Hne. unfold read_bytes. destruct s as [l' |]; [| reflexivity].
  rewrite lookup_insert_ne by congruence. reflexivity.
Qed.

Lemma read_array_insert (h : heap) (l : loc) (o : object) (p : option loc) :
  p <> Some l -> read_array (<[l := o]> h) p = read_array h p.
Proof.
  intros Hne. unfold read_array. destruct p as [l' |]; [| reflexivity].
  rewrite lookup_insert_ne by congruence. reflexivity.
Qed.

Lemma read_int_insert (h : heap) (l : loc) (o : object) (p : option loc) :
  p <> Some l -> read_int (<[l := o]> h) p = read_int h p.
Proof.
  intros Hne. unfold read_int. destruct p as [l' |]; [| reflexivity].
  rewrite lookup_insert_ne by congruence. reflexivity.
Qed.

Lemma read_ptrs_insert (h : heap) (l : loc) (o : object) (s : option loc) :
  s <> Some l -> read_ptrs (<[l := o]> h) s = read_ptrs h s.
Proof.
  intros Hne. unfold read_ptrs. destruct s as [l' |]; [| reflexivity].
  rewrite lookup_insert_ne by congruence. reflexivity.
Qed.

Lemma read_items_insert (h : heap) (l : loc) (o : object) (s : option loc) :
  s <> Some l -> read_items (<[l := o]> h) s = read_items h s.
Proof.
  intros Hne. unfold read_items. destruct s as [l' |]; [| reflexivity].
  rewrite lookup_insert_ne by congruence. reflexivity.
Qed.

Lemma load_clause_insert (h : heap) (l : loc) (o : object) (c : loc) :
  c <> l -> load_clause (<[l := o]> h) c = load_clause h c.
Proof.
  intros Hne. unfold load_clause. rewrite lookup_insert_ne by congruence.
  reflexivity.
Qed.

Lemma load_tx_insert (h : heap) (l : loc) (o : object) (t : loc) :
  t <> l -> load_tx (<[l := o]> h) t = load_tx h t.
Proof.
  intros Hne. unfold load_tx. rewrite lookup_insert_ne by congruence.
  reflexivity.
Qed.

(** A clause survives the overwriting of a location that is neither the
    clause nor one of its buffers. *)
Lemma clause_at_insert (h : heap) (l : loc) (o : object) (c : loc)
  (b : clause_cell) (cv : Clause.t) :
  clause_at h c = Some cv -> load_clause h c = Some b ->
  c <> l -> cell_To b <> Some l -> cell_Value b <> Some l ->
  cell_Data b <> Some l ->
  clause_at (<[l := o]> h) c = Some cv.
Proof.
  intros Hc Hb Hcl Hto Hv Hd. unfold clause_at in *.
  rewrite load_clause_insert by exact Hcl. rewrite Hb in *. cbn in *.
  rewrite read_array_insert by exact Hto.
  rewrite read_int_insert by exact Hv.
  rewrite read_bytes_insert by exact Hd. exact Hc.
Qed.

(** X14: [NewClause] copies the recipient.  Called with a pointer to an
    address (or [nil]) it returns a pointer that was not in use and
    denotes the clause with this recipient, value 0, the Meter token and
    no data; it changes no object of the store, and overwriting the
    caller's address afterwards does not change the clause. *)
Theorem NewClause_copies (h : heap) (to : option loc)
  (a : option meter.Address) :
  read_array h to = Some a ->
  exists (h' : heap) (c : loc),
    PtrClause.NewClause h to = Some (h', c) /\
    h !! c = None /\
    h ⊆ h' /\
    clause_at h' c = Some (Clause.NewClause a) /\
    forall o : object,
      clause_at (mutate h' to o) c = Some (Clause.NewClause a).
Proof.
  intros Hread.
  destruct (copy_array_spec h to a Hread)
    as (h1 & to' & Hcopy & Hnew & Hsub & _ & Hread1).
  unfold PtrClause.NewClause. rewrite Hcopy. cbn -[alloc].
  destruct (alloc_spec h1 (OInt 0)) as (Hv & Heq2 & Hsub2).
  destruct (alloc h1 (OInt 0)) as [h2 v]. cbn [fst snd] in *.
  set (cell := mk_clause_cell to' (Some v) MeterToken None).
  destruct (alloc_spec h2 (OClause cell)) as (Hc & Heq3 & Hsub3).
  pose proof (load_clause_alloc h2 cell) as Hload.
  destruct (alloc h2 (OClause cell)) as [h3 c]. cbn [fst snd] in *.
  assert (H13 : h1 ⊆ h3) by (etrans; [exact Hsub2 | exact Hsub3]).
  assert (H03 : h ⊆ h3) by (etrans; [exact Hsub | exact H13]).
  assert (Hcnew : h !! c = None).
  { apply (new_below h h2); [etrans; [exact Hsub | exact Hsub2] | exact Hc]. }
  assert (Hvnew : h !! v = None) by exact (new_below h h1 v Hsub Hv).
  assert (Hint : read_int h3 (Some v) = Some 0).
  { apply (read_int_mono h2 h3 Hsub3). cbn [read_int].
    rewrite Heq2, lookup_insert_eq. reflexivity. }
  assert (Hat : clause_at h3 c = Some (Clause.NewClause a)).
  { apply (clause_at_intro h3 c cell a 0 []).
    - exact Hload.
    - exact (read_array_mono h1 h3 H13 _ _ Hread1).
    - exact Hint.
    - reflexivity. }
  exists h3, c. refine (conj eq_refl (conj Hcnew (conj H03 (conj Hat _)))).
  intros o. destruct to as [l |]; [| exact Hat]. cbn [mutate].
  assert (Hl : is_Some (h !! l)).
  { unfold read_array in Hread. destruct (h !! l); [eauto | discriminate]. }
  apply (clause_at_insert h3 l o c cell); try assumption.
  - intros ->. rewrite Hcnew in Hl. destruct Hl; discriminate.
  - subst cell. cbn. destruct to' as [l' |]; [| discriminate].
    intros [= ->]. cbn [is_new] in Hnew. rewrite Hnew in Hl.
    destruct Hl; discriminate.
  - subst cell. cbn. intros [= ->]. rewrite Hvnew in Hl.
    destruct Hl; discriminate.
  - subst cell. cbn. discriminate.
Qed.

Lemma NewClause_copies_witness :
  exists (h' : heap) (c : loc),
    PtrClause.NewClause sample_heap (Some 0%nat) = Some (h', c) /\
    clause_at (mutate h' (Some 0%nat) (OBytes (repeat 255 20))) c
    = Some (Clause.NewClause (Clause.To sample_clause)).
Proof.
  destruct (NewClause_copies sample_heap (Some 0%nat) (Clause.To sample_clause))
    as (h' & c & Hrun & _ & _ & _ & Hmut).
  - vm_compute. reflexivity.
  - exists h', c. split; [exact Hrun | apply Hmut].
Defined.

(** What is allocated for a decoded clause body. *)
Lemma store_clauseBody_spec (h : heap) (b : clauseBody.t) :
  let h' := (store_clauseBody h b).1 in
  let cell := (store_clauseBody h b).2 in
  h ⊆ h' /\
  read_array h' (cell_To cell) = Some (clauseBody.To b) /\
  read_int h' (cell_Value cell) = Some (clauseBody.Value b) /\
  cell_Token cell = clauseBody.Token b /\
  read_bytes h' (cell_Data cell) = Some (clauseBody.Data b).
Proof.
  unfold store_clauseBody.
  set (r1 := match clauseBody.To b with
             | None => (h, None)
             | Some a => let '(h0, l) := alloc h (OBytes a) in (h0, Some l)
             end).
  assert (H1 : h ⊆ r1.1 /\ read_array r1.1 r1.2 = Some (clauseBody.To b)).
  { subst r1. destruct (clauseBody.To b) as [a |]; cbn [fst snd].
    - destruct (alloc_spec h (OBytes a)) as (_ & Heq & Hsub).
      destruct (alloc h (OBytes a)) as [h0 l]. cbn [fst snd] in *.
      split; [exact Hsub |]. cbn [read_array].
      rewrite Heq, lookup_insert_eq. reflexivity.
    - split; reflexivity. }
  destruct r1 as [h1 to]. cbn [fst snd] in H1. destruct H1 as [Hsub1 Hto].
  destruct (alloc_spec h1 (OInt (clauseBody.Value b))) as (_ & Heq2 & Hsub2).
  destruct (alloc h1 (OInt (clauseBody.Value b))) as [h2 v]. cbn [fst snd] in *.
  destruct (alloc_spec h2 (OBytes (clauseBody.Data b))) as (_ & Heq3 & Hsub3).
  destruct (alloc h2 (OBytes (clauseBody.Data b))) as [h3 d]. cbn [fst snd] in *.
  assert (H13 : h1 ⊆ h3) by (etrans; [exact Hsub2 | exact Hsub3]).
  split; [etrans; [exact Hsub1 | exact H13] |].
  split; [exact (read_array_mono h1 h3 H13 _ _ Hto) |].
  split.
  { apply (read_int_mono h2 h3 Hsub3). cbn [read_int cell_Value].
    rewrite Heq2, lookup_insert_eq. reflexivity. }
  split; [reflexivity |].
  cbn [read_bytes cell_Data]. rewrite Heq3, lookup_insert_eq. reflexivity.
Qed.

(** Overwriting a clause struct changes no other clause. *)
Lemma clause_at_overwrite (h : heap) (c : loc) (cell0 cell : clause_cell)
  (p : loc) (x : Clause.t) :
  h !! c = Some (OClause cell0) -> p <> c ->
  clause_at h p = Some x ->
  clause_at (<[c := OClause cell]> h) p = Some x.
Proof.
  intros Hc Hp Hx.
  destruct (clause_at_inv h p x Hx) as (b & Hb & Hto & Hv & _ & Hd).
  apply (clause_at_insert h c _ p b); try assumption.
  - intros Heq. rewrite Heq in Hto. cbn in Hto. rewrite Hc in Hto. discriminate.
  - intros Heq. rewrite Heq in Hv. cbn in Hv. rewrite Hc in Hv. discriminate.
  - intros Heq. rewrite Heq in Hd. cbn in Hd. rewrite Hc in Hd. discriminate.
Qed.

(** The clauses behind a slice of pointers after one of the clauses has
    been replaced. *)
Lemma clauses_at_replace (h h' : heap) (c : loc) (cv : Clause.t)
  (ps : list loc) (cs : list Clause.t) :
  (forall p x, p <> c -> clause_at h p = Some x -> clause_at h' p = Some x) ->
  clause_at h' c = Some cv ->
  mapM (clause_at h) ps = Some cs ->
  exists cs' : list Clause.t,
    mapM (clause_at h') ps = Some cs' /\
    forall (i : nat) (p : loc),
      ps !! i = Some p ->
      cs' !! i = if decide (p = c) then Some cv else cs !! i.
Proof.
  intros Hother Hc. rewrite mapM_Some. intros Hall.
  induction Hall as [| p x ps cs Hp Hall (cs' & Hcs' & Hidx)].
  - exists []. split; [reflexivity |]. intros i p Hi. discriminate Hi.
  - exists ((if decide (p = c) then cv else x) :: cs'). split.
    + apply mapM_Some. apply mapM_Some in Hcs'.
      constructor; [| exact Hcs'].
      destruct (decide (p = c)) as [-> | Hne]; [exact Hc |].
      apply Hother; assumption.
    + intros [| i] q Hi.
      * injection Hi as <-. cbn. destruct (decide (p = c)); reflexivity.
      * cbn. apply Hidx. exact Hi.
Qed.

(** X15: [Clause.DecodeRLP] writes through its receiver, and only after a
    successful decoding.  On a decoding error the store is unchanged; on
    success the receiver denotes the decoded clause, every other clause
    pointer denotes what it did, and a transaction denotes what it did
    except that every position of its clause slice that holds the
    receiver now shows the decoded clause: a clause reached through
    [Clauses] is the transaction's own. *)
Theorem Clause_DecodeRLP_in_place (h : heap) (c : loc) (old : Clause.t)
  (inList : bool) (s : list Z) :
  clause_at h c = Some old ->
  match Clause.DecodeRLP inList s with
  | Err err => PtrClause.DecodeRLP h c inList s = Some (h, Err err)
  | Ok (cv, s') =>
      exists h' : heap,
        PtrClause.DecodeRLP h c inList s = Some (h', Ok s') /\
        clause_at h' c = Some cv /\
        (forall (p : loc) (x : Clause.t),
            p <> c -> clause_at h p = Some x -> clause_at h' p = Some x) /\
        (forall (t : loc) (tv : Transaction.t) (b : tx_cell) (ps : list loc),
            tx_at h t = Some tv -> load_tx h t = Some b ->
            read_ptrs h (cell_Clauses b) = Some ps ->
            exists cs' : list Clause.t,
              tx_at h' t = Some (with_clauses tv cs') /\
              forall (i : nat) (p : loc),
                ps !! i = Some p ->
                cs' !! i = if decide (p = c) then Some cv
                           else Transaction.Clauses tv !! i)
  end.
Proof.
  intros Hold.
  destruct (clause_at_inv h c old Hold) as (cell0 & Hload & _).
  assert (Hc : h !! c = Some (OClause cell0)).
  { unfold load_clause in Hload.
    destruct (h !! c) as [[] |]; try discriminate. congruence. }
  unfold Clause.DecodeRLP, PtrClause.DecodeRLP.
  destruct (clauseBody.decode inList s) as [[b s'] | err]; cbn [rbind];
    [| reflexivity].
  rewrite Hload. cbn -[store_clauseBody].
  pose proof (store_clauseBody_spec h b) as Hspec. cbv zeta in Hspec.
  destruct (store_clauseBody h b) as [h1 cell]. cbn [fst snd] in Hspec.
  destruct Hspec as (Hsub & Hto & Hv & Htok & Hd).
  set (h' := <[c := OClause cell]> h1).
  assert (Hc1 : h1 !! c = Some (OClause cell0))
    by exact (lookup_weaken _ _ _ _ Hc Hsub).
  assert (Hnew : clause_at h' c = Some (Clause.mk b)).
  { assert (Hl : load_clause h' c = Some cell).
    { unfold load_clause, h'. rewrite lookup_insert_eq. reflexivity. }
    assert (Hne : forall l o, h1 !! l = Some o -> (forall x, o <> OClause x) ->
                              Some l <> Some c).
    { intros l o Hl' Ho [= ->]. rewrite Hc1 in Hl'. injection Hl' as <-.
      exact (Ho cell0 eq_refl). }
    pose proof (clause_at_intro h' c cell (clauseBody.To b) (clauseBody.Value b)
                  (clauseBody.Data b) Hl) as Hintro.
    rewrite Htok in Hintro. destruct b as [to value token data].
    cbn [clauseBody.To clauseBody.Value clauseBody.Token clauseBody.Data] in *.
    apply Hintro; unfold h'.
    - rewrite read_array_insert; [exact Hto |].
      unfold read_array in Hto. destruct (cell_To cell) as [l |]; [| discriminate].
      destruct (h1 !! l) as [[] |] eqn:Hl'; try discriminate.
      apply (Hne l _ Hl'). discriminate.
    - rewrite read_int_insert; [exact Hv |].
      unfold read_int in Hv. destruct (cell_Value cell) as [l |]; [| discriminate].
      destruct (h1 !! l) as [[] |] eqn:Hl'; try discriminate.
      apply (Hne l _ Hl'). discriminate.
    - rewrite read_bytes_insert; [exact Hd |].
      unfold read_bytes in Hd. destruct (cell_Data cell) as [l |]; [| discriminate].
      destruct (h1 !! l) as [[] |] eqn:Hl'; try discriminate.
      apply (Hne l _ Hl'). discriminate. }
  assert (Hother : forall p x, p <> c -> clause_at h p = Some x ->
                               clause_at h' p = Some x).
  { intros p x Hp Hx. apply (clause_at_overwrite h1 c cell0); try assumption.
    exact (clause_at_mono h h1 Hsub _ _ Hx). }
  exists h'. refine (conj eq_refl (conj Hnew (conj Hother _))).
  intros t tv bt ps Ht Hbt Hps.
  destruct (tx_at_inv h t tv Ht) as (bt' & Hbt' & Hcs & Hdep & Hres & Hsig & Htv).
  rewrite Hbt in Hbt'. injection Hbt' as <-.
  unfold read_clauses in Hcs. rewrite Hps in Hcs.
  change (mapM (clause_at h) ps = Some (Transaction.Clauses tv)) in Hcs.
  destruct (clauses_at_replace h h' c (Clause.mk b) ps _ Hother Hnew Hcs)
    as (cs' & Hcs' & Hidx).
  exists cs'. split; [| exact Hidx].
  assert (Hkeep : forall l o, h !! l = Some o -> (forall x, o <> OClause x) ->
                              h' !! l = Some o).
  { intros l o Hl Ho. unfold h'. rewrite lookup_insert_ne.
    - exact (lookup_weaken _ _ _ _ Hl Hsub).
    - intros ->. rewrite Hc in Hl. injection Hl as <-. exact (Ho cell0 eq_refl). }
  unfold tx_at.
  assert (Hbt1 : load_tx h' t = Some bt).
  { unfold load_tx in *. destruct (h !! t) as [[] |] eqn:Hl; try discriminate.
    rewrite (Hkeep _ _ Hl); [exact Hbt | discriminate]. }
  rewrite Hbt1. cbn.
  assert (Hps1 : read_ptrs h' (cell_Clauses bt) = Some ps).
  { unfold read_ptrs in *. destruct (cell_Clauses bt) as [l |]; [| exact Hps].
    destruct (h !! l) as [[] |] eqn:Hl; try discriminate.
    rewrite (Hkeep _ _ Hl); [exact Hps | discriminate]. }
  rewrite Hps1. cbn. rewrite Hcs'. cbn.
  assert (Hdep1 : read_array h' (cell_DependsOn bt) = Some (Transaction.DependsOn tv)).
  { unfold read_array in *. destruct (cell_DependsOn bt) as [l |]; [| exact Hdep].
    destruct (h !! l) as [[] |] eqn:Hl; try discriminate.
    rewrite (Hkeep _ _ Hl); [exact Hdep | discriminate]. }
  rewrite Hdep1. cbn.
  assert (Hres1 : read_items h' (cell_Reserved bt)
                  = Some (body.Reserved (Transaction.body tv))).
  { unfold read_items in *. destruct (cell_Reserved bt) as [l |]; [| exact Hres].
    destruct (h !! l) as [[] |] eqn:Hl; try discriminate.
    rewrite (Hkeep _ _ Hl); [exact Hres | discriminate]. }
  rewrite Hres1. cbn.
  assert (Hsig1 : read_bytes h' (cell_Signature bt) = Some (Transaction.Signature tv)).
  { unfold read_bytes in *. destruct (cell_Signature bt) as [l |]; [| exact Hsig].
    destruct (h !! l) as [[] |] eqn:Hl; try discriminate.
    rewrite (Hkeep _ _ Hl); [exact Hsig | discriminate]. }
  rewrite Hsig1. cbn.
  clear -Htv. destruct tv as [[ct br ex cl gp g dp nn rs sg]].
  cbn in Htv. injection Htv as -> -> -> -> -> ->. reflexivity.
Qed.

Lemma Clause_DecodeRLP_in_place_witness :
  exists (h' : heap) (cs' : list Clause.t),
    PtrClause.DecodeRLP sample_heap 2%nat false [196; 128; 128; 1; 128]
    = Some (h', Ok []) /\
    tx_at h' 4%nat = Some (with_clauses sample_tx cs') /\
    cs' !! 0%nat
    = Some (Clause.WithToken (Clause.NewClause None) MeterGovToken).
Proof.
  assert (Hdec : Clause.DecodeRLP false [196; 128; 128; 1; 128]
                 = Ok (Clause.WithToken (Clause.NewClause None) MeterGovToken, []))
    by (vm_compute; reflexivity).
  assert (Hold : clause_at sample_heap 2%nat = Some sample_clause)
    by (vm_compute; reflexivity).
  pose proof (Clause_DecodeRLP_in_place sample_heap 2%nat sample_clause false
                [196; 128; 128; 1; 128] Hold) as H.
  rewrite Hdec in H. destruct H as (h' & Hrun & _ & _ & Htx).
  destruct (Htx 4%nat sample_tx
              (mk_tx_cell 88 (Z.shiftl 1234 32) 100 (Some 3%nat) 128 21000
                          None 1234567 None None) [2%nat])
    as (cs' & Hat & Hidx); try (vm_compute; reflexivity).
  exists h', cs'. split; [exact Hrun |]. split; [exact Hat |].
  exact (Hidx 0%nat 2%nat eq_refl).
Defined.

(** Buffers survive when only structs are overwritten. *)
Lemma buffers_kept (h h' : heap) :
  (forall (l : loc) (o : object),
      h !! l = Some o ->
      (forall x, o <> OClause x) -> (forall x, o <> OTx x) ->
      h' !! l = Some o) ->
  (forall s bs, read_bytes h s = Some bs -> read_bytes h' s = Some bs) /\
  (forall p a, read_array h p = Some a -> read_array h' p = Some a) /\
  (forall p v, read_int h p = Some v -> read_int h' p = Some v) /\
  (forall s ps, read_ptrs h s = Some ps -> read_ptrs h' s = Some ps) /\
  (forall s vs, read_items h s = Some vs -> read_items h' s = Some vs).
Proof.
  intros Hkeep.
  unfold read_bytes, read_array, read_int, read_ptrs, read_items.
  repeat split; intros [l |] x H; try exact H;
    destruct (h !! l) as [[] |] eqn:Hl; try discriminate;
    rewrite (Hkeep _ _ Hl); first [exact H | discriminate].
Qed.

Lemma clause_at_kept (h h' : heap) (p : loc) (x : Clause.t) :
  (forall (l : loc) (o : object),
      h !! l = Some o -> (forall y, o <> OTx y) -> h' !! l = Some o) ->
  clause_at h p = Some x -> clause_at h' p = Some x.
Proof.
  intros Hkeep Hx.
  destruct (buffers_kept h h') as (Hb & Ha & Hi & _).
  { intros l o Hl _ Ho. exact (Hkeep l o Hl Ho). }
  destruct (clause_at_inv h p x Hx) as (b & Hload & Hto & Hv & Htok & Hd).
  assert (Hload' : load_clause h' p = Some b).
  { unfold load_clause in *. destruct (h !! p) as [[] |] eqn:Hl; try discriminate.
    rewrite (Hkeep _ _ Hl); [exact Hload | discriminate]. }
  pose proof (clause_at_intro h' p b _ _ _ Hload' (Ha _ _ Hto) (Hi _ _ Hv)
                (Hb _ _ Hd)) as H.
  rewrite H, Htok. destruct x as [[]]. reflexivity.
Qed.

Lemma store_clauses_spec (cs : list Clause.t) (h : heap) :
  h ⊆ (store_clauses h cs).1 /\
  mapM (clause_at (store_clauses h cs).1) (store_clauses h cs).2 = Some cs.
Proof.
  revert h. induction cs as [| c cs IH]; intros h.
  - split; reflexivity.
  - cbn [store_clauses].
    pose proof (store_clauseBody_spec h (Clause.body c)) as Hspec.
    cbv zeta in Hspec.
    destruct (store_clauseBody h (Clause.body c)) as [h1 cell].
    cbn [fst snd] in Hspec. destruct Hspec as (Hsub1 & Hto & Hv & Htok & Hd).
    destruct (alloc_spec h1 (OClause cell)) as (_ & _ & Hsub2).
    pose proof (load_clause_alloc h1 cell) as Hload.
    destruct (alloc h1 (OClause cell)) as [h2 p]. cbn [fst snd] in *.
    destruct (IH h2) as [Hsub3 Hrest].
    destruct (store_clauses h2 cs) as [h3 ps]. cbn [fst snd] in *.
    assert (H23 : h2 ⊆ h3) by exact Hsub3.
    assert (H13 : h1 ⊆ h3) by (etrans; [exact Hsub2 | exact H23]).
    split; [etrans; [exact Hsub1 | exact H13] |].
    apply mapM_Some. apply mapM_Some in Hrest.
    constructor; [| exact Hrest].
    apply (clause_at_mono h2 h3 H23).
    pose proof (clause_at_intro h2 p cell _ _ _ Hload
                  (read_array_mono h1 h2 Hsub2 _ _ Hto)
                  (read_int_mono h1 h2 Hsub2 _ _ Hv)
                  (read_bytes_mono h1 h2 Hsub2 _ _ Hd)) as H.
    rewrite H, Htok. destruct c as [[]]. reflexivity.
Qed.

Lemma store_body_spec (h : heap) (b : body.t) :
  h ⊆ (store_body h b).1 /\
  forall (h' : heap) (t : loc),
    (forall (l : loc) (o : object),
        (store_body h b).1 !! l = Some o -> (forall y, o <> OTx y) ->
        h' !! l = Some o) ->
    load_tx h' t = Some (store_body h b).2 ->
    tx_at h' t = Some (Transaction.mk b).
Proof.
  unfold store_body.
  destruct (store_clauses_spec (body.Clauses b) h) as [Hsub1 Hcs].
  destruct (store_clauses h (body.Clauses b)) as [h1 ps]. cbn [fst snd] in *.
  destruct (alloc_spec h1 (OPtrs ps)) as (_ & Heq2 & Hsub2).
  destruct (alloc h1 (OPtrs ps)) as [h2 lc]. cbn [fst snd] in *.
  set (r3 := match body.DependsOn b with
             | None => (h2, None)
             | Some a => let '(h0, l) := alloc h2 (OBytes a) in (h0, Some l)
             end).
  assert (H3 : h2 ⊆ r3.1 /\ read_array r3.1 r3.2 = Some (body.DependsOn b)).
  { subst r3. destruct (body.DependsOn b) as [a |]; cbn [fst snd].
    - destruct (alloc_spec h2 (OBytes a)) as (_ & Heq & Hsub).
      destruct (alloc h2 (OBytes a)) as [h0 l]. cbn [fst snd] in *.
      split; [exact Hsub |]. cbn [read_array].
      rewrite Heq, lookup_insert_eq. reflexivity.
    - split; reflexivity. }
  destruct r3 as [h3 dep]. cbn [fst snd] in H3. destruct H3 as [Hsub3 Hdep].
  destruct (alloc_spec h3 (OItems (body.Reserved b))) as (_ & Heq4 & Hsub4).
  destruct (alloc h3 (OItems (body.Reserved b))) as [h4 lr]. cbn [fst snd] in *.
  destruct (alloc_spec h4 (OBytes (body.Signature b))) as (_ & Heq5 & Hsub5).
  destruct (alloc h4 (OBytes (body.Signature b))) as [h5 ls]. cbn [fst snd] in *.
  assert (H45 : h4 ⊆ h5) by exact Hsub5.
  assert (H35 : h3 ⊆ h5) by (etrans; [exact Hsub4 | exact H45]).
  assert (H25 : h2 ⊆ h5) by (etrans; [exact Hsub3 | exact H35]).
  assert (H15 : h1 ⊆ h5) by (etrans; [exact Hsub2 | exact H25]).
  split; [etrans; [exact Hsub1 | exact H15] |].
  intros h' t Hkeep Hload.
  destruct (buffers_kept h5 h') as (Hb & Ha & _ & Hp & Hi).
  { intros l o Hl _ Ho. exact (Hkeep l o Hl Ho). }
  unfold tx_at. rewrite Hload.
  cbn [mbind option_bind cell_Clauses cell_DependsOn cell_Reserved
       cell_Signature cell_ChainTag cell_BlockRef cell_Expiration
       cell_GasPriceCoef cell_Gas cell_Nonce].
  assert (Hps : read_ptrs h' (Some lc) = Some ps).
  { apply Hp, (read_ptrs_mono h2 h5 H25).
    cbn [read_ptrs]. rewrite Heq2, lookup_insert_eq. reflexivity. }
  rewrite Hps. cbn [mbind option_bind].
  assert (Hcs' : mapM (clause_at h') ps = Some (body.Clauses b)).
  { apply mapM_Some. apply (clauses_at_mono h1 h5 H15) in Hcs.
    apply mapM_Some in Hcs.
    eapply Forall2_impl; [exact Hcs |]. intros p x Hx.
    exact (clause_at_kept h5 h' p x Hkeep Hx). }
  rewrite Hcs'. cbn [mbind option_bind].
  rewrite (Ha _ _ (read_array_mono h3 h5 H35 _ _ Hdep)).
  cbn [mbind option_bind].
  assert (Hres : read_items h' (Some lr) = Some (body.Reserved b)).
  { apply Hi, (read_items_mono h4 h5 H45).
    cbn [read_items]. rewrite Heq4, lookup_insert_eq. reflexivity. }
  rewrite Hres. cbn [mbind option_bind].
  assert (Hsig : read_bytes h' (Some ls) = Some (body.Signature b)).
  { apply Hb. cbn [read_bytes]. rewrite Heq5, lookup_insert_eq. reflexivity. }
  rewrite Hsig. cbn [mbind option_bind].
  destruct b. reflexivity.
Qed.

(** X16: [Transaction.DecodeRLP] overwrites its receiver only after a
    successful decoding, and nothing else.  On an error the store is
    unchanged; on success the receiver denotes the decoded transaction,
    and every clause pointer and every other transaction pointer denotes
    what it did before. *)
Theorem Transaction_DecodeRLP_in_place (h : heap) (t : loc)
  (old : Transaction.t) (fuel : nat) (inList : bool) (s : list Z) :
  tx_at h t = Some old ->
  match Transaction.DecodeRLP fuel inList s with
  | Err err => PtrTransaction.DecodeRLP h t fuel inList s = Some (h, Err err)
  | Ok (tv, s') =>
      exists h' : heap,
        PtrTransaction.DecodeRLP h t fuel inList s = Some (h', Ok s') /\
        tx_at h' t = Some tv /\
        (forall (p : loc) (x : Clause.t),
            clause_at h p = Some x -> clause_at h' p = Some x) /\
        (forall (t' : loc) (x : Transaction.t),
            t' <> t -> tx_at h t' = Some x -> tx_at h' t' = Some x)
  end.
Proof.
  intros Hold.
  destruct (tx_at_inv h t old Hold) as (cell0 & Hload & _).
  assert (Ht : h !! t = Some (OTx cell0)).
  { unfold load_tx in Hload.
    destruct (h !! t) as [[] |]; try discriminate. congruence. }
  unfold Transaction.DecodeRLP, PtrTransaction.DecodeRLP.
  destruct (rlp.Kind inList s) as [k | err]; cbn [rbind]; [| reflexivity].
  destruct (body.decode fuel inList s) as [[b s'] | err]; cbn [rbind];
    [| reflexivity].
  rewrite Hload. cbn -[store_body].
  destruct (store_body_spec h b) as [Hsub Hspec].
  destruct (store_body h b) as [h1 cell]. cbn [fst snd] in *.
  set (h' := <[t := OTx cell]> h1).
  assert (Ht1 : h1 !! t = Some (OTx cell0))
    by exact (lookup_weaken _ _ _ _ Ht Hsub).
  assert (Hkeep1 : forall l o, h1 !! l = Some o -> (forall y, o <> OTx y) ->
                               h' !! l = Some o).
  { intros l o Hl Ho. unfold h'. rewrite lookup_insert_ne; [exact Hl |].
    intros ->. rewrite Ht1 in Hl. injection Hl as <-. exact (Ho cell0 eq_refl). }
  assert (Hkeep : forall l o, h !! l = Some o -> (forall y, o <> OTx y) ->
                              h' !! l = Some o).
  { intros l o Hl Ho. apply Hkeep1; [| exact Ho].
    exact (lookup_weaken _ _ _ _ Hl Hsub). }
  exists h'. split; [reflexivity |]. split; [| split].
  - apply Hspec; [exact Hkeep1 |].
    unfold load_tx, h'. rewrite lookup_insert_eq. reflexivity.
  - intros p x Hx. exact (clause_at_kept h h' p x Hkeep Hx).
  - intros t' x Hne Hx.
    destruct (buffers_kept h h') as (Hb & Ha & _ & Hp & Hi).
    { intros l o Hl _ Ho. exact (Hkeep l o Hl Ho). }
    destruct (tx_at_inv h t' x Hx) as (bt & Hbt & Hcs & Hdep & Hres & Hsig & Hxv).
    unfold tx_at.
    assert (Hbt' : load_tx h' t' = Some bt).
    { unfold h'. rewrite load_tx_insert by exact Hne.
      exact (load_tx_mono h h1 Hsub _ _ Hbt). }
    rewrite Hbt'. cbn [mbind option_bind].
    unfold read_clauses in Hcs.
    destruct (read_ptrs h (cell_Clauses bt)) as [ps |] eqn:Hps; [| discriminate].
    change (mapM (clause_at h) ps = Some (Transaction.Clauses x)) in Hcs.
    rewrite (Hp _ _ Hps). cbn [mbind option_bind].
    assert (Hcs' : mapM (clause_at h') ps = Some (Transaction.Clauses x)).
    { apply mapM_Some. apply mapM_Some in Hcs.
      eapply Forall2_impl; [exact Hcs |]. intros p y Hy.
      exact (clause_at_kept h h' p y Hkeep Hy). }
    rewrite Hcs'. cbn [mbind option_bind].
    rewrite (Ha _ _ Hdep). cbn [mbind option_bind].
    rewrite (Hi _ _ Hres). cbn [mbind option_bind].
    rewrite (Hb _ _ Hsig). cbn [mbind option_bind].
    clear -Hxv. destruct x as [[ct br ex cl gp g dp nn rs sg]].
    cbn in Hxv. injection Hxv as -> -> -> -> -> ->. reflexivity.
Qed.

Lemma Transaction_DecodeRLP_in_place_witness :
  exists h' : heap,
    PtrTransaction.DecodeRLP sample_heap 4%nat 300 false
      (Transaction_bytes full_tx) = Some (h', Ok []) /\
    tx_at h' 4%nat = Some full_tx /\
    clause_at h' 2%nat = Some sample_clause.
Proof.
  assert (Hold : tx_at sample_heap 4%nat = Some sample_tx)
    by (vm_compute; reflexivity).
  pose proof (Transaction_DecodeRLP_in_place sample_heap 4%nat sample_tx 300
                false (Transaction_bytes full_tx) Hold) as H.
  assert (Hdec : Transaction.DecodeRLP 300 false (Transaction_bytes full_tx)
                 = Ok (full_tx, [])).
  { pose proof (DecodeRLP_Transaction_bytes full_tx 300 false [] full_tx_ok)
      as Hd.
    rewrite app_nil_r in Hd. apply Hd. vm_compute. reflexivity. }
  rewrite Hdec in H.
  destruct H as (h' & Hrun & Hat & Hclause & _).
  exists h'. split; [exact Hrun |]. split; [exact Hat |].
  apply Hclause. vm_compute. reflexivity.
Defined.

(** A location that holds an object is not a new one. *)
Lemma is_new_ne (h : heap) (r : option loc) (l : loc) :
  is_new h r -> is_Some (h !! l) -> r <> Some l.
Proof.
  intros Hnew [o Ho] ->. cbn in Hnew. congruence.
Qed.

(** X17: the [With...] methods copy their argument.  After
    [c.WithValue(v)], [c.WithData(d)] or [t.WithSignature(s)] the caller
    may overwrite [v], [d] or [s]: the accessor of the new value still
    returns the contents the argument had at the call. *)
Theorem With_copies_argument :
  (forall (h : heap) (c : loc) (value : option loc) (cv : Clause.t) (y : Z),
      clause_at h c = Some cv -> read_int h value = Some y ->
      exists (h' : heap) (c' : loc),
        PtrClause.WithValue h c value = Some (h', c') /\
        forall o : object,
        exists (h2 : heap) (r : option loc),
          PtrClause.Value (mutate h' value o) c' = Some (h2, r) /\
          read_int h2 r = Some y) /\
  (forall (h : heap) (c : loc) (data : option loc) (cv : Clause.t)
          (y : list Z),
      clause_at h c = Some cv -> read_bytes h data = Some y ->
      exists (h' : heap) (c' : loc),
        PtrClause.WithData h c data = Some (h', c') /\
        forall o : object,
        exists (h2 : heap) (r : option loc),
          PtrClause.Data (mutate h' data o) c' = Some (h2, r) /\
          read_bytes h2 r = Some y) /\
  (forall (h : heap) (t : loc) (sig : option loc) (tv : Transaction.t)
          (y : list Z),
      tx_at h t = Some tv -> read_bytes h sig = Some y ->
      exists (h' : heap) (t' : loc),
        PtrTransaction.WithSignature h t sig = Some (h', t') /\
        forall o : object,
        exists (h2 : heap) (r : option loc),
          PtrTransaction.Signature (mutate h' sig o) t' = Some (h2, r) /\
          read_bytes h2 r = Some y).
Proof.
  split; [| split].
  - intros h c value cv y Hc Hy.
    destruct (clause_at_inv h c cv Hc) as (b & Hb & _).
    destruct (copy_int_spec h value y Hy)
      as (h1 & v & Hcopy & Hnew & Hsub & _ & Hread).
    unfold PtrClause.WithValue. rewrite Hb. cbn -[alloc].
    rewrite Hcopy. cbn -[alloc].
    set (b' := mk_clause_cell (cell_To b) v (cell_Token b) (cell_Data b)).
    destruct (alloc_spec h1 (OClause b')) as (Hc' & _ & Hsub').
    pose proof (load_clause_alloc h1 b') as Hload.
    destruct (alloc h1 (OClause b')) as [h2 c']. cbn [fst snd] in *.
    exists h2, c'. split; [reflexivity |]. intros o.
    assert (Hafter : load_clause (mutate h2 value o) c' = Some b' /\
                     read_int (mutate h2 value o) v = Some y).
    { destruct value as [l |]; cbn [mutate].
      - assert (Hl : is_Some (h !! l)).
        { unfold read_int in Hy. destruct (h !! l); [eauto | discriminate]. }
        split.
        + rewrite load_clause_insert; [exact Hload |].
          intros ->. rewrite (new_below h h1 l Hsub Hc') in Hl.
          destruct Hl; discriminate.
        + rewrite read_int_insert by exact (is_new_ne h v l Hnew Hl).
          exact (read_int_mono h1 h2 Hsub' _ _ Hread).
      - split; [exact Hload | exact (read_int_mono h1 h2 Hsub' _ _ Hread)]. }
    destruct Hafter as [Hl' Hv'].
    destruct (copy_int_spec _ v y Hv') as (h3 & r & Hrun & _ & _ & _ & Hout).
    exists h3, r. split; [| exact Hout].
    unfold PtrClause.Value. rewrite Hl'. exact Hrun.
  - intros h c data cv y Hc Hy.
    destruct (clause_at_inv h c cv Hc) as (b & Hb & _).
    destruct (copy_bytes_spec h data y Hy)
      as (h1 & d & Hcopy & Hnew & Hsub & _ & Hread).
    unfold PtrClause.WithData. rewrite Hb. cbn -[alloc].
    rewrite Hcopy. cbn -[alloc].
    set (b' := mk_clause_cell (cell_To b) (cell_Value b) (cell_Token b) d).
    destruct (alloc_spec h1 (OClause b')) as (Hc' & _ & Hsub').
    pose proof (load_clause_alloc h1 b') as Hload.
    destruct (alloc h1 (OClause b')) as [h2 c']. cbn [fst snd] in *.
    exists h2, c'. split; [reflexivity |]. intros o.
    assert (Hafter : load_clause (mutate h2 data o) c' = Some b' /\
                     read_bytes (mutate h2 data o) d = Some y).
    { destruct data as [l |]; cbn [mutate].
      - assert (Hl : is_Some (h !! l)).
        { unfold read_bytes in Hy. destruct (h !! l); [eauto | discriminate]. }
        split.
        + rewrite load_clause_insert; [exact Hload |].
          intros ->. rewrite (new_below h h1 l Hsub Hc') in Hl.
          destruct Hl; discriminate.
        + rewrite read_bytes_insert by exact (is_new_ne h d l Hnew Hl).
          exact (read_bytes_mono h1 h2 Hsub' _ _ Hread).
      - split; [exact Hload | exact (read_bytes_mono h1 h2 Hsub' _ _ Hread)]. }
    destruct Hafter as [Hl' Hd'].
    destruct (copy_bytes_spec _ d y Hd') as (h3 & r & Hrun & _ & _ & _ & Hout).
    exists h3, r. split; [| exact Hout].
    unfold PtrClause.Data. rewrite Hl'. exact Hrun.
  - intros h t sig tv y Ht Hy.
    destruct (tx_at_inv h t tv Ht) as (b & Hb & _).
    destruct (copy_bytes_spec h sig y Hy)
      as (h1 & d & Hcopy & Hnew & Hsub & _ & Hread).
    unfold PtrTransaction.WithSignature. rewrite Hb. cbn -[alloc].
    rewrite Hcopy. cbn -[alloc].
    match goal with |- context [alloc h1 (OTx ?x)] => set (b' := x) end.
    destruct (alloc_spec h1 (OTx b')) as (Hc' & _ & Hsub').
    pose proof (load_tx_alloc h1 b') as Hload.
    destruct (alloc h1 (OTx b')) as [h2 t']. cbn [fst snd] in *.
    exists h2, t'. split; [reflexivity |]. intros o.
    assert (Hafter : load_tx (mutate h2 sig o) t' = Some b' /\
                     read_bytes (mutate h2 sig o) d = Some y).
    { destruct sig as [l |]; cbn [mutate].
      - assert (Hl : is_Some (h !! l)).
        { unfold read_bytes in Hy. destruct (h !! l); [eauto | discriminate]. }
        split.
        + rewrite load_tx_insert; [exact Hload |].
          intros ->. rewrite (new_below h h1 l Hsub Hc') in Hl.
          destruct Hl; discriminate.
        + rewrite read_bytes_insert by exact (is_new_ne h d l Hnew Hl).
          exact (read_bytes_mono h1 h2 Hsub' _ _ Hread).
      - split; [exact Hload | exact (read_bytes_mono h1 h2 Hsub' _ _ Hread)]. }
    destruct Hafter as [Hl' Hd'].
    destruct (copy_bytes_spec _ d y Hd') as (h3 & r & Hrun & _ & _ & _ & Hout).
    exists h3, r. split; [| exact Hout].
    unfold PtrTransaction.Signature. rewrite Hl'. exact Hrun.
Qed.

Lemma With_copies_argument_witness :
  exists (h' : heap) (c' : loc),
    PtrClause.WithData sample_heap 2%nat (Some 0%nat) = Some (h', c') /\
    exists (h2 : heap) (r : option loc),
      PtrClause.Data (mutate h' (Some 0%nat) (OBytes [])) c' = Some (h2, r) /\
      read_bytes h2 r = Some (default [] (Clause.To sample_clause)).
Proof.
  destruct With_copies_argument as (_ & Hdata & _).
  destruct (Hdata sample_heap 2%nat (Some 0%nat) sample_clause
              (default [] (Clause.To sample_clause)))
    as (h' & c' & Hrun & Hmut).
  - vm_compute. reflexivity.
  - vm_compute. reflexivity.
  - exists h', c'. split; [exact Hrun | apply Hmut].
Defined.

(** ** Signing, attaching, recovering *)

(** X18: the signer of a transaction with an attached signature is
    recovered against the signing hash of the transaction before the
    signature was attached, and the ID is the digest of that hash and
    the signer: two signatures that recover to the same address give
    the same ID, whatever their bytes. *)
Theorem ID_WithSignature `{C : Crypto} (tx : Transaction.t) (sig : list Z)
  (pub : PublicKey) :
  sig <> [] ->
  SigToPub (meter.Bytes (Transaction.SigningHash tx)) sig = Ok pub ->
  Transaction.Signer (Transaction.WithSignature tx sig)
  = (PubkeyToAddress pub, None) /\
  Transaction.ID (Transaction.WithSignature tx sig)
  = Blake2b_Sum (Transaction.SigningHash tx ++ PubkeyToAddress pub) /\
  (forall (sig' : list Z) (pub' : PublicKey),
      sig' <> [] ->
      SigToPub (meter.Bytes (Transaction.SigningHash tx)) sig' = Ok pub' ->
      PubkeyToAddress pub' = PubkeyToAddress pub ->
      Transaction.ID (Transaction.WithSignature tx sig')
      = Transaction.ID (Transaction.WithSignature tx sig)).
Proof.
  intros Hsig Hrec.
  assert (Hhash : forall s, Transaction.SigningHash (Transaction.WithSignature tx s)
                            = Transaction.SigningHash tx).
  { intros s. unfold Transaction.SigningHash.
    rewrite signingInput_WithSignature. reflexivity. }
  assert (Hid : forall s p, s <> [] ->
                  SigToPub (meter.Bytes (Transaction.SigningHash tx)) s = Ok p ->
                  Transaction.ID (Transaction.WithSignature tx s)
                  = Blake2b_Sum (Transaction.SigningHash tx ++ PubkeyToAddress p)).
  { intros s p Hs Hp.
    rewrite (ID_signed (Transaction.WithSignature tx s) p), Hhash;
      [reflexivity | exact Hs | rewrite Hhash; exact Hp]. }
  split; [| split].
  - rewrite Signer_signed by exact Hsig. rewrite Hhash.
    change (Transaction.Signature (Transaction.WithSignature tx sig)) with sig.
    rewrite Hrec. reflexivity.
  - exact (Hid sig pub Hsig Hrec).
  - intros sig' pub' Hsig' Hrec' Haddr.
    rewrite (Hid sig' pub' Hsig' Hrec'), (Hid sig pub Hsig Hrec), Haddr.
    reflexivity.
Qed.

Lemma ID_WithSignature_witness :
  @Transaction.ID sample_crypto
    (Transaction.WithSignature sample_tx (repeat 0 64 ++ [1]))
  = @Transaction.ID sample_crypto zero_signed_tx.
Proof.
  destruct (@ID_WithSignature sample_crypto sample_tx (repeat 0 65)
              (repeat 0 64))
    as (_ & _ & Hsame).
  - discriminate.
  - vm_compute. reflexivity.
  - apply (Hsame (repeat 0 64 ++ [1]) (repeat 0 64)).
    + discriminate.
    + vm_compute. reflexivity.
    + reflexivity.
Defined.

(** ** The number of fields *)

(** The struct decoder on a list that starts with the nine signed fields
    of a well-formed transaction: they are read back, and what follows
    them in the list is left to the decoder of the signature and to the
    end-of-list check. *)
Lemma body_decode_signed (tx : Transaction.t) (fuel : nat) (inList : bool)
  (rest after : list Z) :
  Transaction_ok tx ->
  rlp.len (Transaction_signed tx) < Z.of_nat fuel ->
  rlp.len (Transaction_signed tx ++ rest) < 2 ^ 64 ->
  body.decode fuel inList
    (rlp.encodeList (Transaction_signed tx ++ rest) ++ after)
  = (do (signature, p) <- rlp.field rlp.Bytes rest;
     do _ <- rlp.ListEnd p;
     Ok (Transaction.body (Transaction.WithSignature tx signature), after)).
Proof.
  intros (Htag & Href & Hexp & Hcs & Hcoef & Hgas & Hdep & Hnonce & Hres & Hsig
          & _) Hfuel Hfit.
  unfold body.decode. rewrite List_encodeList by exact Hfit. cbn [rbind].
  rewrite len_app in Hfit. pose proof (len_nonneg rest) as Hrest.
  unfold Transaction_signed in *.
  set (b := Transaction.body tx) in *.
  set (cs := concat (map Clause_bytes (body.Clauses b))) in *.
  set (rs := concat (map rlp.encodeItem (body.Reserved b))) in *.
  rewrite !len_app in Hfit, Hfuel.
  pose proof (encodeList_len cs). pose proof (encodeList_len rs).
  pose proof (len_nonneg cs). pose proof (len_nonneg rs).
  pose proof (len_nonneg (rlp.writeUint (body.ChainTag b))).
  pose proof (len_nonneg (rlp.writeUint (body.BlockRef b))).
  pose proof (len_nonneg (rlp.writeUint (body.Expiration b))).
  pose proof (len_nonneg (rlp.writeUint (body.GasPriceCoef b))).
  pose proof (len_nonneg (rlp.writeUint (body.Gas b))).
  pose proof (len_nonneg (rlp.writeUint (body.Nonce b))).
  pose proof (len_nonneg (rlp.writeByteArrayPtr (body.DependsOn b))).
  repeat rewrite <- app_assoc.
  rewrite (field_Ok _ _ (body.ChainTag b, _)
             (uint_writeUint true 1 _ _ ltac:(lia) Htag)). cbn [rbind].
  rewrite (field_Ok _ _ (body.BlockRef b, _)
             (uint_writeUint true 8 _ _ ltac:(lia) Href)). cbn [rbind].
  rewrite (field_Ok _ _ (body.Expiration b, _)
             (uint_writeUint true 4 _ _ ltac:(lia) Hexp)). cbn [rbind].
  assert (Hclauses : Forall (fun c => Clause_ok c /\ rlp.len (Clause_bytes c) < 2 ^ 64)
                            (body.Clauses b)).
  { apply Forall_forall. intros c Hc. split.
    - rewrite Forall_forall in Hcs. apply Hcs, Hc.
    - apply list_elem_of_In in Hc.
      pose proof (concat_len_elem Clause_bytes _ c Hc) as Hle. fold cs in Hle. lia. }
  assert (Hccount : Z.of_nat (length (body.Clauses b)) <= rlp.len cs).
  { apply concat_len_count. intros c _. apply Clause_bytes_nonempty. }
  rewrite (field_Ok _ _ (body.Clauses b, _)
             (decodeListSlice_encodeList Clause_bytes Clause.DecodeRLP _ _ fuel
                true _
                (fun c s' H => Clause_DecodeRLP_bytes true c s' (proj1 H) (proj2 H))
                Clause_DecodeRLP_EOL Hclauses ltac:(lia) ltac:(fold cs; lia))).
  cbn [rbind].
  rewrite (field_Ok _ _ (body.GasPriceCoef b, _)
             (uint_writeUint true 1 _ _ ltac:(lia) Hcoef)). cbn [rbind].
  rewrite (field_Ok _ _ (body.Gas b, _)
             (uint_writeUint true 8 _ _ ltac:(lia) Hgas)). cbn [rbind].
  rewrite (field_Ok _ _ (body.DependsOn b, _)
             (optionalPtr_writeByteArrayPtr true 32 _ _ ltac:(lia) ltac:(lia) Hdep)).
  cbn [rbind].
  rewrite (field_Ok _ _ (body.Nonce b, _)
             (uint_writeUint true 8 _ _ ltac:(lia) Hnonce)). cbn [rbind].
  assert (Hitems : Forall (fun v => item_ok v /\ rlp.len (rlp.encodeItem v) < 2 ^ 64
                                    /\ rlp.len (rlp.encodeItem v) < Z.of_nat fuel)
                          (body.Reserved b)).
  { apply Forall_forall. intros v Hv. split.
    - rewrite Forall_forall in Hres. apply Hres, Hv.
    - apply list_elem_of_In in Hv.
      pose proof (concat_len_elem rlp.encodeItem _ v Hv) as Hle. fold rs in Hle. lia. }
  assert (Hrcount : Z.of_nat (length (body.Reserved b)) <= rlp.len rs).
  { apply concat_len_count. intros v _. apply encodeItem_nonempty. }
  assert (Hfuel1 : exists fuel', fuel = S fuel').
  { destruct fuel; [lia | eauto]. }
  rewrite (field_Ok _ _ (body.Reserved b, _)
             (decodeListSlice_encodeList rlp.encodeItem (rlp.decodeInterface fuel)
                _ _ fuel true _
                (fun v s' H =>
                   decodeInterface_encodeItem v fuel true s' (proj1 H)
                     (proj1 (proj2 H)) (proj2 (proj2 H)))
                ltac:(destruct Hfuel1 as [fuel' ->]; reflexivity)
                Hitems ltac:(lia) ltac:(fold rs; lia))).
  cbn [rbind]. reflexivity.
Qed.

(** X19: a transaction has ten fields.  The bytes hashed for signing, the
    list of the nine signed fields, do not decode as a transaction
    ("too few elements"); the ten fields of a well-formed transaction
    followed by anything more in the same list do not decode either
    ("input list has too many elements"). *)
Theorem DecodeBytes_arity (tx : Transaction.t) :
  Transaction_ok tx ->
  (exists bs : list Z,
      Transaction.signingInput tx = Ok bs /\
      DecodeBytes bs = Err rlp_errTooFewElements) /\
  (forall extra : list Z,
      extra <> [] ->
      rlp.len (Transaction_payload tx ++ extra) < 2 ^ 64 ->
      DecodeBytes (rlp.encodeList (Transaction_payload tx ++ extra))
      = Err rlp_errNotAtEOL).
Proof.
  intros Hok.
  destruct (Transaction_ok_fits tx Hok) as (_ & Hpay & Hfit).
  pose proof Hok as (_ & _ & _ & Hcs & _ & _ & _ & _ & _ & Hsig & _).
  pose proof (Transaction_payload_split tx) as Hsplit.
  pose proof (len_nonneg (Transaction_signed tx)) as Hnn.
  pose proof (encodeString_len (body.Signature (Transaction.body tx))) as Hs.
  pose proof (len_nonneg (body.Signature (Transaction.body tx))) as Hs0.
  assert (Hlen : rlp.len (Transaction_payload tx)
                 = rlp.len (Transaction_signed tx)
                   + rlp.len (rlp.encodeString
                                (body.Signature (Transaction.body tx)))).
  { rewrite Hsplit, len_app. reflexivity. }
  assert (Hdec : forall rest : list Z,
             rlp.len (Transaction_signed tx ++ rest) < 2 ^ 64 ->
             DecodeBytes (rlp.encodeList (Transaction_signed tx ++ rest))
             = (do (b, s') <-
                  (do (signature, p) <- rlp.field rlp.Bytes rest;
                   do _ <- rlp.ListEnd p;
                   Ok (Transaction.body (Transaction.WithSignature tx signature),
                       @nil Z));
                match s' with
                | [] => Ok (Transaction.mk b)
                | _ :: _ => Err rlp_ErrMoreThanOneValue
                end)).
  { intros rest Hrest. unfold DecodeBytes, Transaction.DecodeRLP.
    set (payload := Transaction_signed tx ++ rest) in *.
    pose proof (encodeList_len payload) as Hl.
    assert (HK : rlp.Kind false (rlp.encodeList payload)
                 = Ok (rlp.List, rlp.len payload, 0, payload ++ [])).
    { unfold rlp.encodeList. rewrite <- (app_nil_r payload) at 2.
      apply Kind_list. exact Hrest. }
    rewrite HK. cbn [rbind].
    rewrite <- (app_nil_r (rlp.encodeList payload)) at 2.
    subst payload.
    rewrite (body_decode_signed tx _ false rest [] Hok); [| | exact Hrest].
    - destruct (rlp.field rlp.Bytes rest) as [[sg p] |]; cbn [rbind];
        [| reflexivity].
      destruct (rlp.ListEnd p); reflexivity.
    - rewrite len_app in Hl.
      pose proof (len_nonneg rest). unfold rlp.len in *. lia. }
  split.
  - exists (rlp.encodeList (Transaction_signed tx)).
    split; [exact (signingInput_ok tx Hcs) |].
    rewrite <- (app_nil_r (Transaction_signed tx)).
    rewrite Hdec by (rewrite app_nil_r; lia). reflexivity.
  - intros extra Hextra Hbound.
    rewrite Hsplit, <- app_assoc in Hbound |- *.
    rewrite Hdec by exact Hbound.
    unfold rlp.field.
    rewrite Bytes_encodeString by (try exact Hsig; lia).
    cbn [rbind]. destruct extra; [contradiction | reflexivity].
Qed.

Lemma DecodeBytes_arity_witness :
  exists bs : list Z,
    Transaction.signingInput full_tx = Ok bs /\
    DecodeBytes bs = Err rlp_errTooFewElements.
Proof. exact (proj1 (DecodeBytes_arity full_tx full_tx_ok)). Defined.

(** ** What the clause pointers share *)

(** Overwriting the clause struct behind a pointer changes the clauses of
    every transaction that holds the pointer, at the positions that hold
    it, and nothing else of the transaction. *)
Lemma tx_at_overwrite_clause (h : heap) (c : loc) (cell : clause_cell)
  (cv : Clause.t) (t : loc) (tv : Transaction.t) (b : tx_cell)
  (ps : list loc) :
  is_Some (load_clause h c) ->
  clause_at (<[c := OClause cell]> h) c = Some cv ->
  tx_at h t = Some tv -> load_tx h t = Some b ->
  read_ptrs h (cell_Clauses b) = Some ps ->
  exists cs' : list Clause.t,
    tx_at (<[c := OClause cell]> h) t = Some (with_clauses tv cs') /\
    forall (i : nat) (p : loc),
      ps !! i = Some p ->
      cs' !! i = if decide (p = c) then Some cv
                 else Transaction.Clauses tv !! i.
Proof.
  intros [cell0 Hload] Hnew Ht Hb Hps.
  assert (Hc : h !! c = Some (OClause cell0)).
  { unfold load_clause in Hload.
    destruct (h !! c) as [[] |]; try discriminate. congruence. }
  set (h' := <[c := OClause cell]> h) in *.
  assert (Hother : forall p x, p <> c -> clause_at h p = Some x ->
                               clause_at h' p = Some x).
  { intros p x Hp Hx. exact (clause_at_overwrite h c cell0 cell p x Hc Hp Hx). }
  destruct (tx_at_inv h t tv Ht) as (b' & Hb' & Hcs & Hdep & Hres & Hsig & Htv).
  rewrite Hb in Hb'. injection Hb' as <-.
  unfold read_clauses in Hcs. rewrite Hps in Hcs.
  change (mapM (clause_at h) ps = Some (Transaction.Clauses tv)) in Hcs.
  destruct (clauses_at_replace h h' c cv ps _ Hother Hnew Hcs)
    as (cs' & Hcs' & Hidx).
  exists cs'. split; [| exact Hidx].
  assert (Hkeep : forall l o, h !! l = Some o -> (forall x, o <> OClause x) ->
                              h' !! l = Some o).
  { intros l o Hl Ho. unfold h'. rewrite lookup_insert_ne; [exact Hl |].
    intros ->. rewrite Hc in Hl. injection Hl as <-. exact (Ho cell0 eq_refl). }
  destruct (buffers_kept h h') as (Hbytes & Harr & _ & Hptrs & Hitems).
  { intros l o Hl Ho _. exact (Hkeep l o Hl Ho). }
  assert (Hb1 : load_tx h' t = Some b).
  { unfold load_tx in *. destruct (h !! t) as [[] |] eqn:Hl; try discriminate.
    rewrite (Hkeep _ _ Hl); [exact Hb | discriminate]. }
  unfold tx_at. rewrite Hb1. cbn [mbind option_bind].
  rewrite (Hptrs _ _ Hps). cbn [mbind option_bind].
  rewrite Hcs'. cbn [mbind option_bind].
  rewrite (Harr _ _ Hdep). cbn [mbind option_bind].
  rewrite (Hitems _ _ Hres). cbn [mbind option_bind].
  rewrite (Hbytes _ _ Hsig). cbn [mbind option_bind].
  clear -Htv. destruct tv as [[ct br ex cl gp g dp nn rs sg]].
  cbn in Htv. injection Htv as -> -> -> -> -> ->. reflexivity.
Qed.

(** The slice [Clauses] returns holds the pointers of the transaction's
    own slice. *)
Lemma Clauses_own_pointers (h : heap) (t : loc) (tv : Transaction.t) :
  tx_at h t = Some tv ->
  exists (h' : heap) (r : option loc) (b : tx_cell) (ps : list loc),
    PtrTransaction.Clauses h t = Some (h', r) /\
    h ⊆ h' /\
    load_tx h t = Some b /\
    read_ptrs h (cell_Clauses b) = Some ps /\
    read_ptrs h' r = Some ps /\
    mapM (clause_at h) ps = Some (Transaction.Clauses tv).
Proof.
  intros Ht.
  destruct (tx_at_inv h t tv Ht) as (b & Hb & Hcs & _).
  unfold read_clauses in Hcs.
  destruct (read_ptrs h (cell_Clauses b)) as [ps |] eqn:Hps; [| discriminate].
  change (mapM (clause_at h) ps = Some (Transaction.Clauses tv)) in Hcs.
  unfold PtrTransaction.Clauses. rewrite Hb. cbn [mbind option_bind].
  unfold copy_ptrs. unfold read_ptrs in Hps.
  destruct (cell_Clauses b) as [l |] eqn:Hcl.
  - destruct (h !! l) as [[| | ps' | | |] |] eqn:Hl; try discriminate.
    injection Hps as ->. destruct ps as [| p ps].
    + exists h, None, b, []. rewrite Hcl. cbn [read_ptrs]. rewrite Hl.
      refine (conj eq_refl (conj _ (conj eq_refl (conj eq_refl
                (conj eq_refl Hcs))))). reflexivity.
    + destruct (alloc_spec h (OPtrs (p :: ps))) as (_ & Heq & Hsub).
      destruct (alloc h (OPtrs (p :: ps))) as [h1 l1]. cbn [fst snd] in *.
      exists h1, (Some l1), b, (p :: ps). rewrite Hcl. cbn [read_ptrs]. rewrite Hl.
      refine (conj eq_refl (conj Hsub (conj eq_refl (conj eq_refl
                (conj _ Hcs))))).
      rewrite Heq, lookup_insert_eq. reflexivity.
  - injection Hps as <-. exists h, None, b, []. rewrite Hcl.
    refine (conj eq_refl (conj _ (conj eq_refl (conj eq_refl
              (conj eq_refl Hcs))))). reflexivity.
Qed.

(** The transaction [WithSignature] returns has the clause slice, the
    dependency and the reserved slice of its source. *)
Lemma WithSignature_shares (h : heap) (t : loc) (sig : option loc)
  (tv : Transaction.t) (y : list Z) :
  tx_at h t = Some tv -> read_bytes h sig = Some y ->
  exists (h' : heap) (t' : loc) (b b' : tx_cell),
    PtrTransaction.WithSignature h t sig = Some (h', t') /\
    h ⊆ h' /\
    load_tx h t = Some b /\
    load_tx h' t' = Some b' /\
    cell_Clauses b' = cell_Clauses b /\
    cell_DependsOn b' = cell_DependsOn b /\
    cell_Reserved b' = cell_Reserved b.
Proof.
  intros Ht Hy.
  destruct (tx_at_inv h t tv Ht) as (b & Hb & _).
  destruct (copy_bytes_spec h sig y Hy) as (h1 & s & Hcopy & _ & Hsub & _ & _).
  unfold PtrTransaction.WithSignature. rewrite Hb. cbn -[alloc].
  rewrite Hcopy. cbn -[alloc].
  match goal with |- context [alloc h1 (OTx ?x)] => set (b' := x) end.
  destruct (alloc_spec h1 (OTx b')) as (_ & _ & Hsub').
  pose proof (load_tx_alloc h1 b') as Hload.
  destruct (alloc h1 (OTx b')) as [h' t']. cbn [fst snd] in *.
  exists h', t', b, b'.
  refine (conj eq_refl (conj _ (conj eq_refl (conj Hload
            (conj eq_refl (conj eq_refl eq_refl)))))).
  etrans; [exact Hsub | exact Hsub'].
Qed.

(** C8 (amended): [WithValue], [WithData], [WithToken] and
    [WithSignature] return a pointer that was not in use, denoting the
    updated value; they change no object of the store, so the receiver
    denotes what it denoted.  [To], [Value], [Data], [DependsOn] and
    [Signature] return a new buffer with the field's contents, and
    [Clauses] a new slice; overwriting the returned buffer or slice
    changes neither what the receiver denotes nor what the accessor
    returns afterwards.  The elements of the slice [Clauses] returns are
    the pointers of the transaction's own slice, which the transaction
    [WithSignature] returns has as well: the clauses are not copied.
    Overwriting the clause behind one of these pointers (what
    [Clause.DecodeRLP] does with its receiver) changes the clauses of the
    transaction at the positions that hold the pointer, and [Clauses]
    returns the changed clauses afterwards. *)
Theorem immutable_except_clauses :
  (returns_new PtrClause.WithValue clause_at read_int Clause.WithValue /\
   returns_new PtrClause.WithData clause_at read_bytes Clause.WithData /\
   returns_new PtrClause.WithToken clause_at (fun _ token => Some token)
               Clause.WithToken /\
   returns_new PtrTransaction.WithSignature tx_at read_bytes
               Transaction.WithSignature) /\
  (returns_copy PtrClause.To clause_at read_array Clause.To /\
   returns_copy PtrClause.Value clause_at read_int Clause.Value /\
   returns_copy PtrClause.Data clause_at read_bytes Clause.Data /\
   returns_copy PtrTransaction.Clauses tx_at read_clauses Transaction.Clauses /\
   returns_copy PtrTransaction.DependsOn tx_at read_array Transaction.DependsOn /\
   returns_copy PtrTransaction.Signature tx_at read_bytes Transaction.Signature) /\
  (* the returned slice holds the transaction's own clause pointers *)
  (forall (h : heap) (t : loc) (tv : Transaction.t),
      tx_at h t = Some tv ->
      exists (h' : heap) (r : option loc) (b : tx_cell) (ps : list loc),
        PtrTransaction.Clauses h t = Some (h', r) /\
        load_tx h' t = Some b /\
        read_ptrs h' (cell_Clauses b) = Some ps /\
        read_ptrs h' r = Some ps /\
        (* writing through one of them changes the transaction *)
        forall (c : loc) (cell : clause_cell) (cv : Clause.t),
          c ∈ ps ->
          clause_at (<[c := OClause cell]> h') c = Some cv ->
          exists (cs' : list Clause.t) (h2 : heap) (r2 : option loc),
            tx_at (<[c := OClause cell]> h') t = Some (with_clauses tv cs') /\
            (forall (i : nat) (p : loc),
                ps !! i = Some p ->
                cs' !! i = if decide (p = c) then Some cv
                           else Transaction.Clauses tv !! i) /\
            PtrTransaction.Clauses (<[c := OClause cell]> h') t = Some (h2, r2) /\
            read_clauses h2 r2 = Some cs') /\
  (* the transaction WithSignature returns shares them *)
  (forall (h : heap) (t : loc) (sig : option loc) (tv : Transaction.t)
          (y : list Z),
      tx_at h t = Some tv -> read_bytes h sig = Some y ->
      exists (h' : heap) (t' : loc) (b b' : tx_cell),
        PtrTransaction.WithSignature h t sig = Some (h', t') /\
        load_tx h' t = Some b /\
        load_tx h' t' = Some b' /\
        cell_Clauses b' = cell_Clauses b).
Proof.
  destruct immutable_values
    as (HWV & HWD & HWT & HWS & HTo & HValue & HData & HClauses & HDep & HSig).
  split; [exact (conj HWV (conj HWD (conj HWT HWS))) |].
  split; [exact (conj HTo (conj HValue (conj HData (conj HClauses
                   (conj HDep HSig))))) |].
  split.
  - intros h t tv Ht.
    destruct (Clauses_own_pointers h t tv Ht)
      as (h' & r & b & ps & Hrun & Hsub & Hb & Hps & Hr & Hcs).
    pose proof (tx_at_mono h h' Hsub _ _ Ht) as Ht'.
    pose proof (load_tx_mono h h' Hsub _ _ Hb) as Hb'.
    pose proof (read_ptrs_mono h h' Hsub _ _ Hps) as Hps'.
    exists h', r, b, ps.
    refine (conj Hrun (conj Hb' (conj Hps' (conj Hr _)))).
    intros c cell cv Hin Hnew.
    assert (Hload : is_Some (load_clause h' c)).
    { apply mapM_Some in Hcs.
      destruct (list_elem_of_lookup_1 _ _ Hin) as [i Hi].
      destruct (Forall2_lookup_l _ _ _ _ _ Hcs Hi) as (x & _ & Hx).
      destruct (clause_at_inv h c x Hx) as (b0 & Hb0 & _).
      exists b0. exact (load_clause_mono h h' Hsub _ _ Hb0). }
    destruct (tx_at_overwrite_clause h' c cell cv t tv b ps Hload Hnew Ht' Hb' Hps')
      as (cs' & Hat & Hidx).
    destruct (HClauses _ t _ Hat) as (h2 & r2 & Hrun2 & _ & _ & Hread2 & _).
    exists cs', h2, r2.
    refine (conj Hat (conj Hidx (conj Hrun2 Hread2))).
  - intros h t sig tv y Ht Hy.
    destruct (WithSignature_shares h t sig tv y Ht Hy)
      as (h' & t' & b & b' & Hrun & Hsub & Hb & Hb' & Hcl & _).
    exists h', t', b, b'.
    refine (conj Hrun (conj (load_tx_mono h h' Hsub _ _ Hb) (conj Hb' Hcl))).
Qed.

Lemma immutable_except_clauses_witness :
  (exists (h' : heap) (r : option loc),
      PtrClause.To sample_heap 2%nat = Some (h', r) /\
      read_array h' r = Some (Clause.To sample_clause) /\
      clause_at (mutate h' r (OBytes (repeat 255 20))) 2%nat
      = Some sample_clause) /\
  (exists (h' : heap) (r : option loc) (cs' : list Clause.t),
      PtrTransaction.Clauses sample_heap 4%nat = Some (h', r) /\
      read_ptrs h' r = Some [2%nat] /\
      tx_at (<[2%nat := OClause (mk_clause_cell None (Some 1%nat)
                                                MeterGovToken None)]> h') 4%nat
      = Some (with_clauses sample_tx cs') /\
      cs' !! 0%nat
      = Some (Clause.WithToken
                (Clause.WithValue (Clause.NewClause None) 2000000000000000000)
                MeterGovToken)).
Proof.
  destruct immutable_except_clauses as (_ & (HTo & _) & HClauses & _).
  split.
  - destruct (HTo sample_heap 2%nat sample_clause)
      as (h' & r & Hrun & _ & _ & Hread & _ & Hmut).
    + vm_compute. reflexivity.
    + exists h', r. split; [exact Hrun |]. split; [exact Hread |].
      destruct (Hmut (OBytes (repeat 255 20))) as [Hsame _]. exact Hsame.
  - destruct (HClauses sample_heap 4%nat sample_tx)
      as (h' & r & b & ps & Hrun & Hb & Hps & Hr & Hwrite).
    + vm_compute. reflexivity.
    + assert (Hall : PtrTransaction.Clauses sample_heap 4%nat
                     = Some (h', r) /\ read_ptrs h' r = Some ps)
        by (split; assumption).
      assert (Hps2 : ps = [2%nat]).
      { clear -Hall. destruct Hall as [Hrun Hr].
        vm_compute in Hrun. injection Hrun as <- <-.
        vm_compute in Hr. congruence. }
      subst ps.
      destruct (Hwrite 2%nat
                  (mk_clause_cell None (Some 1%nat) MeterGovToken None)
                  (Clause.WithToken
                     (Clause.WithValue (Clause.NewClause None)
                                       2000000000000000000)
                     MeterGovToken))
        as (cs' & h2 & r2 & Hat & Hidx & _).
      * apply list_elem_of_here.
      * clear -Hrun. vm_compute in Hrun. injection Hrun as <- _.
        vm_compute. reflexivity.
      * exists h', r, cs'. split; [exact Hrun |]. split; [exact Hr |].
        split; [exact Hat |].
        pose proof (Hidx 0%nat 2%nat eq_refl) as H0.
        destruct (decide (2%nat = 2%nat)); [exact H0 | congruence].
Defined.

(** C8 as stated: on the store of the demo transaction [WithSignature]
    makes a second transaction, and [Clauses] returns a slice whose
    element is the clause pointer of both.  Decoding another clause into
    that pointer with [Clause.DecodeRLP] changes what [Clauses] returns
    afterwards, for the transaction and for the one [WithSignature]
    returned: the returned pointer is no independent copy. *)
Lemma Clauses_independent_copy_counterexample :
  exists (h1 h2 h3 : heap) (t' r : loc),
    PtrTransaction.WithSignature sample_heap 4%nat None = Some (h1, t') /\
    PtrTransaction.Clauses h1 4%nat = Some (h2, Some r) /\
    read_ptrs h2 (Some r) = Some [2%nat] /\
    read_clauses h2 (Some r) = Some [sample_clause] /\
    PtrClause.DecodeRLP h2 2%nat false [196; 128; 128; 1; 128]
    = Some (h3, Ok []) /\
    (exists (h4 : heap) (r4 : option loc),
        PtrTransaction.Clauses h3 4%nat = Some (h4, r4) /\
        read_clauses h4 r4
        = Some [Clause.WithToken (Clause.NewClause None) MeterGovToken]) /\
    (exists (h4 : heap) (r4 : option loc),
        PtrTransaction.Clauses h3 t' = Some (h4, r4) /\
        read_clauses h4 r4
        = Some [Clause.WithToken (Clause.NewClause None) MeterGovToken]) /\
    Clause.WithToken (Clause.NewClause None) MeterGovToken <> sample_clause.
Proof.
  do 5 eexists.
  split; [vm_compute; reflexivity |].
  split; [vm_compute; reflexivity |].
  split; [vm_compute; reflexivity |].
  split; [vm_compute; reflexivity |].
  split; [vm_compute; reflexivity |].
  split; [do 2 eexists; split; vm_compute; reflexivity |].
  split; [do 2 eexists; split; vm_compute; reflexivity |].
  vm_compute. discriminate.
Qed.
